(** * imagejs: the hash cache and its persistent variant

    A shallow embedding of [packages/core/src/modules/cache.ts]: the
    classes [HashCache] and [PersistentHashCache], together with the parts
    of the JavaScript runtime they rest on (ordered [Map]s, [JSON], timers,
    whole-file reads and writes, the [crypto] digest); and of the cache's
    caller, [ImageTransformer] of [packages/core/src/modules/transformers.ts],
    with JavaScript's numbers.

    Conventions.
    - A JavaScript string is a [string], read as its UTF-8 bytes; a
      [Buffer] is a [list byte].
    - A JavaScript number that counts or measures milliseconds is a [Z].
    - [undefined] for an optional argument is [None]; a value of type
      [number | null] is an [option Z] with [None] for [null]. *)

From Stdlib Require Import ZArith List Strings.String Strings.Ascii Strings.Byte Bool Lia.
From Stdlib Require Import Numbers.DecimalString Sorting.Permutation.
From Stdlib Require Floats.SpecFloat.
Set Warnings "-register-all".
Import ListNotations.
Local Open Scope string_scope.
Local Open Scope list_scope.
Local Open Scope Z_scope.

(** String concatenation, kept apart from the lists' [++]. *)
Infix "+++" := String.append (right associativity, at level 60).

(** ** The crypto collaborator *)

Module Crypto.

(** [createHash(algorithm).update(data).digest(encoding)]: the digest of
    [data], as text.  The library is outside the repository; the cache is
    written against this signature. *)
Definition Digest := string -> string -> list byte -> string.

(** SHA-256 (FIPS 180-4) over 32-bit words carried in [Z]. *)
Definition w32 (x : Z) : Z := x mod 2 ^ 32.
Definition add32 (x y : Z) : Z := w32 (x + y).
Definition rotr (n x : Z) : Z :=
  w32 (Z.lor (Z.shiftr x n) (Z.shiftl x (32 - n))).
Definition ch (x y z : Z) : Z :=
  Z.lxor (Z.land x y) (Z.land (Z.lnot x) z).
Definition maj (x y z : Z) : Z :=
  Z.lxor (Z.lxor (Z.land x y) (Z.land x z)) (Z.land y z).
Definition bsig0 (x : Z) : Z := Z.lxor (Z.lxor (rotr 2 x) (rotr 13 x)) (rotr 22 x).
Definition bsig1 (x : Z) : Z := Z.lxor (Z.lxor (rotr 6 x) (rotr 11 x)) (rotr 25 x).
Definition ssig0 (x : Z) : Z := Z.lxor (Z.lxor (rotr 7 x) (rotr 18 x)) (Z.shiftr x 3).
Definition ssig1 (x : Z) : Z := Z.lxor (Z.lxor (rotr 17 x) (rotr 19 x)) (Z.shiftr x 10).

Definition round_constants : list Z :=
  [ 1116352408; 1899447441; 3049323471; 3921009573; 961987163; 1508970993;
    2453635748; 2870763221; 3624381080; 310598401; 607225278; 1426881987;
    1925078388; 2162078206; 2614888103; 3248222580; 3835390401; 4022224774;
    264347078; 604807628; 770255983; 1249150122; 1555081692; 1996064986;
    2554220882; 2821834349; 2952996808; 3210313671; 3336571891; 3584528711;
    113926993; 338241895; 666307205; 773529912; 1294757372; 1396182291;
    1695183700; 1986661051; 2177026350; 2456956037; 2730485921; 2820302411;
    3259730800; 3345764771; 3516065817; 3600352804; 4094571909; 275423344;
    430227734; 506948616; 659060556; 883997877; 958139571; 1322822218;
    1537002063; 1747873779; 1955562222; 2024104815; 2227730452; 2361852424;
    2428436474; 2756734187; 3204031479; 3329325298 ].

Definition initial_hash : list Z :=
  [ 1779033703; 3144134277; 1013904242; 2773480762;
    1359893119; 2600822924; 528734635; 1541459225 ].

(** Big-endian bytes of [x], [n] of them. *)
Fixpoint be_bytes (n : nat) (x : Z) : list Z :=
  match n with
  | O => []
  | S m => (Z.shiftr x (8 * Z.of_nat m)) mod 256 :: be_bytes m x
  end.

Definition pad (msg : list Z) : list Z :=
  let len := Z.of_nat (List.length msg) in
  let zeros := Z.to_nat ((55 - len) mod 64) in
  msg ++ [128] ++ repeat 0 zeros ++ be_bytes 8 (8 * len).

Fixpoint words (n : nat) (bs : list Z) : list Z :=
  match n with
  | O => []
  | S m =>
    match bs with
    | a :: b :: c :: d :: rest =>
      (((a * 256 + b) * 256 + c) * 256 + d) :: words m rest
    | _ => []
    end
  end.

(** The message schedule, newest word first: [extend n sched] adds [n]
    words to the sixteen (or more) already there. *)
Fixpoint extend (n : nat) (sched : list Z) : list Z :=
  match n with
  | O => sched
  | S m =>
    let w := add32 (add32 (ssig1 (nth 1 sched 0)) (nth 6 sched 0))
                   (add32 (ssig0 (nth 14 sched 0)) (nth 15 sched 0)) in
    extend m (w :: sched)
  end.

Definition schedule (block : list Z) : list Z :=
  rev (extend 48 (rev (words 16 block))).

Record Regs := mkRegs { ra : Z; rb : Z; rc : Z; rd : Z; re : Z; rf : Z; rg : Z; rh : Z }.

Definition round (r : Regs) (kw : Z * Z) : Regs :=
  let t1 := add32 (add32 (add32 (rh r) (bsig1 (re r))) (ch (re r) (rf r) (rg r)))
                  (add32 (fst kw) (snd kw)) in
  let t2 := add32 (bsig0 (ra r)) (maj (ra r) (rb r) (rc r)) in
  mkRegs (add32 t1 t2) (ra r) (rb r) (rc r) (add32 (rd r) t1) (re r) (rf r) (rg r).

Definition regs_of (h : list Z) : Regs :=
  mkRegs (nth 0 h 0) (nth 1 h 0) (nth 2 h 0) (nth 3 h 0)
         (nth 4 h 0) (nth 5 h 0) (nth 6 h 0) (nth 7 h 0).

Definition compress (h : list Z) (block : list Z) : list Z :=
  let r0 := regs_of h in
  let r := fold_left round (combine round_constants (schedule block)) r0 in
  [ add32 (ra r0) (ra r); add32 (rb r0) (rb r); add32 (rc r0) (rc r);
    add32 (rd r0) (rd r); add32 (re r0) (re r); add32 (rf r0) (rf r);
    add32 (rg r0) (rg r); add32 (rh r0) (rh r) ].

Fixpoint blocks (n : nat) (h : list Z) (bs : list Z) : list Z :=
  match n with
  | O => h
  | S m =>
    match bs with
    | [] => h
    | _ => blocks m (compress h (firstn 64 bs)) (skipn 64 bs)
    end
  end.

Definition sha256 (msg : list byte) : list Z :=
  let bs := pad (map (fun b => Z.of_N (Byte.to_N b)) msg) in
  flat_map (be_bytes 4) (blocks (List.length bs) initial_hash bs).

Definition hex_digit (d : Z) : ascii :=
  ascii_of_nat (Z.to_nat (if d <? 10 then 48 + d else 87 + d)).

Fixpoint hex (bs : list Z) : string :=
  match bs with
  | [] => EmptyString
  | b :: rest => String (hex_digit (b / 16)) (String (hex_digit (b mod 16)) (hex rest))
  end.

(** The digest the closed examples run on: the cache's default algorithm
    and encoding, [sha256] and [hex].  Any other pair is read as this one. *)
Definition sha256_hex : Digest := fun _ _ data => hex (sha256 data).

End Crypto.

(** ** The JavaScript values the cache handles *)

Module JS.

Definition dq : ascii := "034"%char.
Definition backslash : ascii := "092"%char.

(** [str.slice(0, stop)]: a negative [stop] counts from the end. *)
Definition slice0 (stop : Z) (s : string) : string :=
  let len := Z.of_nat (String.length s) in
  let upto := if stop <? 0 then Z.max (len + stop) 0 else Z.min stop len in
  String.substring 0 (Z.to_nat upto) s.

(** [Buffer.from(text)]: the UTF-8 bytes of the text. *)
Definition Buffer_from (s : string) : list byte := list_byte_of_string s.

Definition decimal (n : Z) : string :=
  DecimalString.NilZero.string_of_int (Z.to_int n).

(** *** [Map]: keys in insertion order

    [set] on a key already there replaces its value where it stands; a new
    key goes to the end.  [keys().next().value] is the first key. *)
Section Map.
Context {V : Type}.
Definition Map := list (string * V).

Fixpoint Map_get (k : string) (m : Map) : option V :=
  match m with
  | [] => None
  | (k', v) :: rest => if String.eqb k k' then Some v else Map_get k rest
  end.

Definition Map_has (k : string) (m : Map) : bool :=
  match Map_get k m with Some _ => true | None => false end.

Fixpoint Map_replace (k : string) (v : V) (m : Map) : Map :=
  match m with
  | [] => []
  | (k', v') :: rest =>
    if String.eqb k k' then (k', v) :: rest else (k', v') :: Map_replace k v rest
  end.

Definition Map_set (k : string) (v : V) (m : Map) : Map :=
  if Map_has k m then Map_replace k v m else m ++ [(k, v)].

Fixpoint Map_remove (k : string) (m : Map) : Map :=
  match m with
  | [] => []
  | (k', v') :: rest =>
    if String.eqb k k' then rest else (k', v') :: Map_remove k rest
  end.

(** [delete] answers whether the key was there. *)
Definition Map_delete (k : string) (m : Map) : bool * Map :=
  (Map_has k m, Map_remove k m).

Definition Map_size (m : Map) : Z := Z.of_nat (List.length m).

Definition Map_keys (m : Map) : list string := map fst m.

Definition Map_first_key (m : Map) : option string :=
  match m with
  | [] => None
  | (k, _) :: _ => Some k
  end.
End Map.
Arguments Map V : clear implicits.

(** *** JSON values

    [JNumber] is a number that is an integer; [JReal] keeps any other
    number as it was written (how JavaScript prints a fraction is not
    modelled). *)
Inductive value : Type :=
| JNull
| JBool (b : bool)
| JNumber (n : Z)
| JReal (literal : string)
| JString (s : string)
| JArray (items : list value)
| JObject (props : list (string * value)).

(** [typeof v === 'string'] *)
Definition is_string (v : value) : option string :=
  match v with JString s => Some s | _ => None end.

(** *** Objects: own properties in the order JavaScript lists them

    Keys that are array indices come first, ascending; the other keys
    follow in the order they were created. *)
Definition is_digit (c : ascii) : bool :=
  let n := nat_of_ascii c in (48 <=? n)%nat && (n <=? 57)%nat.

Fixpoint digits_value (acc : Z) (s : string) : option Z :=
  match s with
  | EmptyString => Some acc
  | String c r =>
    if is_digit c then digits_value (10 * acc + (Z.of_nat (nat_of_ascii c) - 48)) r
    else None
  end.

Definition array_index (k : string) : option Z :=
  match k with
  | EmptyString => None
  | _ =>
    match digits_value 0 k with
    | Some n =>
      if (n <? 2 ^ 32 - 1) && String.eqb (decimal n) k then Some n else None
    | None => None
    end
  end.

Section Props.
Context {V : Type}.

(** Where a new index key [n] goes: before the first property that is
    not an index or is a larger one. *)
Fixpoint insert_index (n : Z) (k : string) (v : V) (o : list (string * V))
  : list (string * V) :=
  match o with
  | [] => [(k, v)]
  | (k', v') :: rest =>
    match array_index k' with
    | Some n' =>
      if n <? n' then (k, v) :: o else (k', v') :: insert_index n k v rest
    | None => (k, v) :: o
    end
  end.

(** Defining the own property [k]. *)
Definition prop_set (k : string) (v : V) (o : list (string * V))
  : list (string * V) :=
  if Map_has k o then Map_replace k v o
  else match array_index k with
       | Some n => insert_index n k v o
       | None => o ++ [(k, v)]
       end.

(** [Object.fromEntries(entries)] *)
Definition props_of_entries (es : list (string * V)) : list (string * V) :=
  fold_left (fun o kv => prop_set (fst kv) (snd kv) o) es [].
End Props.

(** Entries whose values are text, as JSON values. *)
Definition text_props (es : list (string * string)) : list (string * value) :=
  map (fun kv => (fst kv, JString (snd kv))) es.

Definition Object_fromEntries (es : list (string * string)) : value :=
  JObject (props_of_entries (text_props es)).

Fixpoint indexed {A : Type} (i : Z) (l : list A) : list (string * A) :=
  match l with
  | [] => []
  | x :: rest => (decimal i, x) :: indexed (i + 1) rest
  end.

Fixpoint chars (s : string) : list value :=
  match s with
  | EmptyString => []
  | String c r => JString (String c EmptyString) :: chars r
  end.

(** [Object.entries(v)]: a [TypeError] ([None]) on [null]; nothing for a
    boolean or a number; the indexed items of an array; the indexed
    characters of a string (one per byte here, which is exact for ASCII). *)
Definition Object_entries (v : value) : option (list (string * value)) :=
  match v with
  | JNull => None
  | JBool _ | JNumber _ | JReal _ => Some []
  | JString s => Some (indexed 0 (chars s))
  | JArray items => Some (indexed 0 items)
  | JObject props => Some props
  end.

(** *** [JSON.stringify] *)

Definition hex_nibble (n : nat) : ascii :=
  ascii_of_nat (if (n <? 10)%nat then 48 + n else 87 + n).

(** One character inside a quoted string. *)
Definition escape_char (c : ascii) : string :=
  let n := nat_of_ascii c in
  if Ascii.eqb c dq then String backslash (String dq EmptyString)
  else if Ascii.eqb c backslash then String backslash (String backslash EmptyString)
  else if (n =? 8)%nat then String backslash "b"
  else if (n =? 9)%nat then String backslash "t"
  else if (n =? 10)%nat then String backslash "n"
  else if (n =? 12)%nat then String backslash "f"
  else if (n =? 13)%nat then String backslash "r"
  else if (n <? 32)%nat then
    String backslash
      (String "u" (String "0" (String "0"
         (String (hex_nibble (n / 16)) (String (hex_nibble (n mod 16)) EmptyString)))))
  else String c EmptyString.

Fixpoint escape (s : string) : string :=
  match s with
  | EmptyString => EmptyString
  | String c r => escape_char c +++ escape r
  end.

Definition quote (s : string) : string :=
  String dq (escape s +++ String dq EmptyString).

Fixpoint join (l : list string) : string :=
  match l with
  | [] => EmptyString
  | x :: rest =>
    match rest with
    | [] => x
    | _ => x +++ "," +++ join rest
    end
  end.

(** One member of an object: the key, a colon, the value. *)
Definition member_text (render : value -> string) (kv : string * value) : string :=
  match kv with
  | (k, x) => quote k +++ ":" +++ render x
  end.

Fixpoint JSON_stringify (v : value) : string :=
  match v with
  | JNull => "null"
  | JBool true => "true"
  | JBool false => "false"
  | JNumber n => decimal n
  | JReal literal => literal
  | JString s => quote s
  | JArray items => "[" +++ join (map JSON_stringify items) +++ "]"
  | JObject props =>
    "{" +++ join (map (member_text JSON_stringify) props) +++ "}"
  end.

(** *** [JSON.parse]

    [None] is a [SyntaxError].  A [\u] escape becomes the UTF-8 bytes of
    its code point (of the pair's, for a surrogate pair; of U+FFFD for a
    surrogate alone). *)

Definition is_ws (c : ascii) : bool :=
  let n := nat_of_ascii c in
  (n =? 32)%nat || (n =? 9)%nat || (n =? 10)%nat || (n =? 13)%nat.

Fixpoint skip_ws (s : string) : string :=
  match s with
  | EmptyString => EmptyString
  | String c r => if is_ws c then skip_ws r else s
  end.

Definition hexval (c : ascii) : option Z :=
  let n := Z.of_nat (nat_of_ascii c) in
  if (48 <=? n) && (n <=? 57) then Some (n - 48)
  else if (97 <=? n) && (n <=? 102) then Some (n - 87)
  else if (65 <=? n) && (n <=? 70) then Some (n - 55)
  else None.

Definition hex4 (a b c d : ascii) : option Z :=
  match hexval a, hexval b, hexval c, hexval d with
  | Some x, Some y, Some z, Some w => Some (((x * 16 + y) * 16 + z) * 16 + w)
  | _, _, _, _ => None
  end.

Definition chr (n : Z) : ascii := ascii_of_nat (Z.to_nat n).

Definition utf8 (cp : Z) : string :=
  if cp <? 128 then String (chr cp) EmptyString
  else if cp <? 2048 then
    String (chr (192 + cp / 64)) (String (chr (128 + cp mod 64)) EmptyString)
  else if cp <? 65536 then
    String (chr (224 + cp / 4096))
      (String (chr (128 + (cp / 64) mod 64)) (String (chr (128 + cp mod 64)) EmptyString))
  else
    String (chr (240 + cp / 262144))
      (String (chr (128 + (cp / 4096) mod 64))
         (String (chr (128 + (cp / 64) mod 64)) (String (chr (128 + cp mod 64)) EmptyString))).

Definition replacement : string := utf8 65533.
Definition is_high (cp : Z) : bool := (55296 <=? cp) && (cp <=? 56319).
Definition is_low (cp : Z) : bool := (56320 <=? cp) && (cp <=? 57343).

Definition simple_escape (e : ascii) : option ascii :=
  if Ascii.eqb e dq then Some dq
  else if Ascii.eqb e backslash then Some backslash
  else if Ascii.eqb e "/" then Some "/"%char
  else if Ascii.eqb e "b" then Some (ascii_of_nat 8)
  else if Ascii.eqb e "f" then Some (ascii_of_nat 12)
  else if Ascii.eqb e "n" then Some (ascii_of_nat 10)
  else if Ascii.eqb e "r" then Some (ascii_of_nat 13)
  else if Ascii.eqb e "t" then Some (ascii_of_nat 9)
  else None.

Definition prepend (p : string) (r : option (string * string))
  : option (string * string) :=
  match r with
  | Some (s, rest) => Some (p +++ s, rest)
  | None => None
  end.

(** The characters of a string after its opening quote, up to the closing
    one: the string read, and what follows it. *)
Fixpoint parse_chars (s : string) : option (string * string) :=
  match s with
  | EmptyString => None
  | String c r =>
    if Ascii.eqb c dq then Some (EmptyString, r)
    else if Ascii.eqb c backslash then
      match r with
      | EmptyString => None
      | String e r1 =>
        if Ascii.eqb e "u" then
          match r1 with
          | String h1 (String h2 (String h3 (String h4 r2))) =>
            match hex4 h1 h2 h3 h4 with
            | None => None
            | Some cp =>
              if is_high cp then
                match r2 with
                | String b (String u (String l1 (String l2 (String l3 (String l4 r3))))) =>
                  match hex4 l1 l2 l3 l4 with
                  | Some lo =>
                    if Ascii.eqb b backslash && Ascii.eqb u "u" && is_low lo
                    then prepend (utf8 (65536 + (cp - 55296) * 1024 + (lo - 56320)))
                                 (parse_chars r3)
                    else prepend replacement (parse_chars r2)
                  | None => prepend replacement (parse_chars r2)
                  end
                | _ => prepend replacement (parse_chars r2)
                end
              else if is_low cp then prepend replacement (parse_chars r2)
              else prepend (utf8 cp) (parse_chars r2)
            end
          | _ => None
          end
        else
          match simple_escape e with
          | Some ch => prepend (String ch EmptyString) (parse_chars r1)
          | None => None
          end
      end
    else if (nat_of_ascii c <? 32)%nat then None
    else prepend (String c EmptyString) (parse_chars r)
  end.

Fixpoint strip_prefix (p s : string) : option string :=
  match p with
  | EmptyString => Some s
  | String a p' =>
    match s with
    | String b s' => if Ascii.eqb a b then strip_prefix p' s' else None
    | EmptyString => None
    end
  end.

Fixpoint span_digits (s : string) : string * string :=
  match s with
  | EmptyString => (EmptyString, EmptyString)
  | String c r =>
    if is_digit c then let (d, rest) := span_digits r in (String c d, rest)
    else (EmptyString, s)
  end.

(** The parts of a number, each with the text after it: an optional minus
    sign; a zero, or digits that do not start with a zero; an optional
    fraction (a dot and digits); an optional exponent (e or E, an optional
    sign, digits). *)
Definition take_sign (s : string) : string * string :=
  match s with
  | String c r => if Ascii.eqb c "-" then ("-", r) else (EmptyString, s)
  | EmptyString => (EmptyString, s)
  end.

Definition take_int (s : string) : option (string * string) :=
  let (ds, rest) := span_digits s in
  match ds with
  | EmptyString => None
  | String d0 more =>
    if Ascii.eqb d0 "0" then Some ("0", more +++ rest) else Some (ds, rest)
  end.

Definition take_frac (s : string) : option (string * string) :=
  match s with
  | String c r =>
    if Ascii.eqb c "." then
      let (fs, rest) := span_digits r in
      match fs with
      | EmptyString => None
      | _ => Some (String c fs, rest)
      end
    else Some (EmptyString, s)
  | EmptyString => Some (EmptyString, s)
  end.

Definition take_exp (s : string) : option (string * string) :=
  match s with
  | String c r =>
    if Ascii.eqb c "e" || Ascii.eqb c "E" then
      let (sg, r') :=
        match r with
        | String c' r'' =>
          if Ascii.eqb c' "+" || Ascii.eqb c' "-"
          then (String c' EmptyString, r'') else (EmptyString, r)
        | EmptyString => (EmptyString, r)
        end in
      let (es, rest) := span_digits r' in
      match es with
      | EmptyString => None
      | _ => Some (String c (sg +++ es), rest)
      end
    else Some (EmptyString, s)
  | EmptyString => Some (EmptyString, s)
  end.

Definition parse_number (s : string) : option (value * string) :=
  let (sign, s1) := take_sign s in
  match take_int s1 with
  | None => None
  | Some (int, s2) =>
    match take_frac s2 with
    | None => None
    | Some (fr, s3) =>
      match take_exp s3 with
      | None => None
      | Some (ex, s4) =>
        let n := match digits_value 0 int with Some n => n | None => 0 end in
        match fr, ex with
        | EmptyString, EmptyString =>
          if n <=? 2 ^ 53
          then Some (JNumber (if String.eqb sign "-" then - n else n), s4)
          else Some (JReal (sign +++ int), s4)
        | _, _ => Some (JReal (sign +++ int +++ fr +++ ex), s4)
        end
      end
    end
  end.

(** What a parser makes of a text: a value and the text after it, a
    syntax error, or not enough [fuel] to decide. *)
Inductive outcome : Type :=
| Parsed (x : value) (rest : string)
| Malformed
| Starved.

Definition of_option (r : option (value * string)) : outcome :=
  match r with
  | Some (x, rest) => Parsed x rest
  | None => Malformed
  end.

(** The recursive descent; every call takes one unit of [fuel]. *)
Fixpoint parse_value (fuel : nat) (s : string) : outcome :=
  match fuel with
  | O => Starved
  | S f =>
    match skip_ws s with
    | EmptyString => Malformed
    | String c r =>
      if Ascii.eqb c "{" then
        match skip_ws r with
        | EmptyString => Malformed
        | String c' r' =>
          if Ascii.eqb c' "}" then Parsed (JObject []) r'
          else parse_members f r []
        end
      else if Ascii.eqb c "[" then
        match skip_ws r with
        | EmptyString => Malformed
        | String c' r' =>
          if Ascii.eqb c' "]" then Parsed (JArray []) r'
          else parse_elements f r []
        end
      else if Ascii.eqb c dq then
        match parse_chars r with
        | Some (str, rest) => Parsed (JString str) rest
        | None => Malformed
        end
      else if Ascii.eqb c "t" then
        of_option (option_map (fun rest => (JBool true, rest)) (strip_prefix "rue" r))
      else if Ascii.eqb c "f" then
        of_option (option_map (fun rest => (JBool false, rest)) (strip_prefix "alse" r))
      else if Ascii.eqb c "n" then
        of_option (option_map (fun rest => (JNull, rest)) (strip_prefix "ull" r))
      else of_option (parse_number (String c r))
    end
  end

with parse_members (fuel : nat) (s : string) (acc : list (string * value)) : outcome :=
  match fuel with
  | O => Starved
  | S f =>
    match skip_ws s with
    | EmptyString => Malformed
    | String c r =>
      if Ascii.eqb c dq then
        match parse_chars r with
        | None => Malformed
        | Some (k, r1) =>
          match skip_ws r1 with
          | EmptyString => Malformed
          | String c1 r2 =>
            if Ascii.eqb c1 ":" then
              match parse_value f r2 with
              | Parsed x r3 =>
                let acc' := prop_set k x acc in
                match skip_ws r3 with
                | EmptyString => Malformed
                | String c3 r4 =>
                  if Ascii.eqb c3 "," then parse_members f r4 acc'
                  else if Ascii.eqb c3 "}" then Parsed (JObject acc') r4
                  else Malformed
                end
              | failed => failed
              end
            else Malformed
          end
        end
      else Malformed
    end
  end

with parse_elements (fuel : nat) (s : string) (acc : list value) : outcome :=
  match fuel with
  | O => Starved
  | S f =>
    match parse_value f s with
    | Parsed x r1 =>
      match skip_ws r1 with
      | EmptyString => Malformed
      | String c r2 =>
        if Ascii.eqb c "," then parse_elements f r2 (acc ++ [x])
        else if Ascii.eqb c "]" then Parsed (JArray (acc ++ [x])) r2
        else Malformed
      end
    | failed => failed
    end
  end.

(** Fuel enough for any text: see [JSON_parse_decides]. *)
Definition parse_fuel (s : string) : nat := 2 * String.length s + 1.

(** [JSON.parse(s)]: [None] is a [SyntaxError]. *)
Definition JSON_parse (s : string) : option value :=
  match parse_value (parse_fuel s) s with
  | Parsed x rest =>
    match skip_ws rest with
    | EmptyString => Some x
    | _ => None
    end
  | _ => None
  end.

End JS.

(** ** The Node runtime the cache runs on: clock, timers, files *)

Module Node.

(** The two closures the classes hand to [setTimeout]:
    [() => this.delete(id)] and [() => this.throttleSaveRun(to)]. *)
Inductive Callback : Type :=
| CbExpire (id : string)
| CbSave (to : string).

Record Timeout := mkTimeout { tm_id : nat; tm_due : Z; tm_cb : Callback }.

Record t := mk {
  now : Z;                           (* [Date.now()] *)
  timers : list Timeout;             (* armed and not yet fired or cleared *)
  next_timer : nat;
  files : string -> option string;   (* whole-file contents by path *)
  writes : list (string * string)    (* every write done, oldest first *)
}.

Definition boot : t := mk 0 [] 0 (fun _ => None) [].

(** A runtime that starts with one file on disk. *)
Definition boot_with (path content : string) : t :=
  mk 0 [] 0 (fun p => if String.eqb p path then Some content else None) [].

(** Node reads a delay below 1 or above 2^31 - 1 as 1. *)
Definition timer_delay (d : Z) : Z :=
  if (1 <=? d) && (d <=? 2147483647) then d else 1.

Definition setTimeout (cb : Callback) (delay : Z) (n : t) : nat * t :=
  (next_timer n,
   mk (now n)
      (timers n ++ [mkTimeout (next_timer n) (now n + timer_delay delay) cb])
      (S (next_timer n)) (files n) (writes n)).

Definition clearTimeout (id : nat) (n : t) : t :=
  mk (now n)
     (filter (fun tm => negb (Nat.eqb (tm_id tm) id)) (timers n))
     (next_timer n) (files n) (writes n).

Definition find_timer (id : nat) (n : t) : option Timeout :=
  find (fun tm => Nat.eqb (tm_id tm) id) (timers n).

Definition existsSync (path : string) (n : t) : bool :=
  match files n path with Some _ => true | None => false end.

Definition readFile (path : string) (n : t) : option string := files n path.

Definition writeFile (path content : string) (n : t) : t :=
  mk (now n) (timers n) (next_timer n)
     (fun p => if String.eqb p path then Some content else files n p)
     (writes n ++ [(path, content)]).

Definition elapse (dt : Z) (n : t) : t :=
  mk (now n + Z.max dt 0) (timers n) (next_timer n) (files n) (writes n).

End Node.

(** ** [HashCache] and [PersistentHashCache] *)

Module Cache.
Import JS.
Import Node.

Inductive Error : Type :=
| LengthError          (* The hash length must be greater than 0 *)
| TypeError            (* Object.entries of null *)
| ENOENT (path : string)
| EIO (path : string). (* a write the file system refused *)

Inductive Result (A : Type) : Type :=
| Ok (a : A)
| Throw (e : Error).
Arguments Ok {A} a.
Arguments Throw {A} e.

(** [Partial<HashOptions>]: [None] is a field left out; for [ttl] and
    [maxEntries], [Some None] is an explicit [null]. *)
Record Options := mkOptions {
  o_algorithm : option string;
  o_encoding : option string;
  o_length : option Z;
  o_ttl : option (option Z);
  o_maxEntries : option (option Z)
}.
Definition no_options : Options := mkOptions None None None None None.

(** [a ?? b] *)
Definition nullish {A : Type} (a : option A) (b : A) : A :=
  match a with Some x => x | None => b end.
(** [a ?? b] where [a] may also be [null] and [b] may be [null]. *)
Definition nullish2 {A : Type} (a : option (option A)) (b : option A) : option A :=
  match a with Some (Some x) => Some x | _ => b end.

Record ExpiryRecord := mkExpiry { ts : Z; timeout : nat }.

Inductive Class : Type := CHashCache | CPersistentHashCache.

(** The fields of [HashCache]. *)
Record Fields := mkFields {
  algorithm : string;
  encoding : string;
  length : Z;
  ttl : option Z;
  maxEntries : option Z;
  _cache : Map string;
  expiryMap : Map ExpiryRecord
}.

(** The fields [PersistentHashCache] adds. *)
Record Persistent := mkPersistent {
  _cachePath : string;
  _cacheSaveEvery : Z;
  _cacheHash : option string;
  _cacheFileExists : bool;
  _throttleSaveCacheTimeout : option nat
}.

(** An instance in its runtime: the class it was constructed as (which
    decides what [this.delete] and the other overridden methods run), its
    fields, and the runtime.  A plain [HashCache] never reads [ext]. *)
Record World := mkWorld {
  class_of : Class;
  self : Fields;
  ext : Persistent;
  node : Node.t
}.

Definition with_self (f : Fields) (w : World) : World :=
  mkWorld (class_of w) f (ext w) (node w).
Definition with_ext (p : Persistent) (w : World) : World :=
  mkWorld (class_of w) (self w) p (node w).
Definition with_node (n : Node.t) (w : World) : World :=
  mkWorld (class_of w) (self w) (ext w) n.

Definition with_cache (m : Map string) (w : World) : World :=
  let f := self w in
  with_self (mkFields (algorithm f) (encoding f) (length f) (ttl f) (maxEntries f)
                      m (expiryMap f)) w.
Definition with_expiryMap (m : Map ExpiryRecord) (w : World) : World :=
  let f := self w in
  with_self (mkFields (algorithm f) (encoding f) (length f) (ttl f) (maxEntries f)
                      (_cache f) m) w.
Definition with_cacheHash (h : option string) (w : World) : World :=
  let p := ext w in
  with_ext (mkPersistent (_cachePath p) (_cacheSaveEvery p) h (_cacheFileExists p)
                         (_throttleSaveCacheTimeout p)) w.
Definition with_cacheFileExists (b : bool) (w : World) : World :=
  let p := ext w in
  with_ext (mkPersistent (_cachePath p) (_cacheSaveEvery p) (_cacheHash p) b
                         (_throttleSaveCacheTimeout p)) w.
Definition with_throttle (t : option nat) (w : World) : World :=
  let p := ext w in
  with_ext (mkPersistent (_cachePath p) (_cacheSaveEvery p) (_cacheHash p)
                         (_cacheFileExists p) t) w.

(** [HashCache.defaults] *)
Definition defaults_algorithm : string := "sha256".
Definition defaults_encoding : string := "hex".
Definition defaults_length : Z := 14.
Definition defaults_ttl : option Z := Some (1000 * 60 * 60).
Definition defaults_maxEntries : option Z := None.

Definition fresh_ext : Persistent := mkPersistent ".cache" 5000 None false None.

(** The constructor of [HashCache]. *)
Definition new_HashCache (options : Options) (n : Node.t) : Result World :=
  let f := mkFields (nullish (o_algorithm options) defaults_algorithm)
                    (nullish (o_encoding options) defaults_encoding)
                    (nullish (o_length options) defaults_length)
                    (nullish2 (o_ttl options) defaults_ttl)
                    (nullish2 (o_maxEntries options) defaults_maxEntries)
                    [] [] in
  if length f <=? 0 then Throw LengthError
  else Ok (mkWorld CHashCache f fresh_ext n).

(** *** Hashing *)
Section Hashing.
Variable digest : Crypto.Digest.

Definition computeBufferHash (buffer : list byte) (options : Options) (w : World)
  : string :=
  slice0 (nullish (o_length options) (length (self w)))
         (digest (nullish (o_algorithm options) (algorithm (self w)))
                 (nullish (o_encoding options) (encoding (self w)))
                 buffer).

Definition computeAnyHash (v : value) (options : Options) (w : World) : string :=
  computeBufferHash (Buffer_from (JSON_stringify v)) options w.

(** A [crypto] hash object: the algorithm and what [update] fed it. *)
Record Hash := mkHash { h_algorithm : string; h_fed : list byte }.
Definition createHash (alg : string) : Hash := mkHash alg [].
Definition Hash_update (chunk : list byte) (h : Hash) : Hash :=
  mkHash (h_algorithm h) (h_fed h ++ chunk).
Definition Hash_digest (enc : string) (h : Hash) : string :=
  digest (h_algorithm h) enc (h_fed h).

(** What a [Readable] emits, and the promise [computeStreamHash] returns. *)
Inductive StreamEvent : Type :=
| OnData (chunk : list byte)
| OnEnd
| OnError (err : string).

Inductive Promise : Type :=
| Pending
| Resolved (fingerprint : string)
| Rejected (err : string).

(** [resolve] and [reject] settle a promise once. *)
Definition settle (p q : Promise) : Promise :=
  match p with Pending => q | _ => p end.

Definition stream_listener (options : Options) (w : World)
           (st : Hash * Promise) (ev : StreamEvent) : Hash * Promise :=
  let (hash, promise) := st in
  match ev with
  | OnData chunk => (Hash_update chunk hash, promise)
  | OnEnd =>
    (hash,
     settle promise
       (Resolved (slice0 (nullish (o_length options) (length (self w)))
                         (Hash_digest (nullish (o_encoding options) (encoding (self w)))
                                      hash))))
  | OnError err => (hash, settle promise (Rejected err))
  end.

Definition computeStreamHash (stream : list StreamEvent) (options : Options)
           (w : World) : Promise :=
  snd (fold_left (stream_listener options w) stream
                 (createHash (nullish (o_algorithm options) (algorithm (self w))),
                  Pending)).
End Hashing.

(** *** Timers and the debounced save request *)

Definition setTimeout (cb : Callback) (delay : Z) (w : World) : nat * World :=
  let (id, n) := Node.setTimeout cb delay (node w) in (id, with_node n w).

Definition clearTimeout (id : nat) (w : World) : World :=
  with_node (Node.clearTimeout id (node w)) w.

(** [throttleSaveCache(to)]; [to] defaults to [_cachePath]. *)
Definition throttleSaveCache (to : option string) (w : World) : World :=
  let to := nullish to (_cachePath (ext w)) in
  match _throttleSaveCacheTimeout (ext w) with
  | Some _ => w
  | None =>
    let (id, w1) := setTimeout (CbSave to) (_cacheSaveEvery (ext w)) w in
    with_throttle (Some id) w1
  end.

(** *** The mutation surface

    A method named [HashCache_m] is the body of [m] in [HashCache]; [m]
    itself is the call [this.m(...)], which runs the override when the
    instance is a [PersistentHashCache]. *)

Definition get (id : string) (w : World) : option string :=
  Map_get id (_cache (self w)).

Definition has (id : string) (w : World) : bool :=
  Map_has id (_cache (self w)).

Definition size (w : World) : Z := Map_size (_cache (self w)).

Definition keys (w : World) : list string := Map_keys (_cache (self w)).

Definition HashCache_delete (id : string) (w : World) : bool * World :=
  let (deleted, m) := Map_delete id (_cache (self w)) in
  let w1 := with_cache m w in
  (deleted, with_expiryMap (snd (Map_delete id (expiryMap (self w1)))) w1).

Definition delete (id : string) (w : World) : bool * World :=
  match class_of w with
  | CHashCache => HashCache_delete id w
  | CPersistentHashCache =>
    let (deleted, w1) := HashCache_delete id w in
    (deleted, throttleSaveCache None w1)
  end.

Definition HashCache_clear (w : World) : World :=
  let w1 := with_cache [] w in
  let w2 := fold_left (fun acc kv => clearTimeout (timeout (snd kv)) acc)
                      (expiryMap (self w1)) w1 in
  with_expiryMap [] w2.

Definition clear (w : World) : World :=
  match class_of w with
  | CHashCache => HashCache_clear w
  | CPersistentHashCache => throttleSaveCache None (HashCache_clear w)
  end.

Definition hasTTL (w : World) : bool :=
  match ttl (self w) with Some _ => true | None => false end.

Definition hasMaxEntries (offset : Z) (w : World) : bool :=
  match maxEntries (self w) with
  | Some n => n <=? Map_size (_cache (self w)) + offset
  | None => false
  end.

(** [typeof ttl === 'number'] *)
Definition is_number (x : option Z) : bool :=
  match x with Some _ => true | None => false end.
(** [x as number] *)
Definition as_number (x : option Z) : Z :=
  match x with Some n => n | None => 0 end.

Definition HashCache_handleConstraints (id : string) (ttl0 : option (option Z))
           (w : World) : World :=
  let ttl := nullish ttl0 (ttl (self w)) in
  let w1 :=
    if is_number ttl || hasTTL w then
      let current := Map_get id (expiryMap (self w)) in
      let w' := match current with
                | Some rec => clearTimeout (timeout rec) w
                | None => w
                end in
      let stamp := now (node w') in
      let (tid, w'') :=
        setTimeout (CbExpire id)
                   (if is_number ttl then as_number ttl
                    else as_number (Cache.ttl (self w))) w' in
      with_expiryMap (Map_set id (mkExpiry stamp tid) (expiryMap (self w''))) w''
    else w in
  if hasMaxEntries (-1) w1 then
    match Map_first_key (_cache (self w1)) with
    | None => w1
    | Some first => snd (delete first w1)
    end
  else w1.

Definition handleConstraints (id : string) (ttl0 : option (option Z)) (w : World)
  : World :=
  match class_of w with
  | CHashCache => HashCache_handleConstraints id ttl0 w
  | CPersistentHashCache =>
    throttleSaveCache None (HashCache_handleConstraints id ttl0 w)
  end.

Definition HashCache_set (id value : string) (ttl0 : option (option Z)) (w : World)
  : World :=
  let ttl := nullish ttl0 (ttl (self w)) in
  let w1 := with_cache (Map_set id value (_cache (self w))) w in
  handleConstraints id (Some ttl) w1.

Definition set (id value : string) (ttl0 : option (option Z)) (w : World) : World :=
  match class_of w with
  | CHashCache => HashCache_set id value ttl0 w
  | CPersistentHashCache =>
    let ttl := nullish ttl0 (ttl (self w)) in
    throttleSaveCache None (HashCache_set id value (Some ttl) w)
  end.

(** *** The durable snapshot

    An asynchronous method runs here in one piece.  [io] says whether the
    file system accepts the writes of the call; a refused write rejects
    the method's promise with [EIO]. *)
Section Durable.
Variable digest : Crypto.Digest.

Definition ensureCacheFileExists (io : bool) (w : World) : option Error * World :=
  if _cacheFileExists (ext w) then (None, w)
  else
    let path := _cachePath (ext w) in
    if existsSync path (node w) then (None, with_cacheFileExists true w)
    else if io then
      (None,
       with_cacheFileExists true
         (with_node (writeFile path (JSON_stringify (JObject [])) (node w)) w))
    else (Some (EIO path), w).

(** The document [saveCache] writes. *)
Definition snapshot (w : World) : value := Object_fromEntries (_cache (self w)).

Definition saveCache (to : option string) (io : bool) (w : World)
  : option Error * World :=
  let to := nullish to (_cachePath (ext w)) in
  match ensureCacheFileExists io w with
  | (Some e, w1) => (Some e, w1)
  | (None, w1) =>
    if io
    then (None, with_node (writeFile to (JSON_stringify (snapshot w1)) (node w1)) w1)
    else (Some (EIO to), w1)
  end.

Definition load_entry (w : World) (kv : string * value) : World :=
  match is_string (snd kv) with
  | None => w
  | Some text => with_cache (Map_set (fst kv) text (_cache (self w))) w
  end.

Definition loadCache (from : option string) (io : bool) (w : World)
  : option Error * World :=
  let from := nullish from (_cachePath (ext w)) in
  match ensureCacheFileExists io w with
  | (Some e, w1) => (Some e, w1)
  | (None, w1) =>
    match readFile from (node w1) with
    | None => (Some (ENOENT from), w1)
    | Some data =>
      let cache := match JSON_parse data with
                   | Some parsed => parsed
                   | None => JObject []
                   end in
      let w2 := with_cacheHash (Some (computeAnyHash digest cache no_options w1)) w1 in
      match Object_entries cache with
      | None => (Some TypeError, w2)
      | Some entries => (None, fold_left load_entry entries w2)
      end
    end
  end.

(** [throttleSaveRun] does not wait for [saveCache] and does not look at
    how it ends. *)
Definition throttleSaveRun (to : option string) (io : bool) (w : World) : World :=
  let to := nullish to (_cachePath (ext w)) in
  let currCacheHash := computeAnyHash digest (snapshot w) no_options w in
  if match _cacheHash (ext w) with
     | Some h => String.eqb currCacheHash h
     | None => false
     end
  then with_throttle None w
  else
    let w1 := with_cacheHash (Some currCacheHash) w in
    let w2 := snd (saveCache (Some to) io w1) in
    with_throttle None w2.

(** The constructor of [PersistentHashCache], up to the point where it
    has started [loadCache]. *)
Definition new_PersistentHashCache (options : Options) (n : Node.t) : Result World :=
  match new_HashCache options n with
  | Throw e => Throw e
  | Ok w => Ok (mkWorld CPersistentHashCache (self w) fresh_ext n)
  end.

(** The load the constructor started completing:
    [loadCache(path).then(() => throttleSaveCache(path))]. *)
Definition startup_load (io : bool) (w : World) : option Error * World :=
  let path := _cachePath (ext w) in
  match loadCache (Some path) io w with
  | (Some e, w1) => (Some e, w1)
  | (None, w1) => (None, throttleSaveCache (Some path) w1)
  end.

(** *** The event loop *)

Definition run_callback (cb : Callback) (io : bool) (w : World) : World :=
  match cb with
  | CbExpire id => snd (delete id w)
  | CbSave to => throttleSaveRun (Some to) io w
  end.

(** Timer [tid] fires: it must be armed and due; it is taken off the
    list and its callback runs. *)
Definition fire (tid : nat) (io : bool) (w : World) : World :=
  match find_timer tid (node w) with
  | Some tm =>
    if tm_due tm <=? now (node w)
    then run_callback (tm_cb tm) io (clearTimeout tid w)
    else w
  | None => w
  end.

(** What can happen to an instance: a call of [set], [delete] or
    [clear]; time passing; a due timer firing; and, for a
    [PersistentHashCache], the load its constructor started completing. *)
Inductive Event : Type :=
| ESet (id value : string) (ttl0 : option (option Z))
| EDelete (id : string)
| EClear
| EElapse (dt : Z)
| EFire (tid : nat) (io : bool)
| ELoad (io : bool).

Definition step (w : World) (ev : Event) : World :=
  match ev with
  | ESet id value ttl0 => set id value ttl0 w
  | EDelete id => snd (delete id w)
  | EClear => clear w
  | EElapse dt => with_node (elapse dt (node w)) w
  | EFire tid io => fire tid io w
  | ELoad io =>
    match class_of w with
    | CHashCache => w
    | CPersistentHashCache => snd (startup_load io w)
    end
  end.

Definition run (w : World) (evs : list Event) : World := fold_left step evs w.
End Durable.

End Cache.

(** ** Vocabulary of the properties *)

Module Spec.
Import JS Node Cache.

Definition is_save (tm : Timeout) : bool :=
  match tm_cb tm with CbSave _ => true | CbExpire _ => false end.

(** The timer would delete [id] when it fires. *)
Definition expires (id : string) (tm : Timeout) : bool :=
  match tm_cb tm with CbExpire k => String.eqb k id | CbSave _ => false end.

Definition save_timers (w : World) : list Timeout := filter is_save (timers (node w)).
Definition expiry_timers (id : string) (w : World) : list Timeout :=
  filter (expires id) (timers (node w)).

(** The effective TTL of [set(id, value, ttl0)] as the code works it out:
    the override when it is a number, the cache's own [ttl] otherwise. *)
Definition effective_ttl (ttl0 : option (option Z)) (w : World) : option Z :=
  match ttl0 with
  | Some (Some n) => Some n
  | _ => ttl (self w)
  end.

(** The three stages of [set]: the entry goes in, [handleConstraints] sees
    to the expiry timer, then to the capacity. *)
Definition inserted (id value : string) (w : World) : World :=
  with_cache (Map_set id value (_cache (self w))) w.

Definition armed (id : string) (ttl0 : option (option Z)) (w : World) : World :=
  match effective_ttl ttl0 w with
  | None => w
  | Some d =>
    let w' := match Map_get id (expiryMap (self w)) with
              | Some rec => clearTimeout (timeout rec) w
              | None => w
              end in
    let (tid, w'') := setTimeout (CbExpire id) d w' in
    with_expiryMap (Map_set id (mkExpiry (now (node w)) tid) (expiryMap (self w''))) w''
  end.

Definition evicted (w : World) : World :=
  if hasMaxEntries (-1) w then
    match Map_first_key (_cache (self w)) with
    | None => w
    | Some first => snd (delete first w)
    end
  else w.

(** The expiry timers of [id] once the one its record names is cancelled. *)
Definition cancel_recorded (id : string) (w : World) (l : list Timeout) : list Timeout :=
  match Map_get id (expiryMap (self w)) with
  | Some rec => filter (fun tm => negb (Nat.eqb (tm_id tm) (timeout rec))) l
  | None => l
  end.

(** The timer [set] arms for [id] when the effective TTL is [d]. *)
Definition new_expiry (id : string) (d : Z) (w : World) : Timeout :=
  mkTimeout (next_timer (node w)) (now (node w) + timer_delay d) (CbExpire id).

(** Several calls of [set] in a row: key, value and TTL override of each. *)
Definition set_all (items : list (string * string * option (option Z))) (w : World)
  : World :=
  fold_left (fun acc it => set (fst (fst it)) (snd (fst it)) (snd it) acc) items w.

(** The configuration a method never assigns. *)
Definition config (w : World) : Class * (string * string * Z) * (option Z * option Z) :=
  (class_of w,
   (algorithm (self w), encoding (self w), length (self w)),
   (ttl (self w), maxEntries (self w))).

(** For the closed examples: the instance a constructor call returned. *)
Definition blank : World :=
  mkWorld CHashCache (mkFields EmptyString EmptyString 0 None None [] []) fresh_ext Node.boot.
Definition constructed (r : Result World) : World :=
  match r with Ok w => w | Throw _ => blank end.

(** [cache.ttl = t]: the field is public, and the only way to a cache
    whose default TTL is [null] (the constructor reads [ttl: null] as the
    default of one hour). *)
Definition assign_ttl (t : option Z) (w : World) : World :=
  let f := self w in
  with_self (mkFields (algorithm f) (encoding f) (length f) t (maxEntries f)
                      (_cache f) (expiryMap f)) w.

(** The entries of a parsed document that [loadCache] keeps: those whose
    value is text. *)
Fixpoint text_entries (es : list (string * value)) : list (string * string) :=
  match es with
  | [] => []
  | (k, x) :: rest =>
    match is_string x with
    | Some text => (k, text) :: text_entries rest
    | None => text_entries rest
    end
  end.

(** [this._cache.set(key, value)] for each entry in turn. *)
Definition Map_set_all (es : list (string * string)) (m : Map string) : Map string :=
  fold_left (fun acc kv => Map_set (fst kv) (snd kv) acc) es m.

(** What [loadCache] takes the file's content to be. *)
Definition parsed_or_empty (data : string) : value :=
  match JSON_parse data with
  | Some parsed => parsed
  | None => JObject []
  end.

(** Two values with the same content, whatever the order in which their
    objects list their fields. *)
Inductive struct_eq : value -> value -> Prop :=
| se_same v : struct_eq v v
| se_array xs ys :
    Forall2 struct_eq xs ys -> struct_eq (JArray xs) (JArray ys)
| se_object ps qs rs :
    Permutation ps qs ->
    Forall2 (fun p q => fst p = fst q /\ struct_eq (snd p) (snd q)) qs rs ->
    struct_eq (JObject ps) (JObject rs).

(** The fields of the durable layer that only the load and the save run
    assign. *)
Definition durable (w : World) : string * Z * option string * bool :=
  (_cachePath (ext w), _cacheSaveEvery (ext w), _cacheHash (ext w),
   _cacheFileExists (ext w)).

(** A call of the mutation surface. *)
Definition is_mutation (ev : Event) : bool :=
  match ev with
  | ESet _ _ _ | EDelete _ | EClear => true
  | _ => false
  end.

(** Time passing and timers firing, with no call from outside. *)
Definition is_passive (ev : Event) : bool :=
  match ev with
  | EElapse _ | EFire _ _ => true
  | _ => false
  end.

(** The states an instance goes through: constructed in a runtime with no
    timer armed, then any events. *)
Definition reachable (digest : Crypto.Digest) (w : World) : Prop :=
  exists options n w0 evs,
    timers n = [] /\
    (new_HashCache options n = Ok w0 \/ new_PersistentHashCache options n = Ok w0) /\
    w = run digest w0 evs.

(** What [clearTimeout(x)] keeps: the timers with another id. *)
Definition keep_but (x : nat) (tm : Timeout) : bool := negb (Nat.eqb (tm_id tm) x).

(** The bookkeeping every reachable state keeps, over the timers armed, the
    next timer id, the expiry records, the store and the scheduled save:
    timer ids are fresh and distinct; every expiry record names a pending
    timer that expires its key; keys are distinct; and a save timer is
    pending exactly when one is recorded as scheduled. *)
Record wf_parts (T : list Timeout) (NT : nat) (E : Map ExpiryRecord) (C : Map string)
       (TH : option nat) : Prop := mk_wf {
  wf_fresh : forall tm, In tm T -> (tm_id tm < NT)%nat;
  wf_ids : NoDup (map tm_id T);
  wf_records : forall k r, In (k, r) E ->
               exists due, In (mkTimeout (timeout r) due (CbExpire k)) T;
  wf_expiry_keys : NoDup (Map_keys E);
  wf_cache_keys : NoDup (Map_keys C);
  wf_debounce : match TH with
                | None => filter is_save T = []
                | Some id => exists due to, filter is_save T = [mkTimeout id due (CbSave to)]
                end
}.

(** The scheduled save is the same in [w'] as in [w]. *)
Definition scheduled_kept (w w' : World) : Prop :=
  save_timers w' = save_timers w
  /\ _throttleSaveCacheTimeout (ext w') = _throttleSaveCacheTimeout (ext w).

(** Every key with an expiry record is a key of the store. *)
Definition records_present (w : World) : Prop :=
  forall k, In k (Map_keys (expiryMap (self w))) -> In k (Map_keys (_cache (self w))).

Definition wf (w : World) : Prop :=
  wf_parts (timers (node w)) (next_timer (node w)) (expiryMap (self w))
           (_cache (self w)) (_throttleSaveCacheTimeout (ext w)).

End Spec.

(** ** [HashCache]: the read-only views *)

Module Views.
Import JS Cache.

(** [entries()], run to its end at once: the entries in insertion order. *)
Definition entries (w : World) : list (string * string) := _cache (self w).

End Views.

(** ** JavaScript numbers

    IEEE 754 binary64 with rounding to nearest even, as the Standard
    Library specifies it. *)

Module Number.
Import SpecFloat.

Definition prec : Z := 53.
Definition emax : Z := 1024.
Definition number : Type := spec_float.
Definition NaN : number := S754_nan.

(** An integer literal. *)
Definition of_Z (n : Z) : number := binary_normalize prec emax n 0 false.

Definition add (x y : number) : number := SFadd prec emax x y.
Definition sub (x y : number) : number := SFsub prec emax x y.
Definition mul (x y : number) : number := SFmul prec emax x y.
Definition div (x y : number) : number := SFdiv prec emax x y.

(** A decimal literal [n/d] with [d] a power of ten, as [0.393] is
    [393/1000]: the literal is the number nearest to the fraction, and so
    is the quotient of the two integers. *)
Definition literal (n d : Z) : number := div (of_Z n) (of_Z d).

Definition is_nan (x : number) : bool :=
  match x with S754_nan => true | _ => false end.

(** [x !== y] on numbers: [NaN] differs from everything, [-0] equals [0]. *)
Definition strict_neq (x y : number) : bool := negb (SFeqb x y).

(** [Math.max(a, b)]: [NaN] if either is; [+0] is larger than [-0]. *)
Definition Math_max (a b : number) : number :=
  if is_nan a || is_nan b then NaN
  else if SFltb a b then b
  else if SFltb b a then a
  else match a, b with
       | S754_zero true, S754_zero s => S754_zero s
       | _, _ => a
       end.

(** [Math.min(a, b)]: [NaN] if either is; [-0] is smaller than [+0]. *)
Definition Math_min (a b : number) : number :=
  if is_nan a || is_nan b then NaN
  else if SFltb a b then a
  else if SFltb b a then b
  else match a, b with
       | S754_zero false, S754_zero s => S754_zero s
       | _, _ => a
       end.

(** The integer a number is, when it is one and below [2^53] in size. *)
Definition to_integer (x : number) : option Z :=
  match x with
  | S754_zero _ => Some 0
  | S754_finite s m e =>
    let size := if 0 <=? e then Some (Zpos m * 2 ^ e)
                else if (Zpos m) mod 2 ^ (- e) =? 0 then Some (Zpos m / 2 ^ (- e))
                else None in
    match size with
    | Some n => if n <? 2 ^ 53 then Some (if s then - n else n) else None
    | None => None
    end
  | _ => None
  end.

End Number.

(** ** [ImageTransformer], the cache's caller

    [packages/core/src/modules/transformers.ts].  The transformer holds a
    [HashCache<string, Buffer>]: the cache never looks into its values, and
    a [Buffer] is held here as the string of its bytes. *)

Module Transformer.
Import JS Cache Number.

Definition Buffer : Type := string.
(** [Buffer.alloc(0)] *)
Definition Buffer_alloc0 : Buffer := EmptyString.

Inductive Gravity : Type :=
| north | northeast | east | southeast | south | southwest | west | northwest
| center | entropy | attention.

Definition Gravity_text (g : Gravity) : string :=
  match g with
  | north => "north" | northeast => "northeast" | east => "east"
  | southeast => "southeast" | south => "south" | southwest => "southwest"
  | west => "west" | northwest => "northwest" | center => "center"
  | entropy => "entropy" | attention => "attention"
  end.

(** [[number, number] | [number, number, number, number]] *)
Inductive Crop : Type :=
| Crop2 (width height : number)
| Crop4 (width height x y : number).

(** [TransformImageInputWithBuffer].  [format] is an [ImageFormat], a
    string; [size] is an [ImageSize], which only [resolveSize] and
    [JSON.stringify] read. *)
Record TransformImageInput := mkInput {
  resourceId : string;
  format : string;
  size : value;
  aspect_ratio : string;
  sharpen : bool;
  blur : number;
  crop : option Crop;
  crop_gravity : Gravity;
  flip : bool;
  flop : bool;
  brightness : number;
  saturation : number;
  hue : number;
  contrast : number;
  sepia : number;
  grayscale : bool;
  trim : bool;
  image : Buffer
}.

(** The same request for another image. *)
Definition with_image (b : Buffer) (i : TransformImageInput) : TransformImageInput :=
  mkInput (resourceId i) (format i) (size i) (aspect_ratio i) (sharpen i) (blur i)
          (crop i) (crop_gravity i) (flip i) (flop i) (brightness i) (saturation i)
          (hue i) (contrast i) (sepia i) (grayscale i) (trim i) b.

(** What [resolveSize] gives, whatever a dimension is there. *)
Record ResolvedSize (Dim : Type) := mkResolvedSize {
  width : Dim;
  height : Dim;
  quality : Dim
}.
Arguments width {Dim} r.
Arguments height {Dim} r.
Arguments quality {Dim} r.

Definition Matrix3x3 : Type :=
  (number * number * number) * (number * number * number) * (number * number * number).

(** The calls made on the [sharp] instance. *)
Inductive Op (Dim : Type) : Type :=
| OpRotate
| OpExtract (left top width height : number)
| OpResizeCover (width height : number) (position : Gravity)
| OpResizeInside (width height : Dim)   (* withoutEnlargement: true *)
| OpFlip
| OpFlop
| OpModulate (brightness saturation hue : number)
| OpLinear (a b : number)
| OpRecomb (m : Matrix3x3)
| OpGrayscale
| OpTrim
| OpSharpen
| OpBlur (sigma : number).
Arguments OpRotate {Dim}.
Arguments OpExtract {Dim} left top width height.
Arguments OpResizeCover {Dim} width height position.
Arguments OpResizeInside {Dim} width height.
Arguments OpFlip {Dim}.
Arguments OpFlop {Dim}.
Arguments OpModulate {Dim} brightness saturation hue.
Arguments OpLinear {Dim} a b.
Arguments OpRecomb {Dim} m.
Arguments OpGrayscale {Dim}.
Arguments OpTrim {Dim}.
Arguments OpSharpen {Dim}.
Arguments OpBlur {Dim} sigma.

(** The [sharp] instance: what it was made from, and the calls made on it
    so far, oldest first. *)
Record Sharp (Dim : Type) := mkSharp {
  source : Buffer;
  output_format : string;
  output_quality : Dim;
  calls : list (Op Dim)
}.
Arguments mkSharp {Dim} source output_format output_quality calls.
Arguments source {Dim} s.
Arguments output_format {Dim} s.
Arguments output_quality {Dim} s.
Arguments calls {Dim} s.

Definition call {Dim : Type} (op : Op Dim) (t : Sharp Dim) : Sharp Dim :=
  mkSharp (source t) (output_format t) (output_quality t) (calls t ++ [op]).

(** [const [width, height, x, y] = crop] *)
Definition crop_width (c : Crop) : number :=
  match c with Crop2 w _ => w | Crop4 w _ _ _ => w end.
Definition crop_height (c : Crop) : number :=
  match c with Crop2 _ h => h | Crop4 _ h _ _ => h end.
Definition crop_x (c : Crop) : option number :=
  match c with Crop2 _ _ => None | Crop4 _ _ x _ => Some x end.
Definition crop_y (c : Crop) : option number :=
  match c with Crop2 _ _ => None | Crop4 _ _ _ y => Some y end.

(** [resolveUserInputScale]: a scale of -100 to 100 to one of 0 to 2. *)
Definition resolveUserInputScale (value : number) : number :=
  Math_min (Math_max (add (div value (of_Z 100)) (of_Z 1)) (of_Z 0)) (of_Z 2).

Section Transform.
(** The digest of [crypto]; how JavaScript prints a number that is not an
    integer below [2^53]; [resolveSize] and [resolveSharpTransformer] of
    [../helpers], where they return, the latter as the instance it starts;
    and what [sharp]'s [toBuffer] makes of the calls, [None] when its
    promise rejects. *)
Variable digest : Crypto.Digest.
Variable number_text : number -> string.
Variable Dim : Type.
Variable resolveSize : value -> ResolvedSize Dim.
Variable toBuffer : Sharp Dim -> option Buffer.

(** A number inside [JSON.stringify]: [NaN] and the infinities are
    [null]. *)
Definition Number_json (x : number) : value :=
  match x with
  | SpecFloat.S754_nan | SpecFloat.S754_infinity _ => JNull
  | _ =>
    match to_integer x with
    | Some n => JNumber n
    | None => JReal (number_text x)
    end
  end.

Definition Crop_json (c : option Crop) : value :=
  match c with
  | None => JNull
  | Some (Crop2 w h) => JArray [Number_json w; Number_json h]
  | Some (Crop4 w h x y) => JArray [Number_json w; Number_json h; Number_json x; Number_json y]
  end.

(** The object [cacheKey] hashes: the sixteen parameters, in the order the
    literal lists them. *)
Definition cacheKey_parameters (input : TransformImageInput) : value :=
  JObject [ ("format", JString (format input));
            ("size", size input);
            ("aspect_ratio", JString (aspect_ratio input));
            ("sharpen", JBool (sharpen input));
            ("blur", Number_json (blur input));
            ("crop", Crop_json (crop input));
            ("crop_gravity", JString (Gravity_text (crop_gravity input)));
            ("flip", JBool (flip input));
            ("flop", JBool (flop input));
            ("brightness", Number_json (brightness input));
            ("saturation", Number_json (saturation input));
            ("hue", Number_json (hue input));
            ("contrast", Number_json (contrast input));
            ("sepia", Number_json (sepia input));
            ("grayscale", JBool (grayscale input));
            ("trim", JBool (trim input)) ].

Definition cacheKey (input : TransformImageInput) (hashCache : World) : string :=
  "transform:" +++ resourceId input +++ "-"
  +++ computeAnyHash digest (cacheKey_parameters input) no_options hashCache.

Definition resolveSharpTransformer (image : Buffer) (format : string) (quality : Dim)
  : Sharp Dim :=
  mkSharp image format quality [].

Definition sepiaMatrix (resolvedSepia : number) : Matrix3x3 :=
  let k := sub (of_Z 1) (div resolvedSepia (of_Z 100)) in
  ((add (literal 393 1000) (mul (literal 607 1000) k),
    sub (literal 769 1000) (mul (literal 769 1000) k),
    sub (literal 189 1000) (mul (literal 189 1000) k)),
   (sub (literal 349 1000) (mul (literal 349 1000) k),
    add (literal 686 1000) (mul (literal 314 1000) k),
    sub (literal 168 1000) (mul (literal 168 1000) k)),
   (sub (literal 272 1000) (mul (literal 272 1000) k),
    sub (literal 534 1000) (mul (literal 534 1000) k),
    add (literal 131 1000) (mul (literal 869 1000) k))).

(** The calls [transformImage] makes on the [sharp] instance before it
    asks for the buffer, when none of them throws. *)
Definition pipeline (input : TransformImageInput) : Sharp Dim :=
  let resolvedSize := resolveSize (size input) in
  let t := resolveSharpTransformer (image input) (format input) (quality resolvedSize) in
  let t := call OpRotate t in
  let t :=
    match crop input with
    | Some c =>
      match crop_x c, crop_y c with
      | Some x, Some y => call (OpExtract x y (crop_width c) (crop_height c)) t
      | _, _ => call (OpResizeCover (crop_width c) (crop_height c) (crop_gravity input)) t
      end
    | None => call (OpResizeInside (width resolvedSize) (height resolvedSize)) t
    end in
  let t := if flip input then call OpFlip t else t in
  let t := if flop input then call OpFlop t else t in
  let resolvedBrightness := resolveUserInputScale (brightness input) in
  let resolvedSaturation := resolveUserInputScale (saturation input) in
  let resolvedHue := resolveUserInputScale (hue input) in
  let t :=
    if strict_neq resolvedBrightness (of_Z 0) || strict_neq resolvedSaturation (of_Z 0)
       || strict_neq resolvedHue (of_Z 0)
    then call (OpModulate resolvedBrightness resolvedSaturation resolvedHue) t
    else t in
  let resolvedContrast := resolveUserInputScale (contrast input) in
  let t :=
    if strict_neq resolvedContrast (of_Z 0)
    then call (OpLinear (add (of_Z 1) (div resolvedContrast (of_Z 100)))
                        (add (of_Z 1) (div resolvedContrast (of_Z 100)))) t
    else t in
  let resolvedSepia := Math_min (Math_max (sepia input) (of_Z 0)) (of_Z 100) in
  let t :=
    if strict_neq resolvedSepia (of_Z 0)
    then call (OpRecomb (sepiaMatrix resolvedSepia)) t
    else t in
  let t := if grayscale input then call OpGrayscale t else t in
  let t := if trim input then call OpTrim t else t in
  let t := if sharpen input then call OpSharpen t else t in
  let resolvedBlur := Math_min (Math_max (blur input) (of_Z 0)) (of_Z 100) in
  if strict_neq resolvedBlur (of_Z 0) then call (OpBlur resolvedBlur) t else t.

(** What is outside the repository's sources and can throw before
    [toBuffer]: whether [resolveSize] and [resolveSharpTransformer] return
    for the request, and whether [sharp] takes a call or throws at it
    ([sharp] checks the arguments of a call when the call is made).  None of
    this is inside the [try]. *)
Variable helpers_return : TransformImageInput -> bool.
Variable accepts : Op Dim -> bool.

(** The first call [sharp] throws at, if there is one. *)
Definition refused_call (input : TransformImageInput) : option (Op Dim) :=
  find (fun op => negb (accepts op)) (calls (pipeline input)).

(** [transformImage], run in one piece: the buffer its promise resolves
    with, [None] when the promise rejects, and the cache it leaves. *)
Definition transformImage (input : TransformImageInput) (hashCache : World)
  : option Buffer * World :=
  let key := cacheKey input hashCache in
  match get key hashCache with
  | Some cached => (Some cached, hashCache)
  | None =>
    if helpers_return input then
      match refused_call input with
      | Some _ => (None, hashCache)
      | None =>
        let buffer := match toBuffer (pipeline input) with
                      | Some b => b
                      | None => Buffer_alloc0
                      end in
        (Some buffer, set key buffer None hashCache)
      end
    else (None, hashCache)
  end.
End Transform.

End Transformer.

(** ** Vocabulary of the further properties *)

Module Shape.
Import JS Node Cache Spec Number Transformer.

Fixpoint all_chars (p : ascii -> bool) (s : string) : bool :=
  match s with
  | EmptyString => true
  | String c r => p c && all_chars p r
  end.

(** One of [0-9a-f]. *)
Definition is_hex_digit (c : ascii) : bool :=
  let n := nat_of_ascii c in
  ((48 <=? n)%nat && (n <=? 57)%nat) || ((97 <=? n)%nat && (n <=? 102)%nat).

(** The length of [s.slice(0, stop)] for a string of length [len]. *)
Definition slice0_length (stop len : Z) : Z :=
  if stop <? 0 then Z.max (len + stop) 0 else Z.min stop len.

(** [r] is [NaN], or lies between [lo] and [hi]. *)
Definition between (lo hi r : number) : Prop :=
  is_nan r = true \/ (SpecFloat.SFleb lo r = true /\ SpecFloat.SFleb r hi = true).

(** The sepia matrix in full. *)
Definition full_sepia : Matrix3x3 :=
  ((literal 393 1000, literal 769 1000, literal 189 1000),
   (literal 349 1000, literal 686 1000, literal 168 1000),
   (literal 272 1000, literal 534 1000, literal 131 1000)).

(** What every call on the [sharp] instance satisfies, given the request
    and what [resolveSize] made of its size. *)
Definition call_expected {Dim : Type} (input : TransformImageInput)
           (resolvedSize : ResolvedSize Dim) (op : Op Dim) : Prop :=
  match op with
  | OpExtract _ _ _ _ | OpResizeCover _ _ _ => crop input <> None
  | OpResizeInside w h =>
    crop input = None /\ w = width resolvedSize /\ h = height resolvedSize
  | OpModulate b s h =>
    between (of_Z 0) (of_Z 2) b /\ between (of_Z 0) (of_Z 2) s
    /\ between (of_Z 0) (of_Z 2) h
  | OpLinear a b => a = b
  | OpBlur sigma =>
    is_nan sigma = true
    \/ (SpecFloat.SFltb (of_Z 0) sigma = true /\ SpecFloat.SFleb sigma (of_Z 100) = true)
  | OpFlip => flip input = true
  | OpFlop => flop input = true
  | OpGrayscale => grayscale input = true
  | OpTrim => trim input = true
  | OpSharpen => sharpen input = true
  | OpRecomb m =>
    SpecFloat.SFleb (sepia input) (of_Z 0) = false
    /\ (SpecFloat.SFleb (of_Z 100) (sepia input) = true -> m = full_sepia)
  | OpRotate => True
  end.

(** A request that asks for nothing: for the closed examples. *)
Definition plain_request (resourceId : string) (image : Buffer) : TransformImageInput :=
  mkInput resourceId "webp" (JString "original") "auto" false (of_Z 0) None center
          false false (of_Z 0) (of_Z 0) (of_Z 0) (of_Z 0) (of_Z 0) false false image.

(** The store has room: no capacity is set, or one of at least one entry
    that the store is within. *)
Definition has_room (w : World) : Prop :=
  maxEntries (self w) = None
  \/ exists N, maxEntries (self w) = Some N /\ 1 <= N /\ Cache.size w <= N.

(** The load the constructor started completing. *)
Definition is_load (ev : Event) : bool :=
  match ev with ELoad _ => true | _ => false end.

(** The event is the firing of a timer that runs the save. *)
Definition fires_save (w : World) (ev : Event) : bool :=
  match ev with
  | EFire tid _ =>
    match find_timer tid (node w) with
    | Some tm => is_save tm
    | None => false
    end
  | _ => false
  end.

(** A quiet interval from [w]: calls of [set], [delete] and [clear], time
    passing and expiry timers firing, with no save run and no load. *)
Fixpoint quiet (digest : Crypto.Digest) (w : World) (evs : list Event) : bool :=
  match evs with
  | [] => true
  | ev :: rest =>
    negb (is_load ev) && negb (fires_save w ev) && quiet digest (step digest w ev) rest
  end.

(** What one save run may add to the writes done: nothing; the snapshot;
    or, when the file was not known to exist and is not there, the empty
    document that creates it, then the snapshot. *)
Definition save_writes (w : World) (to : string) (l : list (string * string)) : Prop :=
  l = []
  \/ l = [(to, JSON_stringify (snapshot w))]
  \/ (_cacheFileExists (ext w) = false
      /\ files (node w) (_cachePath (ext w)) = None
      /\ l = [(_cachePath (ext w), JSON_stringify (JObject []));
              (to, JSON_stringify (snapshot w))]).

(** A value with nothing nested in it. *)
Definition is_scalar (v : value) : bool :=
  match v with
  | JArray _ | JObject _ => false
  | _ => true
  end.

(** A flat document: no member holds an array or an object. *)
Definition flat (props : list (string * value)) : bool :=
  forallb (fun kv => is_scalar (snd kv)) props.

(** Text of ASCII characters only and with no [\u] escape: for such a
    file the bytes are the characters, and no surrogate can be written. *)
Fixpoint plain_text (s : string) : bool :=
  match s with
  | EmptyString => true
  | String c r =>
    (nat_of_ascii c <? 128)%nat
    && match r with
       | String c' _ => negb (Ascii.eqb c backslash && Ascii.eqb c' "u")
       | EmptyString => true
       end
    && plain_text r
  end.

(** The order in which JavaScript lists the keys of an object: array
    indices first, ascending, then the other keys. *)
Fixpoint index_keys_first (ks : list string) : Prop :=
  match ks with
  | [] => True
  | k :: rest =>
    match array_index k with
    | Some n =>
      (forall k' n', In k' rest -> array_index k' = Some n' -> n < n')
    | None => (forall k', In k' rest -> array_index k' = None)
    end
    /\ index_keys_first rest
  end.

Definition is_index (k : string) : bool :=
  match array_index k with Some _ => true | None => false end.

End Shape.

(** * Properties *)

Import JS Node Cache Spec.

(** ** SHA-256 on its test vectors *)

Example sha256_vectors :
  Crypto.sha256_hex "sha256" "hex" (list_byte_of_string "") =
    "e3b0c44298fc1c149afbf4c8996fb92427ae41e4649b934ca495991b7852b855"
  /\ Crypto.sha256_hex "sha256" "hex" (list_byte_of_string "abc") =
     "ba7816bf8f01cfea414140de5dae2223b00361a396177a9cb410ff61f20015ad"
  /\ Crypto.sha256_hex "sha256" "hex"
       (list_byte_of_string "abcdbcdecdefdefgefghfghighijhijkijkljklmklmnlmnomnopnopq") =
     "248d6a61d20638b8e5c026930c3e6039a33ce45964ff2167f6ecedd419db06c1".
Proof. vm_compute. repeat split. Qed.

(** ** Ordered maps *)

Section MapFacts.
Context {V : Type}.
Implicit Types (m : Map V) (k : string) (v : V).

Lemma Map_has_keys k m : Map_has k m = true <-> In k (Map_keys m).
Proof.
  unfold Map_has. induction m as [|[k' v'] m IH]; simpl.
  - split; [discriminate | tauto].
  - destruct (String.eqb_spec k k') as [->|Hne].
    + split; auto.
    + rewrite IH. split; [auto | intros [H|H]; [congruence | assumption]].
Qed.

Lemma Map_has_false k m : Map_has k m = false <-> ~ In k (Map_keys m).
Proof.
  rewrite <- Map_has_keys. destruct (Map_has k m); split; congruence.
Qed.

Lemma Map_get_In k v m : Map_get k m = Some v -> In (k, v) m.
Proof.
  induction m as [|[k' v'] m IH]; simpl; [discriminate|].
  destruct (String.eqb_spec k k') as [->|Hne]; intros H.
  - left. congruence.
  - right. auto.
Qed.

Lemma Map_keys_replace k v m : Map_keys (Map_replace k v m) = Map_keys m.
Proof.
  unfold Map_keys. induction m as [|[k' v'] m IH]; simpl; [reflexivity|].
  destruct (String.eqb k k'); simpl; congruence.
Qed.

Lemma Map_keys_set k v m :
  Map_keys (Map_set k v m) = if Map_has k m then Map_keys m else Map_keys m ++ [k].
Proof.
  unfold Map_set. destruct (Map_has k m).
  - apply Map_keys_replace.
  - unfold Map_keys. rewrite map_app. reflexivity.
Qed.

Lemma Map_get_replace k k' v m :
  Map_get k (Map_replace k' v m) =
  if String.eqb k k' then (if Map_has k m then Some v else None) else Map_get k m.
Proof.
  unfold Map_has. induction m as [|[k2 v2] m IH]; simpl.
  - destruct (String.eqb k k'); reflexivity.
  - destruct (String.eqb_spec k' k2) as [->|Hne]; simpl.
    + destruct (String.eqb_spec k k2); reflexivity.
    + destruct (String.eqb_spec k k2) as [->|Hne2].
      * destruct (String.eqb_spec k2 k'); [congruence | reflexivity].
      * apply IH.
Qed.

Lemma Map_get_app k m m' :
  Map_get k (m ++ m') = match Map_get k m with Some v => Some v | None => Map_get k m' end.
Proof.
  induction m as [|[k2 v2] m IH]; simpl; [reflexivity|].
  destruct (String.eqb k k2); auto.
Qed.

Lemma Map_get_set k k' v m :
  Map_get k (Map_set k' v m) = if String.eqb k k' then Some v else Map_get k m.
Proof.
  unfold Map_set. destruct (Map_has k' m) eqn:Hh.
  - rewrite Map_get_replace. destruct (String.eqb_spec k k') as [->|]; [|reflexivity].
    rewrite Hh. reflexivity.
  - rewrite Map_get_app. simpl. destruct (String.eqb_spec k k') as [->|].
    + unfold Map_has in Hh. destruct (Map_get k' m); [discriminate | reflexivity].
    + destruct (Map_get k m); reflexivity.
Qed.

Lemma Map_get_remove_other k k' m :
  k <> k' -> Map_get k (Map_remove k' m) = Map_get k m.
Proof.
  intros Hne. induction m as [|[k2 v2] m IH]; simpl; [reflexivity|].
  destruct (String.eqb_spec k' k2) as [->|Hne2]; simpl.
  - destruct (String.eqb_spec k k2); [congruence | reflexivity].
  - rewrite IH. reflexivity.
Qed.

Lemma Map_remove_incl p k m : In p (Map_remove k m) -> In p m.
Proof.
  induction m as [|[k2 v2] m IH]; simpl; [tauto|].
  destruct (String.eqb k k2); simpl; tauto.
Qed.

Lemma Map_keys_remove_incl k' k m : In k' (Map_keys (Map_remove k m)) -> In k' (Map_keys m).
Proof.
  unfold Map_keys. induction m as [|[k2 v2] m IH]; simpl; [tauto|].
  destruct (String.eqb k k2); simpl; tauto.
Qed.

Lemma Map_remove_NoDup k m : NoDup (Map_keys m) -> NoDup (Map_keys (Map_remove k m)).
Proof.
  induction m as [|[k2 v2] m IH]; simpl; [auto|].
  intros H. inversion H as [|? ? Hnot Hnd]; subst.
  destruct (String.eqb k k2); simpl; [assumption|].
  constructor; [|auto]. intros Hin. apply Hnot. eapply Map_keys_remove_incl; eauto.
Qed.

Lemma Map_remove_absent k m : NoDup (Map_keys m) -> ~ In k (Map_keys (Map_remove k m)).
Proof.
  induction m as [|[k2 v2] m IH]; simpl; [tauto|].
  intros H. inversion H as [|? ? Hnot Hnd]; subst.
  destruct (String.eqb_spec k k2) as [->|Hne]; simpl; [assumption|].
  intros [Heq|Hin]; [congruence | exact (IH Hnd Hin)].
Qed.

Lemma Map_set_NoDup k v m : NoDup (Map_keys m) -> NoDup (Map_keys (Map_set k v m)).
Proof.
  intros H. rewrite Map_keys_set. destruct (Map_has k m) eqn:Hh; [assumption|].
  apply Map_has_false in Hh.
  apply NoDup_app; [assumption | repeat constructor; simpl; tauto |].
  intros x Hx [<-|[]]. auto.
Qed.

Lemma Map_set_In p k v m : In p (Map_set k v m) -> p = (k, v) \/ In p m.
Proof.
  unfold Map_set. destruct (Map_has k m).
  - induction m as [|[k2 v2] m IH]; simpl; [tauto|].
    destruct (String.eqb_spec k k2) as [->|Hne]; simpl.
    + intros [<-|H]; auto.
    + intros [<-|H]; auto. destruct (IH H); auto.
  - rewrite in_app_iff. simpl. intros [H|[<-|[]]]; auto.
Qed.

Lemma Map_set_size k v m :
  Map_size (Map_set k v m) = if Map_has k m then Map_size m else Map_size m + 1.
Proof.
  unfold Map_size. rewrite <- !(length_map fst). fold (Map_keys (Map_set k v m)).
  fold (Map_keys m). rewrite Map_keys_set. destruct (Map_has k m); [reflexivity|].
  rewrite length_app. simpl. lia.
Qed.

Lemma Map_remove_size k m : Map_size (Map_remove k m) <= Map_size m.
Proof.
  unfold Map_size. induction m as [|[k2 v2] m IH]; simpl; [lia|].
  destruct (String.eqb k k2); simpl; lia.
Qed.

Lemma Map_set_nonempty k v m : Map_set k v m <> [].
Proof.
  unfold Map_set. destruct (Map_has k m) eqn:Hh.
  - destruct m as [|[k2 v2] m]; [discriminate|]. simpl.
    destruct (String.eqb k k2); discriminate.
  - destruct m; discriminate.
Qed.
End MapFacts.

(** ** What each method touches *)

Lemma self_throttle to w : self (throttleSaveCache to w) = self w.
Proof. unfold throttleSaveCache. destruct (_throttleSaveCacheTimeout (ext w)); reflexivity. Qed.

Lemma class_throttle to w : class_of (throttleSaveCache to w) = class_of w.
Proof. unfold throttleSaveCache. destruct (_throttleSaveCacheTimeout (ext w)); reflexivity. Qed.

Lemma cacheHash_throttle to w :
  _cacheHash (ext (throttleSaveCache to w)) = _cacheHash (ext w).
Proof. unfold throttleSaveCache. destruct (_throttleSaveCacheTimeout (ext w)); reflexivity. Qed.

Lemma throttle_scheduled to w t :
  _throttleSaveCacheTimeout (ext w) = Some t -> throttleSaveCache to w = w.
Proof. unfold throttleSaveCache. intros ->. reflexivity. Qed.

Lemma timers_throttle to w :
  timers (node (throttleSaveCache to w)) =
  match _throttleSaveCacheTimeout (ext w) with
  | Some _ => timers (node w)
  | None => timers (node w) ++
            [mkTimeout (next_timer (node w))
                       (now (node w) + timer_delay (_cacheSaveEvery (ext w)))
                       (CbSave (nullish to (_cachePath (ext w))))]
  end.
Proof. unfold throttleSaveCache. destruct (_throttleSaveCacheTimeout (ext w)); reflexivity. Qed.

Lemma HashCache_delete_spec id w :
  HashCache_delete id w =
  (Map_has id (_cache (self w)),
   with_expiryMap (Map_remove id (expiryMap (self w)))
                  (with_cache (Map_remove id (_cache (self w))) w)).
Proof. reflexivity. Qed.

Lemma cache_delete id w :
  _cache (self (snd (delete id w))) = Map_remove id (_cache (self w)).
Proof.
  unfold delete. destruct (class_of w); rewrite HashCache_delete_spec; simpl;
    [|rewrite self_throttle]; reflexivity.
Qed.

Lemma expiryMap_delete id w :
  expiryMap (self (snd (delete id w))) = Map_remove id (expiryMap (self w)).
Proof.
  unfold delete. destruct (class_of w); rewrite HashCache_delete_spec; simpl;
    [|rewrite self_throttle]; reflexivity.
Qed.

Lemma delete_returns id w : fst (delete id w) = has id w.
Proof. unfold delete. destruct (class_of w); reflexivity. Qed.

Lemma handleConstraints_stages id ttl0 w :
  HashCache_handleConstraints id ttl0 w = evicted (armed id ttl0 w).
Proof.
  unfold HashCache_handleConstraints, evicted, armed, effective_ttl, hasTTL.
  destruct ttl0 as [[d|]|]; simpl; try reflexivity;
    destruct (ttl (self w)) as [d'|]; simpl; try reflexivity;
    destruct (Map_get id (expiryMap (self w))); reflexivity.
Qed.

Lemma effective_ttl_default ttl0 id value w :
  effective_ttl (Some (nullish ttl0 (ttl (self w)))) (inserted id value w) =
  effective_ttl ttl0 w.
Proof.
  unfold effective_ttl. destruct ttl0 as [[d|]|]; simpl; try reflexivity.
  destruct (ttl (self w)); reflexivity.
Qed.

(** [set], stage by stage; a [PersistentHashCache] adds its save requests. *)
Lemma set_stages id value ttl0 w :
  set id value ttl0 w =
  let w3 := evicted (armed id (Some (nullish ttl0 (ttl (self w)))) (inserted id value w)) in
  match class_of w with
  | CHashCache => w3
  | CPersistentHashCache => throttleSaveCache None (throttleSaveCache None w3)
  end.
Proof.
  unfold set, HashCache_set, handleConstraints. fold (inserted id value w).
  change (class_of (inserted id value w)) with (class_of w).
  destruct (class_of w); simpl; rewrite handleConstraints_stages; reflexivity.
Qed.

Lemma cache_armed id ttl0 w : _cache (self (armed id ttl0 w)) = _cache (self w).
Proof.
  unfold armed. destruct (effective_ttl ttl0 w); [|reflexivity].
  destruct (Map_get id (expiryMap (self w))); reflexivity.
Qed.

Lemma maxEntries_armed id ttl0 w : maxEntries (self (armed id ttl0 w)) = maxEntries (self w).
Proof.
  unfold armed. destruct (effective_ttl ttl0 w); [|reflexivity].
  destruct (Map_get id (expiryMap (self w))); reflexivity.
Qed.

Lemma cache_evicted w :
  _cache (self (evicted w)) =
  match maxEntries (self w) with
  | Some n => if n <? Map_size (_cache (self w)) then tl (_cache (self w)) else _cache (self w)
  | None => _cache (self w)
  end.
Proof.
  unfold evicted, hasMaxEntries. destruct (maxEntries (self w)) as [n|]; [|reflexivity].
  destruct (Z.leb_spec n (Map_size (_cache (self w)) + -1)) as [H|H];
    destruct (Z.ltb_spec n (Map_size (_cache (self w)))) as [H'|H']; try lia; [|reflexivity].
  destruct (_cache (self w)) as [|[k x] m] eqn:Hm; simpl.
  - rewrite Hm. reflexivity.
  - rewrite cache_delete, Hm. simpl. rewrite String.eqb_refl. reflexivity.
Qed.

(** The store after [set]: the entry inserted, then the first entry dropped
    when that left more than [maxEntries]. *)
Lemma cache_after_set id value ttl0 w :
  _cache (self (set id value ttl0 w)) =
  let ins := Map_set id value (_cache (self w)) in
  match maxEntries (self w) with
  | Some n => if n <? Map_size ins then tl ins else ins
  | None => ins
  end.
Proof.
  rewrite set_stages. cbv zeta.
  assert (H : _cache (self (evicted (armed id (Some (nullish ttl0 (ttl (self w))))
                                            (inserted id value w)))) =
              match maxEntries (self w) with
              | Some n => if n <? Map_size (Map_set id value (_cache (self w)))
                          then tl (Map_set id value (_cache (self w)))
                          else Map_set id value (_cache (self w))
              | None => Map_set id value (_cache (self w))
              end).
  { rewrite cache_evicted, maxEntries_armed, cache_armed. reflexivity. }
  destruct (class_of w); [exact H|]. rewrite !self_throttle. exact H.
Qed.

(** ** The configuration is fixed at construction *)

Lemma config_throttle to w : config (throttleSaveCache to w) = config w.
Proof. unfold config. rewrite self_throttle, class_throttle. reflexivity. Qed.

Lemma config_delete id w : config (snd (delete id w)) = config w.
Proof.
  unfold delete. destruct (class_of w) eqn:Hc; rewrite HashCache_delete_spec; simpl.
  - unfold config. simpl. reflexivity.
  - rewrite config_throttle. reflexivity.
Qed.

Lemma config_armed id ttl0 w : config (armed id ttl0 w) = config w.
Proof.
  unfold armed. destruct (effective_ttl ttl0 w); [|reflexivity].
  destruct (Map_get id (expiryMap (self w))); reflexivity.
Qed.

Lemma config_evicted w : config (evicted w) = config w.
Proof.
  unfold evicted. destruct (hasMaxEntries (-1) w); [|reflexivity].
  destruct (Map_first_key (_cache (self w))); [apply config_delete | reflexivity].
Qed.

Lemma config_set id value ttl0 w : config (set id value ttl0 w) = config w.
Proof.
  rewrite set_stages. cbv zeta.
  assert (H : config (evicted (armed id (Some (nullish ttl0 (ttl (self w))))
                                      (inserted id value w))) = config w).
  { rewrite config_evicted, config_armed. reflexivity. }
  destruct (class_of w); [exact H|]. rewrite !config_throttle. exact H.
Qed.

Lemma clear_timers_self (rs : Map ExpiryRecord) w :
  self (fold_left (fun acc kv => clearTimeout (timeout (snd kv)) acc) rs w) = self w
  /\ class_of (fold_left (fun acc kv => clearTimeout (timeout (snd kv)) acc) rs w) = class_of w
  /\ ext (fold_left (fun acc kv => clearTimeout (timeout (snd kv)) acc) rs w) = ext w.
Proof.
  revert w. induction rs as [|r rs IH]; intros w; simpl; [auto|].
  destruct (IH (clearTimeout (timeout (snd r)) w)) as (H1 & H2 & H3).
  rewrite H1, H2, H3. auto.
Qed.

Lemma HashCache_clear_self w :
  _cache (self (HashCache_clear w)) = [] /\ expiryMap (self (HashCache_clear w)) = []
  /\ config (HashCache_clear w) = config w /\ ext (HashCache_clear w) = ext w.
Proof.
  unfold HashCache_clear. cbv zeta.
  pose proof (clear_timers_self (expiryMap (self (with_cache [] w))) (with_cache [] w))
    as H.
  set (w2 := fold_left _ _ (with_cache [] w)) in *. destruct H as (H1 & H2 & H3).
  unfold config. simpl. rewrite H1, H2, H3. simpl. auto.
Qed.

Lemma cache_clear w : _cache (self (clear w)) = [].
Proof.
  unfold clear. destruct (class_of w); [|rewrite self_throttle]; apply HashCache_clear_self.
Qed.

Lemma config_clear w : config (clear w) = config w.
Proof.
  unfold clear. destruct (class_of w); [|rewrite config_throttle]; apply HashCache_clear_self.
Qed.

Section DurableFrames.
Variable digest : Crypto.Digest.

Lemma ensure_self io w :
  self (snd (ensureCacheFileExists io w)) = self w
  /\ class_of (snd (ensureCacheFileExists io w)) = class_of w.
Proof.
  unfold ensureCacheFileExists. destruct (_cacheFileExists (ext w)); [auto|].
  destruct (existsSync _ _); [auto|]. destruct io; auto.
Qed.

Lemma saveCache_self to io w :
  self (snd (saveCache to io w)) = self w
  /\ class_of (snd (saveCache to io w)) = class_of w.
Proof.
  unfold saveCache. pose proof (ensure_self io w) as H.
  destruct (ensureCacheFileExists io w) as [[e|] w1]; simpl in *; [exact H|].
  destruct io; simpl; exact H.
Qed.

Lemma throttleSaveRun_self to io w :
  self (throttleSaveRun digest to io w) = self w
  /\ class_of (throttleSaveRun digest to io w) = class_of w.
Proof.
  unfold throttleSaveRun.
  destruct (match _cacheHash (ext w) with Some h => _ | None => false end); [auto|].
  simpl. apply (saveCache_self (Some (nullish to (_cachePath (ext w)))) io
                               (with_cacheHash _ w)).
Qed.

Lemma config_throttleSaveRun to io w : config (throttleSaveRun digest to io w) = config w.
Proof.
  unfold config. destruct (throttleSaveRun_self to io w) as [-> ->]. reflexivity.
Qed.

Lemma config_fire tid io w : config (fire digest tid io w) = config w.
Proof.
  unfold fire. destruct (find_timer tid (node w)) as [tm|]; [|reflexivity].
  destruct (tm_due tm <=? now (node w)); [|reflexivity].
  unfold run_callback. destruct (tm_cb tm).
  - rewrite config_delete. reflexivity.
  - rewrite config_throttleSaveRun. reflexivity.
Qed.

Lemma cache_fire tid io w :
  _cache (self (fire digest tid io w)) = _cache (self w)
  \/ exists id, _cache (self (fire digest tid io w)) = Map_remove id (_cache (self w)).
Proof.
  unfold fire. destruct (find_timer tid (node w)) as [tm|]; [|auto].
  destruct (tm_due tm <=? now (node w)); [|auto].
  unfold run_callback. destruct (tm_cb tm) as [id|to].
  - right. exists id. rewrite cache_delete. reflexivity.
  - left. destruct (throttleSaveRun_self (Some to) io (clearTimeout tid w)) as [-> _].
    reflexivity.
Qed.

Lemma load_entries_config es w :
  config (fold_left load_entry es w) = config w.
Proof.
  revert w. induction es as [|e es IH]; intros w; simpl; [reflexivity|].
  rewrite IH. unfold load_entry. destruct (is_string (snd e)); reflexivity.
Qed.

Lemma config_loadCache from io w : config (snd (loadCache digest from io w)) = config w.
Proof.
  unfold loadCache. pose proof (ensure_self io w) as [H1 H2].
  destruct (ensureCacheFileExists io w) as [[e|] w1]; simpl in *.
  - unfold config. rewrite H1, H2. reflexivity.
  - assert (Hc : config w1 = config w) by (unfold config; rewrite H1, H2; reflexivity).
    destruct (readFile _ _) as [data|]; simpl; [|exact Hc].
    destruct (Object_entries _) as [es|]; simpl; [|exact Hc].
    rewrite load_entries_config. exact Hc.
Qed.

Lemma config_step w ev : config (step digest w ev) = config w.
Proof.
  destruct ev; simpl.
  - apply config_set.
  - apply config_delete.
  - apply config_clear.
  - reflexivity.
  - apply config_fire.
  - destruct (class_of w) eqn:Hc; [reflexivity|].
    unfold startup_load.
    pose proof (config_loadCache (Some (_cachePath (ext w))) io w) as H.
    destruct (loadCache digest _ io w) as [[e|] w1]; simpl in *; [exact H|].
    rewrite config_throttle. exact H.
Qed.

Lemma config_run evs w : config (run digest w evs) = config w.
Proof.
  revert w. induction evs as [|ev evs IH]; intros w; simpl; [reflexivity|].
  change (config (run digest (step digest w ev) evs) = config w).
  rewrite IH. apply config_step.
Qed.

(** An invariant of the steps holds along every run. *)
Lemma run_invariant (P : World -> Prop) :
  (forall w ev, P w -> P (step digest w ev)) ->
  forall evs w, P w -> P (run digest w evs).
Proof.
  intros Hstep evs. induction evs as [|ev evs IH]; intros w Hw; simpl; [exact Hw|].
  apply IH, Hstep, Hw.
Qed.

End DurableFrames.

(** ** Capacity: one eviction per [set], oldest entry first *)

Lemma config_maxEntries w w' : config w' = config w -> maxEntries (self w') = maxEntries (self w).
Proof. unfold config. intros H. congruence. Qed.

Lemma config_ttl w w' : config w' = config w -> ttl (self w') = ttl (self w).
Proof. unfold config. intros H. congruence. Qed.

Lemma config_class w w' : config w' = config w -> class_of w' = class_of w.
Proof. unfold config. intros H. congruence. Qed.

Lemma size_keys w : size w = Z.of_nat (List.length (keys w)).
Proof. unfold size, keys, Map_size, Map_keys. rewrite length_map. reflexivity. Qed.

Lemma keys_after_set id value ttl0 w :
  keys (set id value ttl0 w) =
  let ks := if has id w then keys w else keys w ++ [id] in
  match maxEntries (self w) with
  | Some n => if n <? Z.of_nat (List.length ks) then tl ks else ks
  | None => ks
  end.
Proof.
  unfold keys, has. rewrite cache_after_set. cbv zeta.
  rewrite <- (Map_keys_set id value).
  assert (Hs : Map_size (Map_set id value (_cache (self w))) =
               Z.of_nat (List.length (Map_keys (Map_set id value (_cache (self w)))))).
  { unfold Map_size, Map_keys. rewrite length_map. reflexivity. }
  rewrite <- Hs. destruct (maxEntries (self w)) as [n|]; [|reflexivity].
  destruct (n <? _); [|reflexivity].
  unfold Map_keys. destruct (Map_set id value (_cache (self w))); reflexivity.
Qed.

(** Below capacity, new keys line up behind the ones already there. *)
Lemma set_all_fill N items w :
  maxEntries (self w) = Some N ->
  NoDup (keys w ++ map (fun it => fst (fst it)) items) ->
  Z.of_nat (List.length (keys w) + List.length items) <= N ->
  keys (set_all items w) = keys w ++ map (fun it => fst (fst it)) items.
Proof.
  revert w. induction items as [|[[k v] t] items IH]; intros w HN Hnd Hlen; simpl.
  - rewrite app_nil_r. reflexivity.
  - assert (Hk : keys (set k v t w) = keys w ++ [k]).
    { rewrite keys_after_set, HN. cbv zeta.
      assert (Hh : has k w = false).
      { apply Map_has_false. apply NoDup_remove_2 in Hnd. intros Hin. apply Hnd.
        apply in_or_app. left. exact Hin. }
      rewrite Hh. rewrite length_app. simpl in *.
      destruct (Z.ltb_spec N (Z.of_nat (List.length (keys w) + 1))); [lia | reflexivity]. }
    change (keys (set_all items (set k v t w)) =
            keys w ++ k :: map (fun it => fst (fst it)) items).
    rewrite IH.
    + rewrite Hk, <- app_assoc. reflexivity.
    + rewrite (config_maxEntries _ _ (config_set k v t w)). exact HN.
    + rewrite Hk, <- app_assoc. exact Hnd.
    + rewrite Hk, length_app. simpl in *. lia.
Qed.

Lemma set_all_app items items' w :
  set_all (items ++ items') w = set_all items' (set_all items w).
Proof. unfold set_all. apply fold_left_app. Qed.

Lemma config_set_all items w : config (set_all items w) = config w.
Proof.
  revert w. induction items as [|it items IH]; intros w; simpl; [reflexivity|].
  change (config (set_all items (set (fst (fst it)) (snd (fst it)) (snd it) w)) = config w).
  rewrite IH. apply config_set.
Qed.

Lemma size_step_bound digest N w ev :
  class_of w = CHashCache -> maxEntries (self w) = Some N -> 0 <= N ->
  size w <= N -> size (step digest w ev) <= N.
Proof.
  intros Hc HN H0 Hs. unfold size in *.
  destruct ev as [id val ttl0 | id | | dt | tid io | io]; simpl.
  - rewrite cache_after_set, HN. cbv zeta.
    pose proof (Map_set_size id val (_cache (self w))) as Hz.
    pose proof (Map_set_nonempty id val (_cache (self w))) as Hne.
    destruct (Map_has id (_cache (self w)));
      destruct (Z.ltb_spec N (Map_size (Map_set id val (_cache (self w))))); try lia;
      destruct (Map_set id val (_cache (self w))); try congruence;
      unfold Map_size in *; simpl in *; lia.
  - rewrite cache_delete. pose proof (Map_remove_size id (_cache (self w))). lia.
  - rewrite cache_clear. unfold Map_size. simpl. lia.
  - exact Hs.
  - destruct (cache_fire digest tid io w) as [->|[id ->]]; [exact Hs|].
    pose proof (Map_remove_size id (_cache (self w))). lia.
  - rewrite Hc. exact Hs.
Qed.

(** C10. Setting a key that is already there leaves it where it stands in
    the insertion order: in a cache with [maxEntries = N] filled with [N]
    distinct keys, setting the first key [k1] again and then a new key
    evicts [k1]; the keys left are the others, in order, then the new one. *)
Theorem C10_reset_keeps_position (N : Z) w items k1 v1 t1 rest v' t' knew vnew tnew :
  _cache (self w) = [] ->
  maxEntries (self w) = Some N ->
  items = (k1, v1, t1) :: rest ->
  NoDup (map (fun it => fst (fst it)) items) ->
  Z.of_nat (List.length items) = N ->
  ~ In knew (map (fun it => fst (fst it)) items) ->
  let w' := set knew vnew tnew (set k1 v' t' (set_all items w)) in
  keys w' = map (fun it => fst (fst it)) rest ++ [knew] /\ has k1 w' = false.
Proof.
  intros Hempty Hm -> Hnd Hlen Hnew. cbv zeta.
  set (key := fun it : string * string * option (option Z) => fst (fst it)) in *.
  assert (HlenN : Z.of_nat (S (List.length rest)) = N) by exact Hlen.
  assert (Hfill : keys (set_all ((k1, v1, t1) :: rest) w) = k1 :: map key rest).
  { rewrite (set_all_fill N).
    - unfold keys. rewrite Hempty. reflexivity.
    - exact Hm.
    - unfold keys. rewrite Hempty. exact Hnd.
    - unfold keys. rewrite Hempty. simpl in *. lia. }
  set (w1 := set_all ((k1, v1, t1) :: rest) w) in *.
  assert (Hm1 : maxEntries (self w1) = Some N).
  { unfold w1. rewrite (config_maxEntries _ _ (config_set_all _ w)). exact Hm. }
  assert (Hk1 : keys (set k1 v' t' w1) = k1 :: map key rest).
  { rewrite keys_after_set, Hm1. cbv zeta.
    assert (Hh : has k1 w1 = true).
    { apply Map_has_keys. fold (keys w1). rewrite Hfill. left. reflexivity. }
    rewrite Hh, Hfill.
    change (List.length (k1 :: map key rest)) with (S (List.length (map key rest))).
    rewrite length_map, HlenN, Z.ltb_irrefl. reflexivity. }
  set (w2 := set k1 v' t' w1) in *.
  assert (Hm2 : maxEntries (self w2) = Some N).
  { unfold w2. rewrite (config_maxEntries _ _ (config_set k1 v' t' w1)). exact Hm1. }
  assert (Hk2 : keys (set knew vnew tnew w2) = map key rest ++ [knew]).
  { rewrite keys_after_set, Hm2. cbv zeta.
    assert (Hh : has knew w2 = false).
    { apply Map_has_false. fold (keys w2). rewrite Hk1. exact Hnew. }
    rewrite Hh, Hk1, length_app.
    change (List.length (k1 :: map key rest)) with (S (List.length (map key rest))).
    change (List.length [knew]) with 1%nat. rewrite length_map.
    destruct (Z.ltb_spec N (Z.of_nat (S (List.length rest) + 1))); [reflexivity | lia]. }
  split; [exact Hk2|].
  apply Map_has_false. fold (keys (set knew vnew tnew w2)). rewrite Hk2.
  simpl in Hnd, Hnew. inversion Hnd as [|? ? Hnot _]; subst.
  rewrite in_app_iff. simpl. intros [Hin|[Heq|[]]]; [exact (Hnot Hin)|].
  apply Hnew. left. symmetry. exact Heq.
Qed.

(** C10 at [maxEntries = 3], keys a, b, c, then a again, then d. *)
Lemma C10_reset_keeps_position_witness :
  let w := constructed (new_HashCache (mkOptions None None None None (Some (Some 3))) Node.boot) in
  let w' := set "d" "4" None
              (set "a" "9" None (set_all [("a", "1", None); ("b", "2", None); ("c", "3", None)] w)) in
  keys w' = ["b"; "c"; "d"] /\ has "a" w' = false.
Proof.
  cbv zeta.
  apply (C10_reset_keeps_position 3
           (constructed (new_HashCache (mkOptions None None None None (Some (Some 3))) Node.boot))
           [("a", "1", None); ("b", "2", None); ("c", "3", None)]
           "a" "1" None [("b", "2", None); ("c", "3", None)] "9" None "d" "4" None).
  - reflexivity.
  - reflexivity.
  - reflexivity.
  - repeat constructor; simpl; intuition discriminate.
  - reflexivity.
  - simpl. intuition discriminate.
Defined.

(** ** Expiry timers *)

Lemma filter_filter {A} (f g : A -> bool) l :
  filter f (filter g l) = filter g (filter f l).
Proof.
  induction l as [|x l IH]; simpl; [reflexivity|].
  destruct (f x) eqn:Hf, (g x) eqn:Hg; simpl; rewrite ?Hf, ?Hg, IH; reflexivity.
Qed.

Lemma expiry_timers_throttle id to w :
  expiry_timers id (throttleSaveCache to w) = expiry_timers id w.
Proof.
  unfold expiry_timers. rewrite timers_throttle.
  destruct (_throttleSaveCacheTimeout (ext w)); [reflexivity|].
  rewrite filter_app. simpl. apply app_nil_r.
Qed.

Lemma node_HashCache_delete id w : node (snd (HashCache_delete id w)) = node w.
Proof. reflexivity. Qed.

Lemma expiry_timers_delete id k w :
  expiry_timers id (snd (delete k w)) = expiry_timers id w.
Proof.
  unfold delete. destruct (class_of w); rewrite HashCache_delete_spec; simpl.
  - reflexivity.
  - rewrite expiry_timers_throttle. reflexivity.
Qed.

Lemma expiry_timers_evicted id w : expiry_timers id (evicted w) = expiry_timers id w.
Proof.
  unfold evicted. destruct (hasMaxEntries (-1) w); [|reflexivity].
  destruct (Map_first_key (_cache (self w))); [apply expiry_timers_delete | reflexivity].
Qed.

Lemma expiry_timers_armed id ttl0 w :
  expiry_timers id (armed id ttl0 w) =
  match effective_ttl ttl0 w with
  | Some d => cancel_recorded id w (expiry_timers id w) ++ [new_expiry id d w]
  | None => expiry_timers id w
  end.
Proof.
  unfold armed, cancel_recorded, expiry_timers.
  destruct (effective_ttl ttl0 w) as [d|]; [|reflexivity].
  destruct (Map_get id (expiryMap (self w))) as [rec|]; simpl;
    rewrite filter_app; simpl; unfold expires at 2; simpl; rewrite String.eqb_refl;
    [rewrite filter_filter|]; reflexivity.
Qed.

Lemma expiry_timers_set id value ttl0 w :
  expiry_timers id (set id value ttl0 w) =
  match effective_ttl ttl0 w with
  | Some d => cancel_recorded id w (expiry_timers id w) ++ [new_expiry id d w]
  | None => expiry_timers id w
  end.
Proof.
  rewrite set_stages. cbv zeta.
  assert (H : expiry_timers id (evicted (armed id (Some (nullish ttl0 (ttl (self w))))
                                               (inserted id value w))) =
              match effective_ttl ttl0 w with
              | Some d => cancel_recorded id w (expiry_timers id w) ++ [new_expiry id d w]
              | None => expiry_timers id w
              end).
  { rewrite expiry_timers_evicted, expiry_timers_armed, effective_ttl_default.
    reflexivity. }
  destruct (class_of w); [exact H|]. rewrite !expiry_timers_throttle. exact H.
Qed.

Section PassiveTime.
Variable digest : Crypto.Digest.

Lemma timers_ensure io w :
  timers (node (snd (ensureCacheFileExists io w))) = timers (node w)
  /\ next_timer (node (snd (ensureCacheFileExists io w))) = next_timer (node w).
Proof.
  unfold ensureCacheFileExists. destruct (_cacheFileExists (ext w)); [auto|].
  destruct (existsSync _ _); [auto|]. destruct io; auto.
Qed.

Lemma timers_saveCache to io w :
  timers (node (snd (saveCache to io w))) = timers (node w)
  /\ next_timer (node (snd (saveCache to io w))) = next_timer (node w).
Proof.
  unfold saveCache. pose proof (timers_ensure io w) as H.
  destruct (ensureCacheFileExists io w) as [[e|] w1]; simpl in *; [exact H|].
  destruct io; simpl; exact H.
Qed.

Lemma timers_throttleSaveRun to io w :
  timers (node (throttleSaveRun digest to io w)) = timers (node w)
  /\ next_timer (node (throttleSaveRun digest to io w)) = next_timer (node w).
Proof.
  unfold throttleSaveRun.
  destruct (match _cacheHash (ext w) with Some h => _ | None => false end); [auto|].
  simpl. apply (timers_saveCache (Some (nullish to (_cachePath (ext w)))) io
                                 (with_cacheHash _ w)).
Qed.

Lemma expiry_timers_clearTimeout id tid w :
  expiry_timers id w = [] -> expiry_timers id (clearTimeout tid w) = [].
Proof.
  unfold expiry_timers. simpl. intros H. rewrite filter_filter, H. reflexivity.
Qed.

Lemma find_timer_In tid n tm : find_timer tid n = Some tm -> In tm (timers n).
Proof. unfold find_timer. intros H. apply find_some in H. apply H. Qed.

Lemma no_expiry_timer id w tm :
  expiry_timers id w = [] -> In tm (timers (node w)) -> expires id tm = false.
Proof.
  unfold expiry_timers. intros H Hin. destruct (expires id tm) eqn:He; [|reflexivity].
  assert (Hf : In tm (filter (expires id) (timers (node w))))
    by (apply filter_In; auto).
  rewrite H in Hf. destruct Hf.
Qed.

(** While no expiry timer is pending for a key, time passing leaves the key
    as it is and arms no expiry timer for it. *)
Lemma passive_step_keeps id w ev :
  is_passive ev = true -> expiry_timers id w = [] ->
  get id (step digest w ev) = get id w /\ expiry_timers id (step digest w ev) = [].
Proof.
  intros Hp Hno. destruct ev as [k val t0 | k | | dt | tid io | io]; try discriminate; simpl.
  - split; [reflexivity | exact Hno].
  - unfold fire. destruct (find_timer tid (node w)) as [tm|] eqn:Hf; [|auto].
    destruct (tm_due tm <=? now (node w)); [|auto].
    pose proof (no_expiry_timer id w tm Hno (find_timer_In _ _ _ Hf)) as He.
    pose proof (expiry_timers_clearTimeout id tid w Hno) as Hc.
    unfold run_callback, expires in *. destruct (tm_cb tm) as [k|to].
    + split.
      * unfold get. rewrite cache_delete. simpl. apply Map_get_remove_other.
        intros ->. rewrite String.eqb_refl in He. discriminate.
      * rewrite expiry_timers_delete. exact Hc.
    + destruct (throttleSaveRun_self digest (Some to) io (clearTimeout tid w)) as [Hs _].
      destruct (timers_throttleSaveRun (Some to) io (clearTimeout tid w)) as [Ht _].
      split.
      * unfold get. rewrite Hs. reflexivity.
      * unfold expiry_timers in *. rewrite Ht. exact Hc.
Qed.

Lemma passive_run_keeps id evs w :
  forallb is_passive evs = true -> expiry_timers id w = [] ->
  get id (run digest w evs) = get id w.
Proof.
  revert w. induction evs as [|ev evs IH]; intros w Hp Hno; simpl; [reflexivity|].
  simpl in Hp. apply andb_prop in Hp as [Hev Hp].
  destruct (passive_step_keeps id w ev Hev Hno) as [Hg Hn].
  change (get id (run digest (step digest w ev) evs) = get id w).
  rewrite IH; assumption.
Qed.

End PassiveTime.

Lemma get_after_set id value ttl0 w :
  maxEntries (self w) = None -> get id (set id value ttl0 w) = Some value.
Proof.
  intros Hm. unfold get. rewrite cache_after_set, Hm. cbv zeta.
  rewrite Map_get_set, String.eqb_refl. reflexivity.
Qed.

(** C1, as the code has it. The effective TTL of [set(id, value, ttl0)] is
    the override when that is a number and the cache's [ttl] otherwise, an
    explicit [null] included. When it is a number [d], the timer armed for
    [id] is pending afterwards, due [d] ms from now, and the timer the
    key's record named is no longer pending; when it is [null], the call
    arms no expiry timer for [id]. On a cache with [ttl = null] and no
    capacity, after a [set] with no override of a key with no expiry timer
    pending, [get] returns the value however much time passes. *)
Theorem C1_effective_ttl digest (w : World) (id value : string) (ttl0 : option (option Z)) :
  let w' := set id value ttl0 w in
  (forall d, effective_ttl ttl0 w = Some d ->
     In (new_expiry id d w) (expiry_timers id w')
     /\ forall tm, In tm (expiry_timers id w') ->
          tm = new_expiry id d w
          \/ (In tm (expiry_timers id w)
              /\ forall rec, Map_get id (expiryMap (self w)) = Some rec ->
                             tm_id tm <> timeout rec))
  /\ (effective_ttl ttl0 w = None ->
      forall tm, In tm (expiry_timers id w') -> In tm (expiry_timers id w))
  /\ (ttl (self w) = None -> ttl0 = None -> maxEntries (self w) = None ->
      expiry_timers id w = [] ->
      forall evs, forallb is_passive evs = true ->
                  get id (run digest w' evs) = Some value).
Proof.
  cbv zeta. split; [|split].
  - intros d Hd. rewrite expiry_timers_set, Hd. split.
    + apply in_or_app. right. left. reflexivity.
    + intros tm Hin. apply in_app_or in Hin as [Hin|[<-|[]]]; [right | left; reflexivity].
      unfold cancel_recorded in Hin.
      destruct (Map_get id (expiryMap (self w))) as [rec|].
      * apply filter_In in Hin as [Hin Hne]. split; [exact Hin|].
        intros rec' [= <-] Heq. rewrite Heq, Nat.eqb_refl in Hne. discriminate.
      * split; [exact Hin | discriminate].
  - intros Hnone tm. rewrite expiry_timers_set, Hnone. auto.
  - intros Httl -> Hm Hno evs Hp.
    rewrite passive_run_keeps; [apply get_after_set; exact Hm | exact Hp |].
    rewrite expiry_timers_set. unfold effective_ttl. rewrite Httl. exact Hno.
Qed.

(** C1 on a cache whose [ttl] was set to [null]: an override of 250 ms arms
    a timer due in 250 ms; with no override the entry outlives the other
    key's timer and any stretch of time. *)
Lemma C1_effective_ttl_witness :
  let w := assign_ttl None (constructed (new_HashCache no_options Node.boot)) in
  let w1 := set "k" "v" (Some (Some 250)) (set "j" "u" (Some (Some 100)) w) in
  (In (mkTimeout 1 250 (CbExpire "k")) (expiry_timers "k" w1))
  /\ get "k" (run Crypto.sha256_hex (set "k" "v" None (set "j" "u" (Some (Some 100)) w))
                  [EElapse 100; EFire 0 true; EElapse 100000000]) = Some "v".
Proof.
  cbv zeta.
  pose proof (C1_effective_ttl Crypto.sha256_hex
                (set "j" "u" (Some (Some 100))
                     (assign_ttl None (constructed (new_HashCache no_options Node.boot))))
                "k" "v" (Some (Some 250))) as Hnum.
  pose proof (C1_effective_ttl Crypto.sha256_hex
                (set "j" "u" (Some (Some 100))
                     (assign_ttl None (constructed (new_HashCache no_options Node.boot))))
                "k" "v" None) as Hnull.
  cbv zeta in Hnum, Hnull.
  destruct Hnum as (Harm & _). destruct Hnull as (_ & _ & Hkeep).
  split.
  - exact (proj1 (Harm 250 eq_refl)).
  - exact (Hkeep eq_refl eq_refl eq_refl eq_refl
                 [EElapse 100; EFire 0 true; EElapse 100000000] eq_refl).
Defined.

(** C1 as the spec words it fails: on a cache with the default TTL of one
    hour, [set("k", "v", null)] arms an expiry timer for the key, due in an
    hour. *)
Lemma C1_null_override_arms_timer :
  let w := constructed (new_HashCache no_options Node.boot) in
  let w' := set "k" "v" (Some None) w in
  ttl (self w) = Some 3600000
  /\ expiry_timers "k" w' = [mkTimeout 0 3600000 (CbExpire "k")]
  /\ expiry_timers "k" w' <> [].
Proof.
  cbv zeta. split; [reflexivity | split; [reflexivity | discriminate]].
Qed.

(** ** [delete] and the timer of the key

    [delete] drops the key's record and leaves the timer the record named
    armed; [clear] and a second [set] cancel theirs. *)

Lemma timers_delete id w tm :
  In tm (timers (node w)) -> In tm (timers (node (snd (delete id w)))).
Proof.
  intros Hin. unfold delete. destruct (class_of w); rewrite HashCache_delete_spec; simpl.
  - exact Hin.
  - rewrite timers_throttle. simpl.
    destruct (_throttleSaveCacheTimeout (ext w)); [exact Hin | apply in_or_app; auto].
Qed.

(** C2, the code at the failing input. [delete] cancels no timer: whatever
    was pending before is pending after. So with [set("k","a",1000)],
    [delete("k")], [set("k","b",5000)]: after the [delete] the first timer
    is still pending for a key that is not stored; it fires at 1000 ms and
    removes the entry set for 5000 ms. *)
Theorem C2_delete_leaves_timer_pending :
  (forall w id tm,
      In tm (timers (node w)) -> In tm (timers (node (snd (delete id w)))))
  /\ let w0 := constructed (new_HashCache no_options Node.boot) in
     let w1 := set "k" "a" (Some (Some 1000)) w0 in
     let w2 := snd (delete "k" w1) in
     let w3 := set "k" "b" (Some (Some 5000)) w2 in
     let w4 := run Crypto.sha256_hex w3 [EElapse 1000; EFire 0 true] in
     fst (delete "k" w1) = true
     /\ has "k" w2 = false
     /\ expiryMap (self w2) = []
     /\ timers (node w2) = [mkTimeout 0 1000 (CbExpire "k")]
     /\ get "k" w3 = Some "b"
     /\ timers (node w3) = [mkTimeout 0 1000 (CbExpire "k"); mkTimeout 1 5000 (CbExpire "k")]
     /\ now (node w4) = 1000
     /\ get "k" w4 = None.
Proof.
  split; [intros w id tm; apply timers_delete|].
  cbv zeta. repeat split.
Qed.

(** ** JSON text: what [JSON.parse] reads back from [JSON.stringify] *)

Lemma append_assoc (a b c : string) : (a +++ b) +++ c = a +++ (b +++ c).
Proof. induction a as [|x a IH]; simpl; [reflexivity | rewrite IH; reflexivity]. Qed.

Lemma append_length (a b : string) :
  String.length (a +++ b) = (String.length a + String.length b)%nat.
Proof. induction a as [|x a IH]; simpl; [reflexivity | rewrite IH; reflexivity]. Qed.

Lemma parse_chars_escape_char c tail :
  parse_chars (escape_char c +++ tail) = prepend (String c EmptyString) (parse_chars tail).
Proof.
  destruct c as [[] [] [] [] [] [] [] []]; reflexivity.
Qed.

(** A quoted string reads back as the string. *)
Lemma parse_chars_escape s rest :
  parse_chars (escape s +++ String dq rest) = Some (s, rest).
Proof.
  induction s as [|c s IH].
  - reflexivity.
  - simpl escape. rewrite append_assoc, parse_chars_escape_char, IH. reflexivity.
Qed.

Lemma quote_append s X : quote s +++ X = String dq (escape s +++ String dq X).
Proof. unfold quote. simpl. rewrite append_assoc. reflexivity. Qed.

Lemma parse_value_quote f s X : parse_value (S f) (quote s +++ X) = Parsed (JString s) X.
Proof. rewrite quote_append. simpl. rewrite parse_chars_escape. reflexivity. Qed.

Lemma parse_members_dq f r acc :
  parse_members (S f) (String dq r) acc =
  match parse_chars r with
  | None => Malformed
  | Some (k, r1) =>
    match skip_ws r1 with
    | EmptyString => Malformed
    | String c1 r2 =>
      if Ascii.eqb c1 ":" then
        match parse_value f r2 with
        | Parsed x r3 =>
          match skip_ws r3 with
          | EmptyString => Malformed
          | String c3 r4 =>
            if Ascii.eqb c3 "," then parse_members f r4 (prop_set k x acc)
            else if Ascii.eqb c3 "}" then Parsed (JObject (prop_set k x acc)) r4
            else Malformed
          end
        | failed => failed
        end
      else Malformed
    end
  end.
Proof. reflexivity. Qed.

(** One member whose value is text, and what follows it. *)
Lemma parse_member_step f k v X acc :
  parse_members (S (S f)) (quote k +++ ":" +++ quote v +++ X) acc =
  match skip_ws X with
  | EmptyString => Malformed
  | String c r =>
    if Ascii.eqb c "," then parse_members (S f) r (prop_set k (JString v) acc)
    else if Ascii.eqb c "}" then Parsed (JObject (prop_set k (JString v) acc)) r
    else Malformed
  end.
Proof.
  rewrite quote_append, parse_members_dq, parse_chars_escape.
  change (":" +++ quote v +++ X) with (String ":" (quote v +++ X)).
  change (skip_ws (String ":" (quote v +++ X))) with (String ":" (quote v +++ X)).
  cbv beta iota. change (Ascii.eqb ":" ":") with true. cbv iota.
  rewrite parse_value_quote. reflexivity.
Qed.

Lemma join_cons2 a b l : join (a :: b :: l) = a +++ "," +++ join (b :: l).
Proof. reflexivity. Qed.

Lemma member_text_props k v es :
  map (member_text JSON_stringify) (text_props ((k, v) :: es)) =
  (quote k +++ ":" +++ quote v) :: map (member_text JSON_stringify) (text_props es).
Proof. reflexivity. Qed.

(** The members of an object whose values are all text read back one by
    one, each defined on the object read so far. *)
Lemma parse_members_text es :
  forall acc rest f,
    es <> [] -> (List.length es < f)%nat ->
    parse_members f (join (map (member_text JSON_stringify) (text_props es))
                     +++ String "}" rest) acc =
    Parsed (JObject (fold_left (fun o kv => prop_set (fst kv) (snd kv) o)
                               (text_props es) acc))
           rest.
Proof.
  induction es as [|[k v] es IH]; intros acc rest f Hne Hf; [congruence|].
  destruct f as [|[|f]]; simpl in Hf; try lia.
  rewrite member_text_props. destruct es as [|[k' v'] es].
  - change (map (member_text JSON_stringify) (text_props [])) with (@nil string).
    change (join [quote k +++ ":" +++ quote v]) with (quote k +++ ":" +++ quote v).
    rewrite !append_assoc. rewrite parse_member_step. reflexivity.
  - rewrite (member_text_props k' v' es), join_cons2, <- (member_text_props k' v' es),
            !append_assoc.
    rewrite parse_member_step.
    change ("," +++ ?X) with (String "," X).
    change (skip_ws (String "," ?r)) with (String "," r).
    cbv beta iota. change (Ascii.eqb "," ",") with true. cbv iota.
    rewrite IH; [reflexivity | discriminate | simpl in *; lia].
Qed.

Lemma parse_value_brace f r :
  parse_value (S f) (String "{" r) =
  match skip_ws r with
  | EmptyString => Malformed
  | String c r' =>
    if Ascii.eqb c "}" then Parsed (JObject []) r' else parse_members f r []
  end.
Proof. reflexivity. Qed.

Lemma join_members_head k v es :
  exists tail,
    join (map (member_text JSON_stringify) (text_props ((k, v) :: es))) = String dq tail.
Proof.
  rewrite member_text_props. destruct es as [|[k' v'] es].
  - eexists. reflexivity.
  - rewrite (member_text_props k' v' es), join_cons2. eexists. reflexivity.
Qed.

Lemma join_members_length es :
  (List.length es <=
   String.length (join (map (member_text JSON_stringify) (text_props es))))%nat.
Proof.
  induction es as [|[k v] es IH]; [simpl; lia|].
  rewrite member_text_props. destruct es as [|[k' v'] es].
  - simpl. lia.
  - rewrite (member_text_props k' v' es), join_cons2, <- (member_text_props k' v' es).
    set (J := join (map (member_text JSON_stringify) (text_props ((k', v') :: es)))) in *.
    rewrite !append_length. simpl String.length. simpl List.length in *. lia.
Qed.

(** The document [saveCache] writes reads back as an object with the same
    entries, defined in the order written. *)
Lemma parse_stringify_text es :
  JSON_parse (JSON_stringify (JObject (text_props es))) =
  Some (JObject (props_of_entries (text_props es))).
Proof.
  destruct es as [|[k v] es]; [reflexivity|].
  unfold JSON_parse.
  change (JSON_stringify (JObject (text_props ((k, v) :: es))))
    with (String "{" (join (map (member_text JSON_stringify) (text_props ((k, v) :: es)))
                      +++ "}")).
  set (J := join (map (member_text JSON_stringify) (text_props ((k, v) :: es)))).
  assert (Hfuel : exists f, parse_fuel (String "{" (J +++ "}")) = S f
                            /\ (List.length ((k, v) :: es) < f)%nat).
  { pose proof (join_members_length ((k, v) :: es)) as H. fold J in H.
    exists (2 * String.length (String "{" (J +++ "}")))%nat. split.
    - unfold parse_fuel. lia.
    - simpl String.length. rewrite append_length. lia. }
  destruct Hfuel as (f & -> & Hlen).
  rewrite parse_value_brace.
  destruct (join_members_head k v es) as [tail Htail]. fold J in Htail.
  assert (Hskip : skip_ws (J +++ "}") = String dq (tail +++ "}")) by (rewrite Htail; reflexivity).
  rewrite Hskip. change (Ascii.eqb dq "}") with false. cbv iota.
  unfold J. rewrite parse_members_text; [reflexivity | discriminate | exact Hlen].
Qed.

(** *** Property lists *)

Section PropFacts.
Context {V : Type}.
Implicit Types (o : list (string * V)) (k : string) (v : V).

Lemma insert_index_get n k k' v o :
  Map_has k' o = false ->
  Map_get k (insert_index n k' v o) = if String.eqb k k' then Some v else Map_get k o.
Proof.
  induction o as [|[k2 v2] o IH]; intros Hh; simpl.
  - reflexivity.
  - unfold Map_has in Hh. simpl in Hh.
    destruct (String.eqb_spec k' k2) as [->|Hne]; [discriminate|].
    destruct (array_index k2) as [n'|]; [destruct (n <? n')|]; simpl;
      try reflexivity.
    destruct (String.eqb_spec k k2) as [->|Hne2].
    + destruct (String.eqb_spec k2 k'); [congruence | reflexivity].
    + apply IH. unfold Map_has. exact Hh.
Qed.

Lemma prop_set_get k k' v o :
  Map_get k (prop_set k' v o) = if String.eqb k k' then Some v else Map_get k o.
Proof.
  unfold prop_set. destruct (Map_has k' o) eqn:Hh.
  - rewrite Map_get_replace. destruct (String.eqb_spec k k') as [->|]; [|reflexivity].
    rewrite Hh. reflexivity.
  - destruct (array_index k') as [n|].
    + apply insert_index_get. exact Hh.
    + rewrite Map_get_app. simpl. destruct (String.eqb_spec k k') as [->|].
      * unfold Map_has in Hh. destruct (Map_get k' o); [discriminate | reflexivity].
      * destruct (Map_get k o); reflexivity.
Qed.

Lemma insert_index_keys n k v o x :
  In x (Map_keys (insert_index n k v o)) <-> x = k \/ In x (Map_keys o).
Proof.
  induction o as [|[k2 v2] o IH]; simpl.
  - intuition.
  - destruct (array_index k2) as [n'|]; [destruct (n <? n')|]; simpl; rewrite ?IH;
      intuition.
Qed.

Lemma insert_index_NoDup n k v o :
  ~ In k (Map_keys o) -> NoDup (Map_keys o) -> NoDup (Map_keys (insert_index n k v o)).
Proof.
  induction o as [|[k2 v2] o IH]; intros Hnot Hnd; simpl.
  - repeat constructor. simpl. tauto.
  - simpl in Hnot, Hnd. inversion Hnd as [|? ? Hn2 Hnd']; subst.
    destruct (array_index k2) as [n'|]; [destruct (n <? n')|]; simpl.
    + constructor; [simpl; tauto | exact Hnd].
    + constructor.
      * rewrite insert_index_keys. intros [->|Hin]; tauto.
      * apply IH; tauto.
    + constructor; [simpl; tauto | exact Hnd].
Qed.

Lemma prop_set_NoDup k v o : NoDup (Map_keys o) -> NoDup (Map_keys (prop_set k v o)).
Proof.
  intros Hnd. unfold prop_set. destruct (Map_has k o) eqn:Hh.
  - rewrite Map_keys_replace. exact Hnd.
  - apply Map_has_false in Hh. destruct (array_index k) as [n|].
    + apply insert_index_NoDup; assumption.
    + unfold Map_keys. rewrite map_app. apply NoDup_app; [exact Hnd | repeat constructor; simpl; tauto |].
      intros x Hx [<-|[]]. auto.
Qed.

Lemma props_fold_NoDup es o :
  NoDup (Map_keys o) ->
  NoDup (Map_keys (fold_left (fun acc kv => prop_set (fst kv) (snd kv) acc) es o)).
Proof.
  revert o. induction es as [|[k v] es IH]; intros o Hnd; simpl; [exact Hnd|].
  apply IH, prop_set_NoDup, Hnd.
Qed.
End PropFacts.

(** *** Folding updates over distinct keys *)

Lemma fold_update_get {V : Type}
      (upd : string -> V -> list (string * V) -> list (string * V))
      (Hupd : forall k k' v o,
          Map_get k (upd k' v o) = if String.eqb k k' then Some v else Map_get k o)
      (es : list (string * V)) :
  forall acc k,
    NoDup (Map_keys es) ->
    Map_get k (fold_left (fun o kv => upd (fst kv) (snd kv) o) es acc) =
    match Map_get k es with
    | Some v => Some v
    | None => Map_get k acc
    end.
Proof.
  induction es as [|[k1 v1] es IH]; intros acc k Hnd; simpl; [reflexivity|].
  simpl in Hnd. inversion Hnd as [|? ? Hnot Hnd']; subst.
  rewrite IH by exact Hnd'. rewrite Hupd.
  destruct (String.eqb_spec k k1) as [->|Hne]; [|reflexivity].
  destruct (Map_get k1 es) as [v|] eqn:Hg; [|reflexivity].
  exfalso. apply Hnot. apply Map_has_keys. unfold Map_has. rewrite Hg. reflexivity.
Qed.

Lemma props_of_entries_get {V : Type} (es : list (string * V)) k :
  NoDup (Map_keys es) -> Map_get k (props_of_entries es) = Map_get k es.
Proof.
  intros Hnd. unfold props_of_entries.
  rewrite (fold_update_get prop_set) by (auto using prop_set_get).
  destruct (Map_get k es); reflexivity.
Qed.

Lemma props_of_entries_NoDup {V : Type} (es : list (string * V)) :
  NoDup (Map_keys (props_of_entries es)).
Proof. unfold props_of_entries. apply props_fold_NoDup. constructor. Qed.

Lemma Map_set_all_get es m k :
  NoDup (Map_keys es) ->
  Map_get k (Map_set_all es m) =
  match Map_get k es with Some v => Some v | None => Map_get k m end.
Proof.
  intros Hnd. unfold Map_set_all.
  apply (fold_update_get Map_set); [intros; apply Map_get_set | exact Hnd].
Qed.

(** Text values ride through the property order untouched. *)
Lemma Map_has_text k es : Map_has k (text_props es) = Map_has k es.
Proof.
  unfold Map_has. induction es as [|[k' v'] es IH]; simpl; [reflexivity|].
  destruct (String.eqb k k'); [reflexivity | exact IH].
Qed.

Lemma Map_replace_text k v es :
  Map_replace k (JString v) (text_props es) = text_props (Map_replace k v es).
Proof.
  induction es as [|[k' v'] es IH]; simpl; [reflexivity|].
  destruct (String.eqb k k'); simpl; [reflexivity | rewrite IH; reflexivity].
Qed.

Lemma insert_index_text n k v es :
  insert_index n k (JString v) (text_props es) = text_props (insert_index n k v es).
Proof.
  induction es as [|[k' v'] es IH]; simpl; [reflexivity|].
  destruct (array_index k') as [n'|]; [destruct (n <? n')|]; simpl;
    rewrite ?IH; reflexivity.
Qed.

Lemma prop_set_text k v es :
  prop_set k (JString v) (text_props es) = text_props (prop_set k v es).
Proof.
  unfold prop_set. rewrite Map_has_text. destruct (Map_has k es).
  - apply Map_replace_text.
  - destruct (array_index k).
    + apply insert_index_text.
    + unfold text_props. rewrite map_app. reflexivity.
Qed.

Lemma props_of_entries_text es :
  props_of_entries (text_props es) = text_props (props_of_entries es).
Proof.
  unfold props_of_entries.
  change (@nil (string * value)) with (text_props []).
  generalize (@nil (string * string)) as acc.
  induction es as [|[k v] es IH]; intros acc; simpl; [reflexivity|].
  rewrite prop_set_text. apply IH.
Qed.

Lemma text_entries_text es : text_entries (text_props es) = es.
Proof.
  induction es as [|[k v] es IH]; simpl; [reflexivity | rewrite IH; reflexivity].
Qed.

Lemma Map_keys_text es : Map_keys (text_props es) = Map_keys es.
Proof. unfold Map_keys, text_props. rewrite map_map. reflexivity. Qed.

(** The snapshot of a store read back: an object that holds, for every key,
    what the store held. *)
Lemma snapshot_reads_back (m : Map string) :
  NoDup (Map_keys m) ->
  exists es,
    JSON_parse (JSON_stringify (Object_fromEntries m)) = Some (JObject (text_props es))
    /\ NoDup (Map_keys es)
    /\ forall k, Map_get k es = Map_get k m.
Proof.
  intros Hnd. exists (props_of_entries (props_of_entries m)).
  unfold Object_fromEntries.
  rewrite props_of_entries_text, parse_stringify_text, props_of_entries_text.
  split; [reflexivity | split; [apply props_of_entries_NoDup|]].
  intros k. rewrite props_of_entries_get by apply props_of_entries_NoDup.
  apply props_of_entries_get, Hnd.
Qed.

(** ** The durable snapshot: load and save *)

Section DurableFacts.
Variable digest : Crypto.Digest.

Lemma computeAnyHash_self v o w w' :
  self w = self w' -> computeAnyHash digest v o w = computeAnyHash digest v o w'.
Proof. unfold computeAnyHash, computeBufferHash. intros ->. reflexivity. Qed.

(** Loaded entries go straight into the store: no expiry record, no timer,
    no capacity check; an entry whose value is not text is passed over. *)
Lemma load_entries_spec es w :
  _cache (self (fold_left load_entry es w)) =
    Map_set_all (text_entries es) (_cache (self w))
  /\ expiryMap (self (fold_left load_entry es w)) = expiryMap (self w)
  /\ ext (fold_left load_entry es w) = ext w
  /\ node (fold_left load_entry es w) = node w.
Proof.
  revert w. induction es as [|[k x] es IH]; intros w; simpl; [auto|].
  destruct (IH (load_entry w (k, x))) as (H1 & H2 & H3 & H4).
  rewrite H1, H2, H3, H4. unfold load_entry. simpl.
  destruct (is_string x); auto.
Qed.

Lemma ensure_spec io w :
  expiryMap (self (snd (ensureCacheFileExists io w))) = expiryMap (self w)
  /\ _cache (self (snd (ensureCacheFileExists io w))) = _cache (self w)
  /\ _cacheHash (ext (snd (ensureCacheFileExists io w))) = _cacheHash (ext w)
  /\ _throttleSaveCacheTimeout (ext (snd (ensureCacheFileExists io w))) =
     _throttleSaveCacheTimeout (ext w)
  /\ _cachePath (ext (snd (ensureCacheFileExists io w))) = _cachePath (ext w).
Proof.
  unfold ensureCacheFileExists. destruct (_cacheFileExists (ext w)); [auto 6|].
  destruct (existsSync _ _); [auto 6|]. destruct io; auto 6.
Qed.

Lemma ensure_existing io w :
  existsSync (_cachePath (ext w)) (node w) = true ->
  fst (ensureCacheFileExists io w) = None
  /\ node (snd (ensureCacheFileExists io w)) = node w.
Proof.
  unfold ensureCacheFileExists. intros H.
  destruct (_cacheFileExists (ext w)); [auto|]. rewrite H. auto.
Qed.

Lemma ensure_known io w :
  _cacheFileExists (ext w) = true -> ensureCacheFileExists io w = (None, w).
Proof. unfold ensureCacheFileExists. intros ->. reflexivity. Qed.

(** What a load that completes leaves behind. *)
Lemma loadCache_spec from io w w' :
  loadCache digest from io w = (None, w') ->
  exists data entries,
    readFile (nullish from (_cachePath (ext w))) (node w') = Some data
    /\ Object_entries (parsed_or_empty data) = Some entries
    /\ _cache (self w') = Map_set_all (text_entries entries) (_cache (self w))
    /\ expiryMap (self w') = expiryMap (self w)
    /\ timers (node w') = timers (node w)
    /\ _cacheHash (ext w') = Some (computeAnyHash digest (parsed_or_empty data) no_options w).
Proof.
  unfold loadCache.
  pose proof (ensure_spec io w) as (He & Hc & _).
  pose proof (ensure_self io w) as [Hs _].
  pose proof (timers_ensure io w) as [Ht _].
  destruct (ensureCacheFileExists io w) as [[e|] w1]; simpl in *; [discriminate|].
  destruct (readFile _ (node w1)) as [data|] eqn:Hr; [|discriminate].
  fold (parsed_or_empty data).
  destruct (Object_entries (parsed_or_empty data)) as [entries|] eqn:Ho; [|discriminate].
  intros [= <-]. exists data, entries.
  destruct (load_entries_spec entries
              (with_cacheHash (Some (computeAnyHash digest (parsed_or_empty data) no_options w1)) w1))
    as (H1 & H2 & H3 & H4).
  rewrite H1, H2, H3, H4. simpl.
  rewrite (computeAnyHash_self _ _ w1 w Hs), Hc, He, Ht. auto 7.
Qed.

(** A save run that finds the content changed, and whose write the file
    system accepts, leaves the snapshot on disk. *)
Lemma throttleSaveRun_writes to w :
  _cacheFileExists (ext w) = true ->
  _cacheHash (ext w) <> Some (computeAnyHash digest (snapshot w) no_options w) ->
  let path := nullish to (_cachePath (ext w)) in
  files (node (throttleSaveRun digest to true w)) path = Some (JSON_stringify (snapshot w))
  /\ writes (node (throttleSaveRun digest to true w)) =
     writes (node w) ++ [(path, JSON_stringify (snapshot w))].
Proof.
  intros Hex Hne. cbv zeta. unfold throttleSaveRun.
  destruct (match _cacheHash (ext w) with Some h => _ | None => false end) eqn:Heq.
  - destruct (_cacheHash (ext w)) as [h|]; [|discriminate].
    apply String.eqb_eq in Heq. congruence.
  - unfold saveCache. rewrite ensure_known by exact Hex. simpl.
    rewrite String.eqb_refl. auto.
Qed.

Lemma loadCache_ok from io w data entries :
  existsSync (_cachePath (ext w)) (node w) = true ->
  readFile (nullish from (_cachePath (ext w))) (node w) = Some data ->
  Object_entries (parsed_or_empty data) = Some entries ->
  exists w',
    loadCache digest from io w = (None, w')
    /\ _cache (self w') = Map_set_all (text_entries entries) (_cache (self w))
    /\ expiryMap (self w') = expiryMap (self w)
    /\ timers (node w') = timers (node w).
Proof.
  intros Hex Hr Ho. unfold loadCache.
  pose proof (ensure_existing io w Hex) as [Hf Hn].
  pose proof (ensure_spec io w) as (He & Hc & _).
  destruct (ensureCacheFileExists io w) as [e w1]; simpl in *. subst e.
  rewrite Hn, Hr. fold (parsed_or_empty data). rewrite Ho. eexists.
  split; [reflexivity|].
  destruct (load_entries_spec entries
              (with_cacheHash (Some (computeAnyHash digest (parsed_or_empty data) no_options w1)) w1))
    as (H1 & H2 & H3 & H4).
  rewrite H1, H2, H4. simpl. rewrite Hc, He, Hn. auto.
Qed.

End DurableFacts.

(** ** Hashing *)

Section HashFacts.
Variable digest : Crypto.Digest.

Lemma stream_data_fold options w chunks hash promise :
  fold_left (stream_listener digest options w) (map OnData chunks) (hash, promise) =
  (mkHash (h_algorithm hash) (h_fed hash ++ List.concat chunks), promise).
Proof.
  revert hash. induction chunks as [|c chunks IH]; intros hash; simpl.
  - rewrite app_nil_r. destruct hash; reflexivity.
  - rewrite IH. simpl. rewrite <- app_assoc. reflexivity.
Qed.

Lemma stream_settled options w evs hash promise :
  promise <> Pending ->
  snd (fold_left (stream_listener digest options w) evs (hash, promise)) = promise.
Proof.
  revert hash. induction evs as [|ev evs IH]; intros hash Hp; simpl; [reflexivity|].
  destruct ev; simpl; try (apply IH; exact Hp);
    destruct promise; try congruence; simpl; apply IH; discriminate.
Qed.

(** C9. A stream that delivers its chunks and ends resolves
    [computeStreamHash] with the fingerprint [computeBufferHash] gives for
    the chunks put end to end; a stream that errors before it ends rejects
    it with that error. Whatever the stream emits afterwards changes
    nothing. *)
Theorem C9_stream_hash (chunks : list (list byte)) (options : Options) (w : World)
        (later : list StreamEvent) :
  computeStreamHash digest (map OnData chunks ++ OnEnd :: later) options w =
    Resolved (computeBufferHash digest (List.concat chunks) options w)
  /\ forall err,
      computeStreamHash digest (map OnData chunks ++ OnError err :: later) options w =
      Rejected err.
Proof.
  unfold computeStreamHash, createHash. split; [|intros err];
    rewrite fold_left_app, stream_data_fold; simpl;
    rewrite stream_settled by discriminate; reflexivity.
Qed.

End HashFacts.

Lemma stringify_object_head k x ps :
  exists tail,
    JSON_stringify (JObject ((k, x) :: ps)) =
    String "{" (String dq (escape k +++ String dq tail)).
Proof.
  change (JSON_stringify (JObject ((k, x) :: ps)))
    with (String "{" (join ((quote k +++ ":" +++ JSON_stringify x)
                            :: map (member_text JSON_stringify) ps) +++ "}")).
  destruct ps as [|p ps].
  - change (join ((quote k +++ ":" +++ JSON_stringify x)
                   :: map (member_text JSON_stringify) []))
      with (quote k +++ ":" +++ JSON_stringify x).
    rewrite !append_assoc, quote_append. eexists. reflexivity.
  - change (map (member_text JSON_stringify) (p :: ps))
      with (member_text JSON_stringify p :: map (member_text JSON_stringify) ps).
    rewrite join_cons2, !append_assoc, quote_append. eexists. reflexivity.
Qed.

(** Objects that list a different field first have different texts. *)
Lemma stringify_first_key k1 x1 ps k2 x2 qs :
  JSON_stringify (JObject ((k1, x1) :: ps)) = JSON_stringify (JObject ((k2, x2) :: qs)) ->
  k1 = k2.
Proof.
  destruct (stringify_object_head k1 x1 ps) as [t1 ->].
  destruct (stringify_object_head k2 x2 qs) as [t2 ->].
  intros [= H]. apply (f_equal parse_chars) in H.
  rewrite !parse_chars_escape in H. congruence.
Qed.

(** C8, as the code has it. [computeAnyHash] is [computeBufferHash] of the
    bytes of the value's [JSON.stringify] text, so values with the same
    text get the same fingerprint; the text lists an object's fields in
    the object's own order, not a canonical one: objects that list a
    different field first have different texts. *)
Theorem C8_hash_of_json_text digest (options : Options) (w : World) :
  (forall v,
      computeAnyHash digest v options w =
      computeBufferHash digest (Buffer_from (JSON_stringify v)) options w)
  /\ (forall v1 v2,
         JSON_stringify v1 = JSON_stringify v2 ->
         computeAnyHash digest v1 options w = computeAnyHash digest v2 options w)
  /\ (forall k1 x1 ps k2 x2 qs,
         k1 <> k2 ->
         JSON_stringify (JObject ((k1, x1) :: ps)) <>
         JSON_stringify (JObject ((k2, x2) :: qs))).
Proof.
  split; [reflexivity | split].
  - intros v1 v2 H. unfold computeAnyHash. rewrite H. reflexivity.
  - intros k1 x1 ps k2 x2 qs Hne H. apply Hne. eapply stringify_first_key, H.
Qed.

(** C8 as the spec words it fails: two objects with the same fields in a
    different order get different fingerprints (SHA-256, hex, 14
    characters: the defaults). *)
Lemma C8_field_order_changes_hash :
  let w := constructed (new_HashCache no_options Node.boot) in
  let v1 := JObject [("a", JNumber 1); ("b", JNumber 2)] in
  let v2 := JObject [("b", JNumber 2); ("a", JNumber 1)] in
  struct_eq v1 v2
  /\ computeAnyHash Crypto.sha256_hex v1 no_options w = "43258cff783fe7"
  /\ computeAnyHash Crypto.sha256_hex v2 no_options w = "3fb75453225c73"
  /\ computeAnyHash Crypto.sha256_hex v1 no_options w <>
     computeAnyHash Crypto.sha256_hex v2 no_options w.
Proof.
  cbv zeta. split; [|split; [|split]].
  - apply se_object with (qs := [("b", JNumber 2); ("a", JNumber 1)]).
    + apply perm_swap.
    + repeat constructor.
  - vm_compute. reflexivity.
  - vm_compute. reflexivity.
  - vm_compute. discriminate.
Qed.

(** ** The last snapshot's fingerprint *)

Lemma durable_throttle to w : durable (throttleSaveCache to w) = durable w.
Proof. unfold throttleSaveCache. destruct (_throttleSaveCacheTimeout (ext w)); reflexivity. Qed.

Lemma durable_delete id w : durable (snd (delete id w)) = durable w.
Proof.
  unfold delete. destruct (class_of w); rewrite HashCache_delete_spec; simpl;
    [|rewrite durable_throttle]; reflexivity.
Qed.

Lemma durable_armed id ttl0 w : durable (armed id ttl0 w) = durable w.
Proof.
  unfold armed. destruct (effective_ttl ttl0 w); [|reflexivity].
  destruct (Map_get id (expiryMap (self w))); reflexivity.
Qed.

Lemma durable_evicted w : durable (evicted w) = durable w.
Proof.
  unfold evicted. destruct (hasMaxEntries (-1) w); [|reflexivity].
  destruct (Map_first_key (_cache (self w))); [apply durable_delete | reflexivity].
Qed.

Lemma durable_set id value ttl0 w : durable (set id value ttl0 w) = durable w.
Proof.
  rewrite set_stages. cbv zeta.
  assert (H : durable (evicted (armed id (Some (nullish ttl0 (ttl (self w))))
                                       (inserted id value w))) = durable w).
  { rewrite durable_evicted, durable_armed. reflexivity. }
  destruct (class_of w); [exact H|]. rewrite !durable_throttle. exact H.
Qed.

Lemma durable_clear w : durable (clear w) = durable w.
Proof.
  assert (H : durable (HashCache_clear w) = durable w).
  { unfold durable. destruct (HashCache_clear_self w) as (_ & _ & _ & ->). reflexivity. }
  unfold clear. destruct (class_of w); [|rewrite durable_throttle]; exact H.
Qed.

Lemma durable_cacheHash w w' : durable w' = durable w -> _cacheHash (ext w') = _cacheHash (ext w).
Proof. unfold durable. congruence. Qed.

Lemma computeAnyHash_config digest v o w w' :
  config w = config w' -> computeAnyHash digest v o w = computeAnyHash digest v o w'.
Proof.
  unfold config, computeAnyHash, computeBufferHash. intros H.
  injection H as _ -> -> -> _ _. reflexivity.
Qed.

Lemma throttleSaveRun_cacheHash digest to io w :
  _cacheHash (ext (throttleSaveRun digest to io w)) =
  Some (computeAnyHash digest (snapshot w) no_options w).
Proof.
  unfold throttleSaveRun.
  destruct (match _cacheHash (ext w) with Some h => _ | None => false end) eqn:Heq.
  - destruct (_cacheHash (ext w)) as [h|] eqn:Hh; [|discriminate].
    apply String.eqb_eq in Heq. simpl. rewrite Hh. congruence.
  - simpl.
    pose proof (ensure_spec io (with_cacheHash
                                  (Some (computeAnyHash digest (snapshot w) no_options w)) w))
      as (_ & _ & Hh & _).
    unfold saveCache.
    destruct (ensureCacheFileExists io _) as [[e|] w1]; simpl in *; [exact Hh|].
    destruct io; simpl; exact Hh.
Qed.

(** C4, as the code has it. [_cacheHash] is assigned at two places. A load
    that completes sets it to the fingerprint of the document it parsed
    from the file (the empty document when the content does not parse). A
    save run leaves it at the fingerprint of the store's current content:
    it is set before the write is issued and kept whether or not the write
    succeeds. After a save run that wrote, it is the fingerprint of the
    bytes on disk. Every other step leaves it as it was. *)
Theorem C4_snapshot_hash digest :
  (forall w from io w',
      loadCache digest from io w = (None, w') ->
      exists data,
        readFile (nullish from (_cachePath (ext w))) (node w') = Some data
        /\ _cacheHash (ext w') =
           Some (computeAnyHash digest (parsed_or_empty data) no_options w'))
  /\ (forall w to io,
         _cacheHash (ext (throttleSaveRun digest to io w)) =
         Some (computeAnyHash digest (snapshot w) no_options w))
  /\ (forall w to,
         _cacheFileExists (ext w) = true ->
         _cacheHash (ext w) <> Some (computeAnyHash digest (snapshot w) no_options w) ->
         let w' := throttleSaveRun digest to true w in
         exists data,
           readFile (nullish to (_cachePath (ext w))) (node w') = Some data
           /\ _cacheHash (ext w') =
              Some (computeBufferHash digest (Buffer_from data) no_options w'))
  /\ (forall w ev,
         _cacheHash (ext (step digest w ev)) = _cacheHash (ext w)
         \/ (exists io, ev = ELoad io)
         \/ (exists tid io tm to,
                ev = EFire tid io /\ find_timer tid (node w) = Some tm
                /\ tm_cb tm = CbSave to)).
Proof.
  split; [|split; [|split]].
  - intros w from io w' Hload.
    destruct (loadCache_spec digest _ _ _ _ Hload) as (data & es & Hr & _ & _ & _ & _ & Hh).
    exists data. split; [exact Hr|]. rewrite Hh. f_equal.
    apply computeAnyHash_config.
    pose proof (config_loadCache digest from io w) as Hc. rewrite Hload in Hc.
    symmetry. exact Hc.
  - intros w to io. apply throttleSaveRun_cacheHash.
  - intros w to Hex Hne. cbv zeta.
    destruct (throttleSaveRun_writes digest to w Hex Hne) as [Hf _]. cbv zeta in Hf.
    exists (JSON_stringify (snapshot w)). split; [exact Hf|].
    rewrite throttleSaveRun_cacheHash. unfold computeAnyHash at 1. f_equal.
    unfold computeBufferHash.
    destruct (throttleSaveRun_self digest to true w) as [-> _]. reflexivity.
  - intros w ev. destruct ev as [id val t0 | id | | dt | tid io | io]; simpl.
    + left. apply durable_cacheHash, durable_set.
    + left. apply durable_cacheHash, durable_delete.
    + left. apply durable_cacheHash, durable_clear.
    + left. reflexivity.
    + unfold fire. destruct (find_timer tid (node w)) as [tm|] eqn:Hf; [|left; reflexivity].
      destruct (tm_due tm <=? now (node w)); [|left; reflexivity].
      unfold run_callback. destruct (tm_cb tm) as [id|to] eqn:Hcb.
      * left. rewrite (durable_cacheHash _ _ (durable_delete id (clearTimeout tid w))).
        reflexivity.
      * right. right. exists tid, io, tm, to. auto.
    + right. left. exists io. reflexivity.
Qed.

(** C4 as the spec words it fails: the scheduled save runs, the file system
    refuses the write, and [_cacheHash] is the fingerprint of the content
    that never reached the disk. *)
Lemma C4_failed_write_updates_hash :
  let w0 := constructed (new_PersistentHashCache no_options Node.boot) in
  let w1 := run Crypto.sha256_hex w0 [ELoad true; ESet "x" "1" None; EElapse 5000] in
  let w2 := fire Crypto.sha256_hex 0 false w1 in
  _cacheHash (ext w1) = Some "44136fa355b367"
  /\ readFile ".cache" (node w2) = Some "{}"
  /\ writes (node w2) = [(".cache", "{}")]
  /\ _cacheHash (ext w2) = Some "013bdcb2b4d38b"
  /\ _cacheHash (ext w2) <>
     Some (computeAnyHash Crypto.sha256_hex (parsed_or_empty "{}") no_options w2)
  /\ _cacheHash (ext w2) <>
     Some (computeBufferHash Crypto.sha256_hex (Buffer_from "{}") no_options w2).
Proof.
  cbv zeta. vm_compute. repeat split; discriminate.
Qed.

(** ** Loading whatever the file holds *)

(** C5, the code at the failing input: the file holds [null]. [JSON.parse]
    accepts it, so the fallback to the empty document is not taken, and
    [Object.entries(null)] throws outside the [try]: the load rejects. A
    file that holds an array of text loads its items under their indices. *)
Theorem C5_null_document_rejects :
  let w0 := constructed (new_PersistentHashCache no_options (Node.boot_with ".cache" "null")) in
  let w1 := constructed (new_PersistentHashCache no_options
                           (Node.boot_with ".cache" (JSON_stringify (JArray [JString "a"])))) in
  JSON_parse "null" = Some JNull
  /\ fst (startup_load Crypto.sha256_hex true w0) = Some TypeError
  /\ fst (startup_load Crypto.sha256_hex true w1) = None
  /\ _cache (self (snd (startup_load Crypto.sha256_hex true w1))) = [("0", "a")].
Proof.
  cbv zeta. vm_compute. repeat split.
Qed.

(** ** The bookkeeping of timers and records *)

Section Bookkeeping.
Implicit Types (T : list Timeout) (E : Map ExpiryRecord) (C : Map string).

Lemma unique_by_id T a b :
  NoDup (map tm_id T) -> In a T -> In b T -> tm_id a = tm_id b -> a = b.
Proof.
  induction T as [|t T IH]; simpl; intros Hnd Ha Hb Heq; [tauto|].
  inversion Hnd as [|? ? Hnot Hnd']; subst.
  destruct Ha as [<-|Ha], Hb as [<-|Hb]; auto.
  - exfalso. apply Hnot. rewrite Heq. apply in_map. exact Hb.
  - exfalso. apply Hnot. rewrite <- Heq. apply in_map. exact Ha.
Qed.

Lemma NoDup_map_filter {A B} (f : A -> B) (p : A -> bool) l :
  NoDup (map f l) -> NoDup (map f (filter p l)).
Proof.
  induction l as [|x l IH]; simpl; intros Hnd; [constructor|].
  inversion Hnd as [|? ? Hnot Hnd']; subst.
  destruct (p x); simpl; [|auto]. constructor; [|auto].
  intros Hin. apply Hnot. apply in_map_iff in Hin as (y & Hy & Hin).
  apply filter_In in Hin as [Hin _]. rewrite <- Hy. apply in_map. exact Hin.
Qed.

Lemma filter_save_cancel T x :
  (forall tm, In tm T -> tm_id tm = x -> is_save tm = false) ->
  filter is_save (filter (keep_but x) T) = filter is_save T.
Proof.
  induction T as [|t T IH]; simpl; intros H; [reflexivity|].
  unfold keep_but at 1. destruct (Nat.eqb_spec (tm_id t) x) as [Heq|Hne]; simpl.
  - rewrite (H t (or_introl eq_refl) Heq). apply IH. intros tm Hin. apply H. auto.
  - rewrite IH; [reflexivity|]. intros tm Hin. apply H. auto.
Qed.

Lemma keep_but_In T x tm : In tm T -> tm_id tm <> x -> In tm (filter (keep_but x) T).
Proof.
  intros Hin Hne. apply filter_In. split; [exact Hin|].
  unfold keep_but. destruct (Nat.eqb_spec (tm_id tm) x); [contradiction | reflexivity].
Qed.

Lemma Map_set_In_sharp {V} k (v : V) (m : Map V) p :
  NoDup (Map_keys m) ->
  In p (Map_set k v m) -> p = (k, v) \/ (fst p <> k /\ In p m).
Proof.
  intros Hnd. unfold Map_set. destruct (Map_has k m) eqn:Hh.
  - clear Hh. induction m as [|[k2 v2] m IH]; simpl; [tauto|].
    simpl in Hnd. inversion Hnd as [|? ? Hnot Hnd']; subst.
    destruct (String.eqb_spec k k2) as [->|Hne]; simpl.
    + intros [<-|Hin]; [left; reflexivity|].
      right. split; [|right; exact Hin].
      intros Heq. apply Hnot. rewrite <- Heq. apply in_map. exact Hin.
    + intros [<-|Hin]; [right; split; [simpl; congruence | left; reflexivity]|].
      destruct (IH Hnd' Hin) as [->|[Hf Hin']]; [left; reflexivity | right; split; auto].
  - rewrite in_app_iff. simpl. intros [Hin|[<-|[]]]; [|left; reflexivity].
    right. split; [|exact Hin]. intros Heq. apply Map_has_false in Hh. apply Hh.
    rewrite <- Heq. apply in_map. exact Hin.
Qed.

(** The timer a record names is the one that expires the record's key. *)
Lemma record_timer T NT E C TH k r tm :
  wf_parts T NT E C TH -> In (k, r) E -> In tm T -> tm_id tm = timeout r ->
  tm_cb tm = CbExpire k.
Proof.
  intros Hwf Hin Htm Hid. destruct (wf_records _ _ _ _ _ Hwf k r Hin) as [due Hd].
  rewrite (unique_by_id T tm _ (wf_ids _ _ _ _ _ Hwf) Htm Hd Hid). reflexivity.
Qed.

Lemma parts_throttle T NT E C due to :
  wf_parts T NT E C None ->
  wf_parts (T ++ [mkTimeout NT due (CbSave to)]) (S NT) E C (Some NT).
Proof.
  intros [Hf Hi Hr He Hc Hd]. constructor.
  - intros tm Hin. apply in_app_or in Hin as [Hin|[<-|[]]]; [apply Hf in Hin|simpl]; lia.
  - rewrite map_app. apply NoDup_app; [exact Hi | repeat constructor; simpl; tauto |].
    intros x Hx [<-|[]]. apply in_map_iff in Hx as (tm & Hid & Hin).
    apply Hf in Hin. simpl in Hid. lia.
  - intros k r Hin. destruct (Hr k r Hin) as [d Hd']. exists d. apply in_or_app. auto.
  - exact He.
  - exact Hc.
  - rewrite filter_app, Hd. simpl. eauto.
Qed.

Lemma parts_cache T NT E C C' TH :
  wf_parts T NT E C TH -> NoDup (Map_keys C') -> wf_parts T NT E C' TH.
Proof. intros [Hf Hi Hr He Hc Hd] Hc'. constructor; assumption. Qed.

Lemma parts_remove_record T NT E C TH k :
  wf_parts T NT E C TH -> wf_parts T NT (Map_remove k E) C TH.
Proof.
  intros [Hf Hi Hr He Hc Hd]. constructor; try assumption.
  - intros k' r Hin. apply Hr. eapply Map_remove_incl, Hin.
  - apply Map_remove_NoDup, He.
Qed.

Lemma parts_arm T NT E C TH id due stamp :
  wf_parts T NT E C TH ->
  wf_parts (match Map_get id E with
            | Some rec => filter (keep_but (timeout rec)) T
            | None => T
            end ++ [mkTimeout NT due (CbExpire id)])
           (S NT) (Map_set id (mkExpiry stamp NT) E) C TH.
Proof.
  intros Hwf. pose proof Hwf as [Hf Hi Hr He Hc Hd].
  set (T1 := match Map_get id E with
             | Some rec => filter (keep_but (timeout rec)) T
             | None => T
             end).
  assert (Hsub : forall tm, In tm T1 -> In tm T).
  { unfold T1. destruct (Map_get id E); [|auto]. intros tm Hin.
    apply filter_In in Hin. apply Hin. }
  assert (Hkeep : forall k r due', k <> id -> In (k, r) E ->
                    In (mkTimeout (timeout r) due' (CbExpire k)) T ->
                    In (mkTimeout (timeout r) due' (CbExpire k)) T1).
  { unfold T1. destruct (Map_get id E) as [rec|] eqn:Hg; [|auto].
    intros k r due' Hne Hin Htm. apply keep_but_In; [exact Htm|]. simpl. intros Heq.
    pose proof (record_timer T NT E C TH id rec _ Hwf (Map_get_In _ _ _ Hg) Htm Heq) as Hcb.
    simpl in Hcb. congruence. }
  assert (Hsave : filter is_save T1 = filter is_save T).
  { unfold T1. destruct (Map_get id E) as [rec|] eqn:Hg; [|reflexivity].
    apply filter_save_cancel. intros tm Hin Heq.
    pose proof (record_timer T NT E C TH id rec tm Hwf (Map_get_In _ _ _ Hg) Hin Heq) as Hcb.
    unfold is_save. rewrite Hcb. reflexivity. }
  constructor.
  - intros tm Hin. apply in_app_or in Hin as [Hin|[<-|[]]]; [apply Hsub, Hf in Hin|simpl]; lia.
  - rewrite map_app. apply NoDup_app.
    + unfold T1. destruct (Map_get id E); [apply NoDup_map_filter|]; exact Hi.
    + repeat constructor. simpl. tauto.
    + intros x Hx [<-|[]]. apply in_map_iff in Hx as (tm & Hid & Hin).
      apply Hsub, Hf in Hin. simpl in Hid. lia.
  - intros k r Hin. apply (Map_set_In_sharp id _ E _ He) in Hin as [[= -> ->]|[Hne Hin]].
    + exists due. apply in_or_app. right. left. reflexivity.
    + destruct (Hr k r Hin) as [d Hd']. exists d. apply in_or_app. left.
      apply Hkeep; assumption.
  - apply Map_set_NoDup, He.
  - exact Hc.
  - rewrite filter_app, Hsave. simpl. rewrite app_nil_r. exact Hd.
Qed.

Lemma parts_fire_expire T NT E C TH tid due k :
  wf_parts T NT E C TH -> In (mkTimeout tid due (CbExpire k)) T ->
  wf_parts (filter (keep_but tid) T) NT (Map_remove k E) C TH.
Proof.
  intros Hwf Htm. pose proof Hwf as [Hf Hi Hr He Hc Hd]. constructor.
  - intros tm Hin. apply filter_In in Hin. apply Hf, Hin.
  - apply NoDup_map_filter, Hi.
  - intros k' r Hin.
    assert (Hne : k' <> k).
    { intros ->. apply (Map_remove_absent k E He). change k with (fst (k, r)).
      apply in_map. exact Hin. }
    apply Map_remove_incl in Hin. destruct (Hr k' r Hin) as [d Hd']. exists d.
    apply keep_but_In; [exact Hd'|]. simpl. intros Heq.
    pose proof (unique_by_id T _ _ Hi Hd' Htm Heq) as Hu. congruence.
  - apply Map_remove_NoDup, He.
  - exact Hc.
  - rewrite filter_save_cancel; [exact Hd|]. intros tm Hin Heq.
    rewrite (unique_by_id T tm _ Hi Hin Htm Heq). reflexivity.
Qed.

Lemma parts_fire_save T NT E C TH tid due to :
  wf_parts T NT E C TH -> In (mkTimeout tid due (CbSave to)) T ->
  wf_parts (filter (keep_but tid) T) NT E C None.
Proof.
  intros Hwf Htm. pose proof Hwf as [Hf Hi Hr He Hc Hd]. constructor.
  - intros tm Hin. apply filter_In in Hin. apply Hf, Hin.
  - apply NoDup_map_filter, Hi.
  - intros k r Hin. destruct (Hr k r Hin) as [d Hd']. exists d.
    apply keep_but_In; [exact Hd'|]. simpl. intros Heq.
    pose proof (unique_by_id T _ _ Hi Hd' Htm Heq) as Hu. congruence.
  - exact He.
  - exact Hc.
  - rewrite filter_filter.
    assert (Hin : In (mkTimeout tid due (CbSave to)) (filter is_save T))
      by (apply filter_In; auto).
    destruct TH as [id0|].
    + destruct Hd as (d0 & to0 & Hd). rewrite Hd in *.
      destruct Hin as [Heq|[]]. rewrite Heq. simpl. unfold keep_but. simpl.
      rewrite Nat.eqb_refl. reflexivity.
    + rewrite Hd in Hin. destruct Hin.
Qed.

Lemma clear_fold_facts T NT E C TH rs :
  wf_parts T NT E C TH -> incl rs E ->
  forall T',
    (forall tm, In tm T' -> In tm T) -> NoDup (map tm_id T') ->
    filter is_save T' = filter is_save T ->
    let T'' := fold_left (fun acc kv => filter (keep_but (timeout (snd kv))) acc) rs T' in
    (forall tm, In tm T'' -> In tm T) /\ NoDup (map tm_id T'')
    /\ filter is_save T'' = filter is_save T.
Proof.
  intros Hwf. induction rs as [|[k r] rs IH]; intros Hincl T' Hsub Hnd Hsave; simpl.
  - auto.
  - apply IH.
    + intros x Hx. apply Hincl. right. exact Hx.
    + intros tm Hin. apply filter_In in Hin. apply Hsub, Hin.
    + apply NoDup_map_filter, Hnd.
    + rewrite filter_save_cancel; [exact Hsave|]. simpl. intros tm Hin Heq.
      pose proof (record_timer T NT E C TH k r tm Hwf (Hincl _ (or_introl eq_refl))
                               (Hsub _ Hin) Heq) as Hcb.
      unfold is_save. rewrite Hcb. reflexivity.
Qed.

Lemma parts_clear T NT E C TH rs :
  wf_parts T NT E C TH -> incl rs E ->
  wf_parts (fold_left (fun acc kv => filter (keep_but (timeout (snd kv))) acc) rs T)
           NT [] [] TH.
Proof.
  intros Hwf Hincl.
  destruct (clear_fold_facts T NT E C TH rs Hwf Hincl T (fun _ x => x)
                             (wf_ids _ _ _ _ _ Hwf) eq_refl) as (Hsub & Hnd & Hsave).
  destruct Hwf as [Hf Hi Hr He Hc Hd].
  constructor.
  - intros tm Hin. apply Hf, Hsub, Hin.
  - exact Hnd.
  - intros k r [].
  - constructor.
  - constructor.
  - rewrite Hsave. exact Hd.
Qed.

(** Cancelling the timer a record names takes no save timer away. *)
Lemma cancel_keeps_saves T NT E C TH id rec :
  wf_parts T NT E C TH -> Map_get id E = Some rec ->
  filter is_save (filter (keep_but (timeout rec)) T) = filter is_save T.
Proof.
  intros Hwf Hg. apply filter_save_cancel. intros tm Hin Heq.
  pose proof (record_timer T NT E C TH id rec tm Hwf (Map_get_In _ _ _ Hg) Hin Heq) as Hcb.
  unfold is_save. rewrite Hcb. reflexivity.
Qed.

End Bookkeeping.

(** ** Every reachable state keeps the bookkeeping *)

Lemma wf_throttle to w : wf w -> wf (throttleSaveCache to w).
Proof.
  unfold wf, throttleSaveCache. intros Hwf.
  destruct (_throttleSaveCacheTimeout (ext w)) eqn:Hth; [rewrite Hth; exact Hwf|].
  simpl. apply parts_throttle. exact Hwf.
Qed.

Lemma wf_HashCache_delete id w : wf w -> wf (snd (HashCache_delete id w)).
Proof.
  unfold wf. rewrite HashCache_delete_spec. simpl. intros Hwf.
  apply parts_remove_record. eapply parts_cache; [exact Hwf|].
  apply Map_remove_NoDup. exact (wf_cache_keys _ _ _ _ _ Hwf).
Qed.

Lemma wf_delete id w : wf w -> wf (snd (delete id w)).
Proof.
  intros Hwf. pose proof (wf_HashCache_delete id w Hwf) as H.
  unfold delete. destruct (class_of w); [exact H|].
  destruct (HashCache_delete id w) as [d w1]. simpl in *. apply wf_throttle, H.
Qed.

Lemma wf_inserted id value w : wf w -> wf (inserted id value w).
Proof.
  unfold wf, inserted. simpl. intros Hwf. eapply parts_cache; [exact Hwf|].
  apply Map_set_NoDup. exact (wf_cache_keys _ _ _ _ _ Hwf).
Qed.

Lemma wf_armed id ttl0 w : wf w -> wf (armed id ttl0 w).
Proof.
  unfold wf, armed. intros Hwf. destruct (effective_ttl ttl0 w) as [d|]; [|exact Hwf].
  pose proof (parts_arm _ _ _ _ _ id (now (node w) + timer_delay d) (now (node w)) Hwf) as H.
  destruct (Map_get id (expiryMap (self w))) as [rec|]; exact H.
Qed.

Lemma wf_evicted w : wf w -> wf (evicted w).
Proof.
  intros Hwf. unfold evicted. destruct (hasMaxEntries (-1) w); [|exact Hwf].
  destruct (Map_first_key (_cache (self w))); [apply wf_delete, Hwf | exact Hwf].
Qed.

Lemma wf_set id value ttl0 w : wf w -> wf (set id value ttl0 w).
Proof.
  intros Hwf. rewrite set_stages. cbv zeta.
  assert (H : wf (evicted (armed id (Some (nullish ttl0 (ttl (self w))))
                                  (inserted id value w))))
    by (apply wf_evicted, wf_armed, wf_inserted, Hwf).
  destruct (class_of w); [exact H|]. apply wf_throttle, wf_throttle, H.
Qed.

Lemma clear_timers_node (rs : Map ExpiryRecord) w :
  timers (node (fold_left (fun acc kv => clearTimeout (timeout (snd kv)) acc) rs w)) =
    fold_left (fun acc kv => filter (keep_but (timeout (snd kv))) acc) rs (timers (node w))
  /\ next_timer (node (fold_left (fun acc kv => clearTimeout (timeout (snd kv)) acc) rs w)) =
     next_timer (node w).
Proof.
  revert w. induction rs as [|r rs IH]; intros w; simpl; [auto|].
  destruct (IH (clearTimeout (timeout (snd r)) w)) as [H1 H2]. rewrite H1, H2. auto.
Qed.

Lemma wf_HashCache_clear w : wf w -> wf (HashCache_clear w).
Proof.
  unfold wf. intros Hwf.
  destruct (HashCache_clear_self w) as (Hc & He & _ & Hx). rewrite Hc, He, Hx.
  unfold HashCache_clear. cbv zeta.
  destruct (clear_timers_node (expiryMap (self (with_cache [] w))) (with_cache [] w))
    as [Ht Hn].
  simpl node at 1 2. simpl in Ht, Hn. rewrite Ht, Hn.
  eapply parts_clear; [exact Hwf | apply incl_refl].
Qed.

Lemma wf_clear w : wf w -> wf (clear w).
Proof.
  intros Hwf. unfold clear.
  destruct (class_of w); [|apply wf_throttle]; apply wf_HashCache_clear, Hwf.
Qed.

Section ReachableWf.
Variable digest : Crypto.Digest.

Lemma throttleSaveRun_unschedules to io w :
  _throttleSaveCacheTimeout (ext (throttleSaveRun digest to io w)) = None.
Proof.
  unfold throttleSaveRun.
  destruct (match _cacheHash (ext w) with Some h => _ | None => false end); reflexivity.
Qed.

Lemma find_timer_id tid n tm : find_timer tid n = Some tm -> tm_id tm = tid.
Proof.
  unfold find_timer. intros H. apply find_some in H as [_ H].
  apply Nat.eqb_eq in H. exact H.
Qed.

Lemma wf_fire tid io w : wf w -> wf (fire digest tid io w).
Proof.
  intros Hwf. unfold fire. destruct (find_timer tid (node w)) as [tm|] eqn:Hf; [|exact Hwf].
  destruct (tm_due tm <=? now (node w)); [|exact Hwf].
  pose proof (find_timer_In _ _ _ Hf) as Hin. pose proof (find_timer_id _ _ _ Hf) as Hid.
  destruct tm as [i due cb]. simpl in Hid. subst i. unfold run_callback. simpl tm_cb.
  destruct cb as [k|to].
  - assert (H : wf (snd (HashCache_delete k (clearTimeout tid w)))).
    { unfold wf in *. rewrite HashCache_delete_spec. simpl.
      eapply parts_cache; [eapply parts_fire_expire; [exact Hwf | exact Hin]|].
      apply Map_remove_NoDup. exact (wf_cache_keys _ _ _ _ _ Hwf). }
    unfold delete. change (class_of (clearTimeout tid w)) with (class_of w).
    destruct (class_of w); [exact H|].
    destruct (HashCache_delete k (clearTimeout tid w)) as [d w1]. simpl in *.
    apply wf_throttle, H.
  - unfold wf in *.
    destruct (timers_throttleSaveRun digest (Some to) io (clearTimeout tid w)) as [-> ->].
    destruct (throttleSaveRun_self digest (Some to) io (clearTimeout tid w)) as [-> _].
    rewrite throttleSaveRun_unschedules. simpl.
    eapply parts_fire_save; [exact Hwf | exact Hin].
Qed.

Lemma Map_set_all_NoDup es m : NoDup (Map_keys m) -> NoDup (Map_keys (Map_set_all es m)).
Proof.
  unfold Map_set_all. revert m. induction es as [|[k v] es IH]; intros m H; simpl; [exact H|].
  apply IH, Map_set_NoDup, H.
Qed.

Lemma wf_loadCache from io w : wf w -> wf (snd (loadCache digest from io w)).
Proof.
  unfold wf. intros Hwf. unfold loadCache.
  pose proof (ensure_spec io w) as (He & Hc & _ & Hth & _).
  pose proof (timers_ensure io w) as [Ht Hn].
  destruct (ensureCacheFileExists io w) as [[e|] w1]; simpl in *.
  - rewrite He, Hc, Hth, Ht, Hn. exact Hwf.
  - assert (Hw1 : wf_parts (timers (node w1)) (next_timer (node w1)) (expiryMap (self w1))
                           (_cache (self w1)) (_throttleSaveCacheTimeout (ext w1)))
      by (rewrite He, Hc, Hth, Ht, Hn; exact Hwf).
    destruct (readFile _ (node w1)) as [data|]; simpl; [|exact Hw1].
    destruct (Object_entries _) as [es|]; simpl; [|exact Hw1].
    destruct (load_entries_spec es
                (with_cacheHash (Some (computeAnyHash digest
                                         match JSON_parse data with
                                         | Some parsed => parsed
                                         | None => JObject []
                                         end no_options w1)) w1)) as (H1 & H2 & H3 & H4).
    rewrite H1, H2, H3, H4. simpl.
    eapply parts_cache; [exact Hw1|]. apply Map_set_all_NoDup.
    exact (wf_cache_keys _ _ _ _ _ Hw1).
Qed.

Lemma wf_step w ev : wf w -> wf (step digest w ev).
Proof.
  intros Hwf. destruct ev as [id val t0 | id | | dt | tid io | io]; simpl.
  - apply wf_set, Hwf.
  - apply wf_delete, Hwf.
  - apply wf_clear, Hwf.
  - exact Hwf.
  - apply wf_fire, Hwf.
  - destruct (class_of w); [exact Hwf|]. unfold startup_load.
    pose proof (wf_loadCache (Some (_cachePath (ext w))) io w Hwf) as H.
    destruct (loadCache digest _ io w) as [[e|] w1]; simpl in *; [exact H|].
    apply wf_throttle, H.
Qed.

Lemma reachable_wf w : reachable digest w -> wf w.
Proof.
  intros (options & n & w0 & evs & Hn & Hnew & ->).
  apply run_invariant; [intros; apply wf_step; assumption|].
  assert (H : timers (node w0) = [] /\ expiryMap (self w0) = [] /\ _cache (self w0) = []
              /\ _throttleSaveCacheTimeout (ext w0) = None).
  { unfold new_PersistentHashCache, new_HashCache in Hnew.
    destruct (_ <=? 0); [destruct Hnew; discriminate|].
    destruct Hnew as [[= <-]|[= <-]]; simpl; auto. }
  destruct H as (Ht & He & Hc & Hth). unfold wf. rewrite Ht, He, Hc, Hth.
  constructor; simpl; try constructor; tauto.
Qed.

End ReachableWf.

(** ** The debounced save *)

Lemma throttle_schedules to w :
  _throttleSaveCacheTimeout (ext (throttleSaveCache to w)) <> None.
Proof.
  unfold throttleSaveCache. destruct (_throttleSaveCacheTimeout (ext w)) eqn:H.
  - rewrite H. discriminate.
  - simpl. discriminate.
Qed.

Lemma writes_throttle to w : writes (node (throttleSaveCache to w)) = writes (node w).
Proof. unfold throttleSaveCache. destruct (_throttleSaveCacheTimeout (ext w)); reflexivity. Qed.

Lemma writes_delete id w : writes (node (snd (delete id w))) = writes (node w).
Proof.
  unfold delete. destruct (class_of w); rewrite HashCache_delete_spec; simpl;
    [|rewrite writes_throttle]; reflexivity.
Qed.

Lemma kept_throttle to w t :
  _throttleSaveCacheTimeout (ext w) = Some t -> scheduled_kept w (throttleSaveCache to w).
Proof. intros H. rewrite (throttle_scheduled to w t H). split; reflexivity. Qed.

Lemma kept_trans w1 w2 w3 : scheduled_kept w1 w2 -> scheduled_kept w2 w3 -> scheduled_kept w1 w3.
Proof. unfold scheduled_kept. intros [-> ->] [-> ->]. auto. Qed.

Lemma kept_delete id w t :
  _throttleSaveCacheTimeout (ext w) = Some t -> scheduled_kept w (snd (delete id w)).
Proof.
  intros H. unfold delete. destruct (class_of w); rewrite HashCache_delete_spec; simpl.
  - split; reflexivity.
  - eapply kept_trans; [|apply (kept_throttle _ _ t); exact H]. split; reflexivity.
Qed.

Lemma kept_armed id ttl0 w : wf w -> scheduled_kept w (armed id ttl0 w).
Proof.
  unfold wf, armed, scheduled_kept, save_timers. intros Hwf.
  destruct (effective_ttl ttl0 w) as [d|]; [|auto].
  destruct (Map_get id (expiryMap (self w))) as [rec|] eqn:Hg; simpl;
    rewrite filter_app; simpl; rewrite app_nil_r; [|auto].
  split; [|reflexivity]. eapply cancel_keeps_saves; eassumption.
Qed.

Lemma kept_evicted w t :
  _throttleSaveCacheTimeout (ext w) = Some t -> scheduled_kept w (evicted w).
Proof.
  intros H. unfold evicted. destruct (hasMaxEntries (-1) w); [|split; reflexivity].
  destruct (Map_first_key (_cache (self w))); [|split; reflexivity].
  apply (kept_delete _ _ t), H.
Qed.

Lemma kept_HashCache_clear w : wf w -> scheduled_kept w (HashCache_clear w).
Proof.
  unfold wf, scheduled_kept, save_timers. intros Hwf.
  destruct (HashCache_clear_self w) as (_ & _ & _ & Hx). rewrite Hx.
  split; [|reflexivity]. unfold HashCache_clear. cbv zeta.
  destruct (clear_timers_node (expiryMap (self (with_cache [] w))) (with_cache [] w))
    as [Ht _].
  simpl node at 1. simpl in Ht. rewrite Ht.
  apply (clear_fold_facts _ _ _ _ _ _ Hwf (incl_refl _) _ (fun _ x => x)
                          (wf_ids _ _ _ _ _ Hwf) eq_refl).
Qed.

Lemma kept_mutation digest w ev t :
  wf w -> is_mutation ev = true -> _throttleSaveCacheTimeout (ext w) = Some t ->
  scheduled_kept w (step digest w ev).
Proof.
  intros Hwf Hm Hth. destruct ev as [id val t0 | id | | dt | tid io | io];
    try discriminate; simpl.
  - rewrite set_stages. cbv zeta.
    set (w1 := inserted id val w).
    set (w2 := armed id (Some (nullish t0 (ttl (self w)))) w1).
    assert (H1 : scheduled_kept w w1) by (split; reflexivity).
    assert (H2 : scheduled_kept w1 w2) by (apply kept_armed, wf_inserted, Hwf).
    assert (Hth2 : _throttleSaveCacheTimeout (ext w2) = Some t).
    { destruct H2 as [_ ->]. exact Hth. }
    assert (H3 : scheduled_kept w2 (evicted w2)) by (apply (kept_evicted _ t), Hth2).
    assert (H : scheduled_kept w (evicted w2))
      by (eapply kept_trans; [exact H1 | eapply kept_trans; eassumption]).
    destruct (class_of w); [exact H|].
    assert (Hth3 : _throttleSaveCacheTimeout (ext (evicted w2)) = Some t).
    { destruct H as [_ ->]. exact Hth. }
    rewrite !(throttle_scheduled None _ t); try exact Hth3; [exact H|].
    rewrite (throttle_scheduled None _ t Hth3). exact Hth3.
  - apply (kept_delete _ _ t), Hth.
  - pose proof (kept_HashCache_clear w Hwf) as H. unfold clear.
    destruct (class_of w); [exact H|].
    eapply kept_trans; [exact H|]. apply (kept_throttle _ _ t).
    destruct H as [_ ->]. exact Hth.
Qed.

Lemma fire_writes digest tid io w :
  _cacheFileExists (ext w) = true ->
  writes (node (fire digest tid io w)) = writes (node w)
  \/ exists to,
      writes (node (fire digest tid io w)) =
      writes (node w) ++ [(to, JSON_stringify (snapshot w))].
Proof.
  intros Hex. unfold fire. destruct (find_timer tid (node w)) as [tm|]; [|auto].
  destruct (tm_due tm <=? now (node w)); [|auto].
  unfold run_callback. destruct (tm_cb tm) as [k|to].
  - left. rewrite writes_delete. reflexivity.
  - unfold throttleSaveRun.
    destruct (match _cacheHash (ext (clearTimeout tid w)) with
              | Some h => _ | None => false end); [left; reflexivity|].
    unfold saveCache. rewrite ensure_known by exact Hex.
    destruct io; simpl; [right; exists to; reflexivity | left; reflexivity].
Qed.

Lemma throttleSaveRun_unchanged digest to io w :
  _cacheHash (ext w) = Some (computeAnyHash digest (snapshot w) no_options w) ->
  node (throttleSaveRun digest to io w) = node w.
Proof.
  intros H. unfold throttleSaveRun. rewrite H, String.eqb_refl. reflexivity.
Qed.

(** ** Records and entries go together *)

Lemma Map_keys_remove_other {V} k k' (m : Map V) :
  k' <> k -> In k' (Map_keys m) -> In k' (Map_keys (Map_remove k m)).
Proof.
  intros Hne. unfold Map_keys. induction m as [|[k2 v2] m IH]; simpl; [tauto|].
  destruct (String.eqb_spec k k2) as [->|Hne2]; simpl.
  - intros [Heq|Hin]; [congruence | exact Hin].
  - intros [Heq|Hin]; auto.
Qed.

Lemma Map_keys_set_incl {V} k (v : V) (m : Map V) x :
  In x (Map_keys (Map_set k v m)) <-> x = k \/ In x (Map_keys m).
Proof.
  rewrite Map_keys_set. destruct (Map_has k m) eqn:Hh.
  - apply Map_has_keys in Hh. split; [auto | intros [->|H]; assumption].
  - rewrite in_app_iff. simpl. intuition.
Qed.

Lemma present_throttle to w : records_present w -> records_present (throttleSaveCache to w).
Proof. unfold records_present. rewrite self_throttle. auto. Qed.

Lemma present_HashCache_delete id w :
  wf w -> records_present w -> records_present (snd (HashCache_delete id w)).
Proof.
  unfold records_present. rewrite HashCache_delete_spec. simpl. intros Hwf Hp k Hin.
  assert (Hne : k <> id).
  { intros ->. exact (Map_remove_absent id _ (wf_expiry_keys _ _ _ _ _ Hwf) Hin). }
  apply Map_keys_remove_other; [exact Hne|]. apply Hp.
  eapply Map_keys_remove_incl, Hin.
Qed.

Lemma present_delete id w :
  wf w -> records_present w -> records_present (snd (delete id w)).
Proof.
  intros Hwf Hp. pose proof (present_HashCache_delete id w Hwf Hp) as H.
  unfold delete. destruct (class_of w); [exact H|].
  destruct (HashCache_delete id w) as [d w1]. simpl in *. apply present_throttle, H.
Qed.

Lemma present_armed id ttl0 w :
  In id (Map_keys (_cache (self w))) -> records_present w ->
  records_present (armed id ttl0 w).
Proof.
  unfold records_present, armed. intros Hid Hp.
  destruct (effective_ttl ttl0 w); [|exact Hp].
  destruct (Map_get id (expiryMap (self w))); simpl; intros k Hin;
    apply Map_keys_set_incl in Hin as [->|Hin]; auto.
Qed.

Lemma present_evicted w : wf w -> records_present w -> records_present (evicted w).
Proof.
  intros Hwf Hp. unfold evicted. destruct (hasMaxEntries (-1) w); [|exact Hp].
  destruct (Map_first_key (_cache (self w))); [apply present_delete; assumption | exact Hp].
Qed.

Lemma present_set id value ttl0 w :
  wf w -> records_present w -> records_present (set id value ttl0 w).
Proof.
  intros Hwf Hp. rewrite set_stages. cbv zeta.
  assert (H : records_present (evicted (armed id (Some (nullish ttl0 (ttl (self w))))
                                               (inserted id value w)))).
  { apply present_evicted; [apply wf_armed, wf_inserted, Hwf|].
    apply present_armed.
    - unfold inserted. simpl. apply Map_keys_set_incl. left. reflexivity.
    - unfold records_present, inserted. simpl. intros k Hin.
      apply Map_keys_set_incl. right. apply Hp, Hin. }
  destruct (class_of w); [exact H|]. apply present_throttle, present_throttle, H.
Qed.

Lemma present_clear w : records_present (clear w).
Proof.
  assert (H : records_present (HashCache_clear w)).
  { unfold records_present. destruct (HashCache_clear_self w) as (_ & -> & _). intros k []. }
  unfold clear. destruct (class_of w); [|apply present_throttle]; exact H.
Qed.

Lemma Map_set_all_keys es m x : In x (Map_keys m) -> In x (Map_keys (Map_set_all es m)).
Proof.
  unfold Map_set_all. revert m. induction es as [|[k v] es IH]; intros m H; simpl; [exact H|].
  apply IH. apply Map_keys_set_incl. right. exact H.
Qed.

Section RecordsPresent.
Variable digest : Crypto.Digest.

Lemma present_step w ev :
  wf w -> records_present w -> records_present (step digest w ev).
Proof.
  intros Hwf Hp. destruct ev as [id val t0 | id | | dt | tid io | io]; simpl.
  - apply present_set; assumption.
  - apply present_delete; assumption.
  - apply present_clear.
  - exact Hp.
  - unfold fire. destruct (find_timer tid (node w)) as [tm|]; [|exact Hp].
    destruct (tm_due tm <=? now (node w)); [|exact Hp].
    unfold run_callback. destruct (tm_cb tm) as [k|to].
    + assert (H : records_present (snd (HashCache_delete k (clearTimeout tid w)))).
      { unfold records_present in *. rewrite HashCache_delete_spec. simpl. intros k' Hin.
        assert (Hne : k' <> k).
        { intros ->. exact (Map_remove_absent k _ (wf_expiry_keys _ _ _ _ _ Hwf) Hin). }
        apply Map_keys_remove_other; [exact Hne|]. apply Hp.
        eapply Map_keys_remove_incl, Hin. }
      unfold delete. change (class_of (clearTimeout tid w)) with (class_of w).
      destruct (class_of w); [exact H|].
      destruct (HashCache_delete k (clearTimeout tid w)) as [d w1]. simpl in *.
      apply present_throttle, H.
    + unfold records_present.
      destruct (throttleSaveRun_self digest (Some to) io (clearTimeout tid w)) as [-> _].
      exact Hp.
  - destruct (class_of w); [exact Hp|]. unfold startup_load.
    assert (H : records_present (snd (loadCache digest (Some (_cachePath (ext w))) io w))).
    { unfold records_present, loadCache.
      pose proof (ensure_spec io w) as (He & Hc & _).
      destruct (ensureCacheFileExists io w) as [[e|] w1]; simpl in *.
      - rewrite He, Hc. exact Hp.
      - destruct (readFile _ (node w1)) as [data|]; simpl; [|rewrite He, Hc; exact Hp].
        destruct (Object_entries _) as [es|]; simpl; [|rewrite He, Hc; exact Hp].
        destruct (load_entries_spec es
                    (with_cacheHash (Some (computeAnyHash digest
                                             match JSON_parse data with
                                             | Some parsed => parsed
                                             | None => JObject []
                                             end no_options w1)) w1)) as (H1 & H2 & _).
        rewrite H1, H2. simpl. rewrite He, Hc. intros k Hin.
        apply Map_set_all_keys, Hp, Hin. }
    destruct (loadCache digest _ io w) as [[e|] w1]; simpl in *; [exact H|].
    apply present_throttle, H.
Qed.

(** X1. In every reachable state each key has at most one expiry record, every
    record's key is in the store, and every record names a pending timer
    that will delete its key. (The converse fails: see C2.) *)
Theorem records_have_entries w :
  reachable digest w ->
  NoDup (Map_keys (expiryMap (self w)))
  /\ (forall k, In k (Map_keys (expiryMap (self w))) -> has k w = true)
  /\ (forall k r, Map_get k (expiryMap (self w)) = Some r ->
                  exists due, In (mkTimeout (timeout r) due (CbExpire k))
                                 (expiry_timers k w)).
Proof.
  intros Hr. pose proof (reachable_wf digest w Hr) as Hwf.
  destruct Hr as (options & n & w0 & evs & Hn & Hnew & ->).
  assert (Hinv : wf (run digest w0 evs) /\ records_present (run digest w0 evs)).
  { apply (run_invariant digest (fun w => wf w /\ records_present w)).
    - intros w ev [Hw Hp]. split; [apply (wf_step digest), Hw | apply present_step; assumption].
    - assert (He : expiryMap (self w0) = []).
      { unfold new_PersistentHashCache, new_HashCache in Hnew.
        destruct (_ <=? 0); [destruct Hnew; discriminate|].
        destruct Hnew as [[= <-]|[= <-]]; reflexivity. }
      split.
      + apply (reachable_wf digest). exists options, n, w0, []. auto.
      + unfold records_present. rewrite He. intros k []. }
  destruct Hinv as [_ Hp]. split; [exact (wf_expiry_keys _ _ _ _ _ Hwf) | split].
  - intros k Hin. apply Map_has_keys. apply Hp, Hin.
  - intros k r Hg. destruct (wf_records _ _ _ _ _ Hwf k r (Map_get_In _ _ _ Hg)) as [due Hd].
    exists due. unfold expiry_timers. apply filter_In. split; [exact Hd|].
    unfold expires. simpl. apply String.eqb_refl.
Qed.

End RecordsPresent.

(** On a run with an expiry and a [delete]. *)
Lemma records_have_entries_witness :
  let w := run Crypto.sha256_hex (constructed (new_HashCache no_options Node.boot))
               [ESet "a" "1" None; ESet "b" "2" (Some (Some 10)); EDelete "a";
                EElapse 10; EFire 1 true; ESet "c" "3" None] in
  NoDup (Map_keys (expiryMap (self w)))
  /\ (forall k, In k (Map_keys (expiryMap (self w))) -> has k w = true)
  /\ (forall k r, Map_get k (expiryMap (self w)) = Some r ->
                  exists due, In (mkTimeout (timeout r) due (CbExpire k))
                                 (expiry_timers k w)).
Proof.
  cbv zeta. apply (records_have_entries Crypto.sha256_hex).
  exists no_options, Node.boot, (constructed (new_HashCache no_options Node.boot)),
         [ESet "a" "1" None; ESet "b" "2" (Some (Some 10)); EDelete "a";
          EElapse 10; EFire 1 true; ESet "c" "3" None].
  split; [reflexivity | split; [left; reflexivity | reflexivity]].
Defined.

(** ** [JSON.parse] never lacks fuel *)

Lemma skip_ws_length s : (String.length (skip_ws s) <= String.length s)%nat.
Proof.
  induction s as [|c s IH]; simpl; [lia|]. destruct (is_ws c); simpl; lia.
Qed.

Lemma skip_ws_cons s c r :
  skip_ws s = String c r -> (String.length r < String.length s)%nat.
Proof. intros H. pose proof (skip_ws_length s) as Hl. rewrite H in Hl. simpl in Hl. lia. Qed.

Lemma prepend_rest p x str rest :
  prepend p x = Some (str, rest) -> exists str', x = Some (str', rest).
Proof.
  unfold prepend. destruct x as [[str' rest']|]; [|discriminate].
  intros [= _ <-]. eauto.
Qed.

Lemma prepend_shorter p x str rest (n : nat) :
  (forall str', x = Some (str', rest) -> (String.length rest < n)%nat) ->
  prepend p x = Some (str, rest) -> (String.length rest < S n)%nat.
Proof.
  intros Hx H. apply prepend_rest in H as [str' H]. apply Hx in H. lia.
Qed.

Lemma parse_chars_shorter n :
  forall s str rest,
    (String.length s <= n)%nat -> parse_chars s = Some (str, rest) ->
    (String.length rest < String.length s)%nat.
Proof.
  induction n as [|n IH]; intros s str rest Hn H.
  - destruct s; [discriminate | simpl in Hn; lia].
  - assert (Hrec : forall p t, (String.length t <= n)%nat ->
                               prepend p (parse_chars t) = Some (str, rest) ->
                               (String.length rest < S (String.length t))%nat).
    { intros p t Ht. apply prepend_shorter. intros str'. apply IH, Ht. }
    destruct s as [|c r]; [discriminate|].
    cbn [parse_chars] in H. cbn [String.length] in *.
    destruct (Ascii.eqb c dq); [injection H as _ <-; lia|].
    destruct (Ascii.eqb c backslash).
    + destruct r as [|e r1]; [discriminate|]. cbn [String.length] in *.
      destruct (Ascii.eqb e "u").
      * destruct r1 as [|h1 [|h2 [|h3 [|h4 r2]]]]; try discriminate.
        cbn [String.length] in *.
        destruct (hex4 h1 h2 h3 h4) as [cp|]; [|discriminate].
        assert (H2 : forall p, prepend p (parse_chars r2) = Some (str, rest) ->
                               (String.length rest < S (String.length r2))%nat).
        { intros p Hp. apply Hrec in Hp; [exact Hp | lia]. }
        destruct (is_high cp).
        -- destruct r2 as [|b [|u [|l1 [|l2 [|l3 [|l4 r3]]]]]];
             try (apply H2 in H; cbn [String.length] in *; lia).
           destruct (hex4 l1 l2 l3 l4) as [lo|]; [|apply H2 in H; cbn [String.length] in *; lia].
           destruct (Ascii.eqb b backslash && Ascii.eqb u "u" && is_low lo);
             [|apply H2 in H; cbn [String.length] in *; lia].
           apply Hrec in H; cbn [String.length] in *; lia.
        -- destruct (is_low cp); apply H2 in H; cbn [String.length] in *; lia.
      * destruct (simple_escape e); [|discriminate]. apply Hrec in H; lia.
    + destruct (Nat.ltb (nat_of_ascii c) 32); [discriminate|]. apply Hrec in H; lia.
Qed.

Lemma span_digits_length s d r :
  span_digits s = (d, r) -> String.length s = (String.length d + String.length r)%nat.
Proof.
  revert d r. induction s as [|c s IH]; intros d r; simpl.
  - intros [= <- <-]. reflexivity.
  - destruct (is_digit c).
    + destruct (span_digits s) as [d' r'] eqn:Hs. intros [= <- <-]. simpl.
      rewrite (IH d' r' eq_refl). reflexivity.
    + intros [= <- <-]. reflexivity.
Qed.

Lemma strip_prefix_length p s r :
  strip_prefix p s = Some r -> (String.length r <= String.length s)%nat.
Proof.
  revert s. induction p as [|a p IH]; intros s; simpl.
  - intros [= ->]. lia.
  - destruct s as [|b s]; [discriminate|]. destruct (Ascii.eqb a b); [|discriminate].
    intros H. apply IH in H. simpl. lia.
Qed.

Lemma take_sign_length s : (String.length (snd (take_sign s)) <= String.length s)%nat.
Proof.
  unfold take_sign. destruct s as [|c r]; simpl; [lia|].
  destruct (Ascii.eqb c "-"); simpl; lia.
Qed.

Lemma take_int_length s lex rest :
  take_int s = Some (lex, rest) -> (String.length rest < String.length s)%nat.
Proof.
  unfold take_int. destruct (span_digits s) as [ds r] eqn:Hs.
  apply span_digits_length in Hs. destruct ds as [|d0 more]; [discriminate|].
  simpl in Hs. destruct (Ascii.eqb d0 "0"); intros [= _ <-].
  - rewrite append_length. lia.
  - lia.
Qed.

Lemma take_frac_length s lex rest :
  take_frac s = Some (lex, rest) -> (String.length rest <= String.length s)%nat.
Proof.
  unfold take_frac. destruct s as [|c r]; [intros [= _ <-]; lia|].
  destruct (Ascii.eqb c "."); [|intros [= _ <-]; lia].
  destruct (span_digits r) as [fs r'] eqn:Hs. apply span_digits_length in Hs.
  destruct fs; [discriminate|]. intros [= _ <-]. simpl in *. lia.
Qed.

Lemma take_exp_length s lex rest :
  take_exp s = Some (lex, rest) -> (String.length rest <= String.length s)%nat.
Proof.
  unfold take_exp. destruct s as [|c r]; [intros [= _ <-]; lia|].
  destruct (Ascii.eqb c "e" || Ascii.eqb c "E"); [|intros [= _ <-]; lia].
  destruct r as [|c' r'']; [discriminate|].
  destruct (Ascii.eqb c' "+" || Ascii.eqb c' "-").
  - destruct (span_digits r'') as [es r2] eqn:Hs. apply span_digits_length in Hs.
    destruct es; [discriminate|]. intros [= _ <-]. cbn [String.length] in *. lia.
  - destruct (span_digits (String c' r'')) as [es r2] eqn:Hs.
    apply span_digits_length in Hs.
    destruct es; [discriminate|]. intros [= _ <-]. cbn [String.length] in *. lia.
Qed.

Lemma parse_number_shorter s x rest :
  parse_number s = Some (x, rest) -> (String.length rest < String.length s)%nat.
Proof.
  unfold parse_number. pose proof (take_sign_length s) as H0.
  destruct (take_sign s) as [sign s1]. simpl in H0.
  destruct (take_int s1) as [[int s2]|] eqn:H1; [|discriminate]. apply take_int_length in H1.
  destruct (take_frac s2) as [[fr s3]|] eqn:H2; [|discriminate]. apply take_frac_length in H2.
  destruct (take_exp s3) as [[ex s4]|] eqn:H3; [|discriminate]. apply take_exp_length in H3.
  intros H.
  assert (Hr : rest = s4).
  { destruct fr, ex; try (injection H as _ <-; reflexivity).
    destruct (_ <=? _); injection H as _ <-; reflexivity. }
  subst rest. lia.
Qed.

Lemma of_option_parsed r x rest : of_option r = Parsed x rest -> r = Some (x, rest).
Proof. destruct r as [[x' rest']|]; simpl; [intros [= -> ->]; reflexivity | discriminate]. Qed.

Lemma of_option_fed r : of_option r <> Starved.
Proof. destruct r as [[x rest]|]; discriminate. Qed.

(** What a parser hands back is shorter than what it was given. *)
Lemma parse_shorter fuel :
  (forall s x r, parse_value fuel s = Parsed x r ->
                 (String.length r < String.length s)%nat)
  /\ (forall s acc x r, parse_members fuel s acc = Parsed x r ->
                        (String.length r < String.length s)%nat)
  /\ (forall s acc x r, parse_elements fuel s acc = Parsed x r ->
                        (String.length r < String.length s)%nat).
Proof.
  induction fuel as [|f (IHv & IHm & IHe)]; [repeat split; intros; discriminate|].
  split; [|split].
  - intros s x r. cbn [parse_value parse_members parse_elements]. destruct (skip_ws s) as [|c t] eqn:Hs; [discriminate|].
    apply skip_ws_cons in Hs.
    destruct (Ascii.eqb c "{").
    { destruct (skip_ws t) as [|c' t'] eqn:Ht; [discriminate|]. apply skip_ws_cons in Ht.
      destruct (Ascii.eqb c' "}"); [intros [= _ <-]; lia|].
      intros H. apply IHm in H. lia. }
    destruct (Ascii.eqb c "[").
    { destruct (skip_ws t) as [|c' t'] eqn:Ht; [discriminate|]. apply skip_ws_cons in Ht.
      destruct (Ascii.eqb c' "]"); [intros [= _ <-]; lia|].
      intros H. apply IHe in H. lia. }
    destruct (Ascii.eqb c dq).
    { destruct (parse_chars t) as [[str rest]|] eqn:Hc; [|discriminate].
      apply (parse_chars_shorter _ _ _ _ (le_n _)) in Hc. intros [= _ <-]. lia. }
    destruct (Ascii.eqb c "t").
    { intros H. apply of_option_parsed in H.
      destruct (strip_prefix "rue" t) as [rest|] eqn:Hp; [|discriminate].
      apply strip_prefix_length in Hp. cbn [option_map] in H. injection H as _ <-. lia. }
    destruct (Ascii.eqb c "f").
    { intros H. apply of_option_parsed in H.
      destruct (strip_prefix "alse" t) as [rest|] eqn:Hp; [|discriminate].
      apply strip_prefix_length in Hp. cbn [option_map] in H. injection H as _ <-. lia. }
    destruct (Ascii.eqb c "n").
    { intros H. apply of_option_parsed in H.
      destruct (strip_prefix "ull" t) as [rest|] eqn:Hp; [|discriminate].
      apply strip_prefix_length in Hp. cbn [option_map] in H. injection H as _ <-. lia. }
    intros H. apply of_option_parsed, parse_number_shorter in H.
    cbn [String.length] in H. lia.
  - intros s acc x r. cbn [parse_value parse_members parse_elements]. destruct (skip_ws s) as [|c t] eqn:Hs; [discriminate|].
    apply skip_ws_cons in Hs. destruct (Ascii.eqb c dq); [|discriminate].
    destruct (parse_chars t) as [[k r1]|] eqn:Hc; [|discriminate].
    apply (parse_chars_shorter _ _ _ _ (le_n _)) in Hc.
    destruct (skip_ws r1) as [|c1 r2] eqn:H1; [discriminate|]. apply skip_ws_cons in H1.
    destruct (Ascii.eqb c1 ":"); [|discriminate].
    destruct (parse_value f r2) as [y r3| |] eqn:Hv; try discriminate. apply IHv in Hv.
    destruct (skip_ws r3) as [|c3 r4] eqn:H3; [discriminate|]. apply skip_ws_cons in H3.
    destruct (Ascii.eqb c3 ","); [intros H; apply IHm in H; lia|].
    destruct (Ascii.eqb c3 "}"); [intros [= _ <-]; lia | discriminate].
  - intros s acc x r. cbn [parse_value parse_members parse_elements].
    destruct (parse_value f s) as [y r1| |] eqn:Hv; try discriminate. apply IHv in Hv.
    destruct (skip_ws r1) as [|c r2] eqn:H1; [discriminate|]. apply skip_ws_cons in H1.
    destruct (Ascii.eqb c ","); [intros H; apply IHe in H; lia|].
    destruct (Ascii.eqb c "]"); [intros [= _ <-]; lia | discriminate].
Qed.

(** Two units of fuel for each character, and one more, are enough. *)
Lemma parse_fed fuel :
  (forall s, (2 * String.length s + 1 <= fuel)%nat -> parse_value fuel s <> Starved)
  /\ (forall s acc, (2 * String.length s + 2 <= fuel)%nat ->
                    parse_members fuel s acc <> Starved)
  /\ (forall s acc, (2 * String.length s + 2 <= fuel)%nat ->
                    parse_elements fuel s acc <> Starved).
Proof.
  induction fuel as [|f (IHv & IHm & IHe)]; [repeat split; intros; lia|].
  destruct (parse_shorter f) as (Sv & Sm & Se).
  split; [|split].
  - intros s Hf. cbn [parse_value parse_members parse_elements]. destruct (skip_ws s) as [|c t] eqn:Hs; [discriminate|].
    apply skip_ws_cons in Hs.
    destruct (Ascii.eqb c "{").
    { destruct (skip_ws t) as [|c' t'] eqn:Ht; [discriminate|].
      destruct (Ascii.eqb c' "}"); [discriminate|]. apply IHm. lia. }
    destruct (Ascii.eqb c "[").
    { destruct (skip_ws t) as [|c' t'] eqn:Ht; [discriminate|].
      destruct (Ascii.eqb c' "]"); [discriminate|]. apply IHe. lia. }
    destruct (Ascii.eqb c dq); [destruct (parse_chars t) as [[? ?]|]; discriminate|].
    repeat (match goal with |- context [if ?b then _ else _] => destruct b end);
      apply of_option_fed.
  - intros s acc Hf. cbn [parse_value parse_members parse_elements]. destruct (skip_ws s) as [|c t] eqn:Hs; [discriminate|].
    apply skip_ws_cons in Hs. destruct (Ascii.eqb c dq); [|discriminate].
    destruct (parse_chars t) as [[k r1]|] eqn:Hc; [|discriminate].
    apply (parse_chars_shorter _ _ _ _ (le_n _)) in Hc.
    destruct (skip_ws r1) as [|c1 r2] eqn:H1; [discriminate|]. apply skip_ws_cons in H1.
    destruct (Ascii.eqb c1 ":"); [|discriminate].
    destruct (parse_value f r2) as [y r3| |] eqn:Hv; [|discriminate|].
    + apply Sv in Hv.
      destruct (skip_ws r3) as [|c3 r4] eqn:H3; [discriminate|]. apply skip_ws_cons in H3.
      destruct (Ascii.eqb c3 ","); [apply IHm; lia|].
      destruct (Ascii.eqb c3 "}"); discriminate.
    + exfalso. revert Hv. apply IHv. lia.
  - intros s acc Hf. cbn [parse_value parse_members parse_elements].
    destruct (parse_value f s) as [y r1| |] eqn:Hv; [|discriminate|].
    + apply Sv in Hv.
      destruct (skip_ws r1) as [|c r2] eqn:H1; [discriminate|]. apply skip_ws_cons in H1.
      destruct (Ascii.eqb c ","); [apply IHe; lia|].
      destruct (Ascii.eqb c "]"); discriminate.
    + exfalso. revert Hv. apply IHv. lia.
Qed.

(** [JSON_parse] gives every text enough fuel: a text it turns down is
    malformed, or has something after its value. *)
Theorem JSON_parse_decides s : parse_value (parse_fuel s) s <> Starved.
Proof. apply (parse_fed (parse_fuel s)). unfold parse_fuel. lia. Qed.

(** ** Reading back what was just set *)

Lemma Map_get_absent {V} k (m : Map V) : ~ In k (Map_keys m) -> Map_get k m = None.
Proof.
  intros H. apply Map_has_false in H. unfold Map_has in H.
  destruct (Map_get k m); [discriminate | reflexivity].
Qed.

Lemma Map_get_removed {V} k (m : Map V) :
  NoDup (Map_keys m) -> Map_get k (Map_remove k m) = None.
Proof. intros H. apply Map_get_absent, Map_remove_absent, H. Qed.

(** The value [set] stored is what [get] finds, unless the store is over
    its capacity and the key is its oldest: then [set] evicted the entry
    it had just written. *)
Lemma get_set_cases id value ttl0 w :
  NoDup (keys w) ->
  let ins := Map_set id value (_cache (self w)) in
  get id (set id value ttl0 w) =
    if match maxEntries (self w) with
       | Some n => n <? Map_size ins
       | None => false
       end
       && match Map_first_key ins with
          | Some k => String.eqb k id
          | None => false
          end
    then None else Some value.
Proof.
  intros Hnd ins. unfold get. rewrite cache_after_set. fold ins. cbv zeta.
  assert (Hget : Map_get id ins = Some value).
  { unfold ins. rewrite Map_get_set, String.eqb_refl. reflexivity. }
  assert (Hins : NoDup (Map_keys ins)) by (apply Map_set_NoDup, Hnd).
  destruct (maxEntries (self w)) as [n|]; [|exact Hget].
  destruct (n <? Map_size ins); [|exact Hget].
  destruct ins as [|[k0 v0] rest]; [discriminate|].
  cbn [Map_first_key tl andb]. simpl in Hget.
  rewrite String.eqb_sym. destruct (String.eqb id k0) eqn:He.
  - apply String.eqb_eq in He. subst k0. simpl in Hins. inversion Hins; subst.
    apply Map_get_absent. assumption.
  - exact Hget.
Qed.

Lemma get_set_fits id value ttl0 w N :
  NoDup (keys w) -> maxEntries (self w) = Some N -> 1 <= N -> size w <= N ->
  get id (set id value ttl0 w) = Some value.
Proof.
  intros Hnd HN H1 Hsz. rewrite (get_set_cases id value ttl0 w Hnd). cbv zeta.
  rewrite HN, Map_set_size. unfold size in Hsz.
  destruct (Map_has id (_cache (self w))) eqn:Hh.
  - replace (N <? Map_size (_cache (self w))) with false by (symmetry; apply Z.ltb_ge; lia).
    reflexivity.
  - destruct (N <? Map_size (_cache (self w)) + 1) eqn:Hlt; [|reflexivity].
    apply Z.ltb_lt in Hlt. unfold Map_set. rewrite Hh.
    destruct (_cache (self w)) as [|[k0 v0] rest] eqn:Hc.
    + unfold Map_size in Hlt. simpl in Hlt. lia.
    + cbn [app Map_first_key andb]. destruct (String.eqb k0 id) eqn:He; [|reflexivity].
      apply String.eqb_eq in He. subst k0. unfold Map_has in Hh. simpl in Hh.
      rewrite String.eqb_refl in Hh. discriminate.
Qed.

(** X7. [get(k)] straight after [set(k, v)] returns [v], except when the
    store is over its capacity and [k] is its oldest key: then [set]
    evicted the entry it had just written, and [get(k)] finds nothing.
    In a store that was within a capacity of one or more this does not
    happen. *)
Theorem set_then_get id value ttl0 w :
  NoDup (keys w) ->
  (let ins := Map_set id value (_cache (self w)) in
   get id (set id value ttl0 w) =
     if match maxEntries (self w) with
        | Some n => n <? Map_size ins
        | None => false
        end
        && match Map_first_key ins with
           | Some k => String.eqb k id
           | None => false
           end
     then None else Some value)
  /\ (forall N, maxEntries (self w) = Some N -> 1 <= N -> size w <= N ->
                get id (set id value ttl0 w) = Some value)
  /\ (maxEntries (self w) = None -> get id (set id value ttl0 w) = Some value).
Proof.
  intros Hnd. split; [apply get_set_cases, Hnd | split].
  - intros N HN H1 Hsz. apply (get_set_fits id value ttl0 w N); assumption.
  - intros HN. apply get_after_set, HN.
Qed.

(** On a store loaded over its capacity: three entries where two are
    allowed; setting the oldest key evicts it. *)
Lemma set_then_get_witness :
  let w := with_cache [("a", "1"); ("b", "2"); ("c", "3")]
             (constructed (new_HashCache (mkOptions None None None None (Some (Some 2)))
                                         Node.boot)) in
  get "a" (set "a" "9" None w) = None
  /\ get "c" (set "c" "9" None w) = Some "9".
Proof.
  cbv zeta.
  set (w := with_cache _ _).
  assert (Hnd : NoDup (keys w)).
  { unfold w. vm_compute. repeat constructor; simpl; intuition discriminate. }
  split.
  - rewrite (proj1 (set_then_get "a" "9" None w Hnd)). reflexivity.
  - rewrite (proj1 (set_then_get "c" "9" None w Hnd)). reflexivity.
Defined.

(** ** [clear] *)

Lemma fold_keep_but_In (rs : Map ExpiryRecord) :
  forall T tm,
    In tm (fold_left (fun acc kv => filter (keep_but (timeout (snd kv))) acc) rs T)
    <-> In tm T /\ forall k r, In (k, r) rs -> tm_id tm <> timeout r.
Proof.
  induction rs as [|[k0 r0] rs IH]; intros T tm; simpl.
  - split; [intros H; split; [exact H | intros k r []] | intros [H _]; exact H].
  - rewrite IH, filter_In. unfold keep_but. rewrite Bool.negb_true_iff, Nat.eqb_neq.
    split.
    + intros [[Hin Hne] Hrest]. split; [exact Hin|].
      intros k r [[= <- <-] | Hr]; [exact Hne | apply (Hrest k r Hr)].
    + intros [Hin Hall]. split; [split; [exact Hin | apply (Hall k0 r0); left; reflexivity]|].
      intros k r Hr. apply (Hall k r). right. exact Hr.
Qed.

Lemma timers_HashCache_clear w :
  timers (node (HashCache_clear w)) =
  fold_left (fun acc kv => filter (keep_but (timeout (snd kv))) acc)
            (expiryMap (self w)) (timers (node w)).
Proof.
  unfold HashCache_clear. cbv zeta.
  change (node (with_expiryMap [] ?x)) with (node x).
  rewrite (proj1 (clear_timers_node _ _)). reflexivity.
Qed.

Lemma next_timer_HashCache_clear w :
  next_timer (node (HashCache_clear w)) = next_timer (node w).
Proof.
  unfold HashCache_clear. cbv zeta.
  change (node (with_expiryMap [] ?x)) with (node x).
  rewrite (proj2 (clear_timers_node _ _)). reflexivity.
Qed.

(** X9. In every reachable state, [clear] empties the store and the expiry
    records and cancels every timer a record names; the timers no record
    names (a scheduled save, and expiry timers that [delete] left behind)
    stay armed. *)
Theorem clear_cancels_recorded digest w :
  reachable digest w ->
  size (clear w) = 0
  /\ expiryMap (self (clear w)) = []
  /\ (forall k r tm, In (k, r) (expiryMap (self w)) ->
                     In tm (timers (node (clear w))) -> tm_id tm <> timeout r)
  /\ (forall tm, In tm (timers (node w)) ->
                 (forall k r, In (k, r) (expiryMap (self w)) -> tm_id tm <> timeout r) ->
                 In tm (timers (node (clear w)))).
Proof.
  intros Hr. apply reachable_wf in Hr as Hwf.
  split; [unfold size; rewrite cache_clear; reflexivity|].
  split.
  { unfold clear. destruct (class_of w); [|rewrite self_throttle];
      apply (proj1 (proj2 (HashCache_clear_self w))). }
  split.
  - intros k r tm Hrec Hin. unfold clear in Hin.
    assert (H0 : In tm (timers (node (HashCache_clear w))) -> tm_id tm <> timeout r).
    { intros H. rewrite timers_HashCache_clear in H.
      apply fold_keep_but_In in H as [_ Hall]. apply (Hall k r Hrec). }
    destruct (class_of w); [apply H0, Hin|].
    rewrite timers_throttle in Hin.
    destruct (_throttleSaveCacheTimeout (ext (HashCache_clear w))); [apply H0, Hin|].
    apply in_app_or in Hin as [Hin | [<- | []]]; [apply H0, Hin|].
    cbn [tm_id]. rewrite next_timer_HashCache_clear.
    destruct (wf_records _ _ _ _ _ Hwf k r Hrec) as [due Hdue].
    apply (wf_fresh _ _ _ _ _ Hwf) in Hdue. cbn [tm_id] in Hdue. lia.
  - intros tm Hin Hall. unfold clear.
    assert (H0 : In tm (timers (node (HashCache_clear w)))).
    { rewrite timers_HashCache_clear. apply fold_keep_but_In. split; assumption. }
    destruct (class_of w); [exact H0|].
    rewrite timers_throttle.
    destruct (_throttleSaveCacheTimeout (ext (HashCache_clear w))); [exact H0|].
    apply in_or_app. left. exact H0.
Qed.

(** Two keys with timers, one deleted, then [clear]: the timer of the key
    still recorded is cancelled, the one [delete] left behind stays. *)
Lemma clear_cancels_recorded_witness :
  let w := run Crypto.sha256_hex (constructed (new_HashCache no_options Node.boot))
               [ESet "a" "1" None; ESet "b" "2" None; EDelete "a"] in
  timers (node w) = [mkTimeout 0 3600000 (CbExpire "a"); mkTimeout 1 3600000 (CbExpire "b")]
  /\ timers (node (clear w)) = [mkTimeout 0 3600000 (CbExpire "a")]
  /\ size (clear w) = 0.
Proof.
  cbv zeta.
  set (w := run _ _ _).
  assert (Hr : reachable Crypto.sha256_hex w).
  { exists no_options, Node.boot, (constructed (new_HashCache no_options Node.boot)),
           [ESet "a" "1" None; ESet "b" "2" None; EDelete "a"].
    split; [reflexivity | split; [left; reflexivity | reflexivity]]. }
  destruct (clear_cancels_recorded Crypto.sha256_hex w Hr) as (Hsz & _).
  split; [vm_compute; reflexivity | split; [vm_compute; reflexivity | exact Hsz]].
Defined.

(** ** An expiry timer firing *)

Lemma now_throttle to w : now (node (throttleSaveCache to w)) = now (node w).
Proof.
  unfold throttleSaveCache. destruct (_throttleSaveCacheTimeout (ext w)); reflexivity.
Qed.

Lemma now_delete id w : now (node (snd (delete id w))) = now (node w).
Proof.
  unfold delete. rewrite HashCache_delete_spec.
  destruct (class_of w); cbn [snd]; [reflexivity | rewrite now_throttle; reflexivity].
Qed.

Lemma now_armed id ttl0 w : now (node (armed id ttl0 w)) = now (node w).
Proof.
  unfold armed. destruct (effective_ttl ttl0 w); [|reflexivity].
  destruct (Map_get id (expiryMap (self w))); reflexivity.
Qed.

Lemma now_evicted w : now (node (evicted w)) = now (node w).
Proof.
  unfold evicted. destruct (hasMaxEntries (-1) w); [|reflexivity].
  destruct (Map_first_key (_cache (self w))); [apply now_delete | reflexivity].
Qed.

Lemma now_set id value ttl0 w : now (node (set id value ttl0 w)) = now (node w).
Proof.
  rewrite set_stages. cbv zeta.
  destruct (class_of w); rewrite ?now_throttle, now_evicted, now_armed; reflexivity.
Qed.

Lemma find_by_id (T : list Timeout) tm :
  NoDup (map tm_id T) -> In tm T ->
  find (fun x => Nat.eqb (tm_id x) (tm_id tm)) T = Some tm.
Proof.
  induction T as [|a T IH]; intros Hnd Hin; [destruct Hin|].
  simpl in Hnd. inversion Hnd as [|? ? Hna Hnd']; subst. simpl.
  destruct Hin as [-> | Hin].
  - rewrite Nat.eqb_refl. reflexivity.
  - destruct (Nat.eqb (tm_id a) (tm_id tm)) eqn:He; [|apply IH; assumption].
    apply Nat.eqb_eq in He. exfalso. apply Hna. rewrite He. apply in_map, Hin.
Qed.

(** X10. After [set(id, value, ttl)] with an effective TTL of [d] in a
    reachable state, the timer it armed does nothing while less than the
    delay has passed (Node reads a [d] below 1 or above [2^31 - 1] as 1);
    fired once the delay has passed, it removes the entry and its expiry
    record, and on a [PersistentHashCache] it leaves a save scheduled. *)
Theorem expiry_fires digest w id value ttl0 d dt io :
  reachable digest w ->
  effective_ttl ttl0 w = Some d ->
  let tid := next_timer (node w) in
  let w1 := run digest w [ESet id value ttl0; EElapse dt] in
  (dt < timer_delay d -> fire digest tid io w1 = w1)
  /\ (timer_delay d <= dt ->
      get id (fire digest tid io w1) = None
      /\ Map_get id (expiryMap (self (fire digest tid io w1))) = None
      /\ (class_of w = CPersistentHashCache ->
          _throttleSaveCacheTimeout (ext (fire digest tid io w1)) <> None)).
Proof.
  intros Hr Hd tid w1.
  apply reachable_wf in Hr as Hwf.
  set (w' := set id value ttl0 w).
  assert (Hwf' : wf w') by (apply wf_set, Hwf).
  assert (Hin : In (new_expiry id d w) (timers (node w'))).
  { assert (H : In (new_expiry id d w) (expiry_timers id w')).
    { unfold w'. rewrite expiry_timers_set, Hd. apply in_or_app. right. left. reflexivity. }
    unfold expiry_timers in H. apply filter_In in H. apply H. }
  assert (Hw1 : w1 = with_node (elapse dt (node w')) w') by reflexivity.
  assert (Hfind : find_timer tid (node w1) = Some (new_expiry id d w)).
  { rewrite Hw1. unfold find_timer. cbn [node with_node elapse timers].
    apply (find_by_id (timers (node w')) (new_expiry id d w));
      [apply (wf_ids _ _ _ _ _ Hwf') | exact Hin]. }
  assert (Hnow : now (node w1) = now (node w) + Z.max dt 0).
  { rewrite Hw1. cbn [node with_node elapse now]. unfold w'. rewrite now_set. reflexivity. }
  assert (Hdelay : 1 <= timer_delay d).
  { unfold timer_delay. destruct ((1 <=? d) && (d <=? 2147483647)) eqn:E; [|lia].
    apply andb_prop in E as [E _]. apply Z.leb_le in E. exact E. }
  unfold fire. rewrite Hfind. cbn [tm_due new_expiry tm_cb]. rewrite Hnow. split.
  - intros Hlt.
    replace (now (node w) + timer_delay d <=? now (node w) + Z.max dt 0) with false
      by (symmetry; apply Z.leb_gt; lia).
    reflexivity.
  - intros Hge.
    replace (now (node w) + timer_delay d <=? now (node w) + Z.max dt 0) with true
      by (symmetry; apply Z.leb_le; lia).
    cbn [run_callback].
    assert (Hself : self (clearTimeout tid w1) = self w') by reflexivity.
    assert (Hclass : class_of (clearTimeout tid w1) = class_of w).
    { change (class_of (clearTimeout tid w1)) with (class_of w').
      apply config_class, config_set. }
    split; [|split].
    + unfold get. rewrite cache_delete, Hself. apply Map_get_removed.
      apply (wf_cache_keys _ _ _ _ _ Hwf').
    + rewrite expiryMap_delete, Hself. apply Map_get_removed.
      apply (wf_expiry_keys _ _ _ _ _ Hwf').
    + intros Hp. unfold delete. rewrite Hclass, Hp.
      destruct (HashCache_delete id (clearTimeout tid w1)) as [deleted w2].
      cbn [snd]. apply throttle_schedules.
Qed.

(** A TTL of three billion milliseconds is above [2^31 - 1]: the entry is
    gone when its timer fires one millisecond later. *)
Lemma expiry_fires_witness :
  let w := constructed (new_HashCache no_options Node.boot) in
  let w1 := run Crypto.sha256_hex w [ESet "k" "v" (Some (Some 3000000000)); EElapse 1] in
  get "k" w1 = Some "v" /\ get "k" (fire Crypto.sha256_hex 0 true w1) = None.
Proof.
  cbv zeta.
  set (w := constructed _).
  assert (Hr : reachable Crypto.sha256_hex w).
  { exists no_options, Node.boot, w, [].
    split; [reflexivity | split; [left; reflexivity | reflexivity]]. }
  destruct (expiry_fires Crypto.sha256_hex w "k" "v" (Some (Some 3000000000))
              3000000000 1 true Hr eq_refl) as [_ Hfire].
  split; [vm_compute; reflexivity|].
  apply Hfire. vm_compute. discriminate.
Defined.

(** ** The shape of a fingerprint *)

Import Shape.

Lemma substring_0_length n s :
  String.length (substring 0 n s) = Nat.min n (String.length s).
Proof.
  revert s. induction n as [|n IH]; intros s; destruct s as [|c s]; simpl; try reflexivity.
  rewrite IH. reflexivity.
Qed.

Lemma substring_0_prefix n s : exists rest, s = substring 0 n s +++ rest.
Proof.
  revert s. induction n as [|n IH]; intros s.
  - exists s. destruct s; reflexivity.
  - destruct s as [|c s]; [exists EmptyString; reflexivity|].
    destruct (IH s) as [rest Hr]. exists rest. simpl. rewrite <- Hr. reflexivity.
Qed.

Lemma all_chars_substring p n s :
  all_chars p s = true -> all_chars p (substring 0 n s) = true.
Proof.
  revert s. induction n as [|n IH]; intros s H; destruct s as [|c s]; simpl; try reflexivity.
  simpl in H. apply andb_prop in H as [Hc Hs]. rewrite Hc, (IH s Hs). reflexivity.
Qed.

Lemma slice0_has_length stop s :
  Z.of_nat (String.length (slice0 stop s)) =
  slice0_length stop (Z.of_nat (String.length s)).
Proof.
  unfold slice0, slice0_length. rewrite substring_0_length.
  destruct (stop <? 0) eqn:E; [apply Z.ltb_lt in E | apply Z.ltb_ge in E]; lia.
Qed.

Lemma be_bytes_length n x : List.length (Crypto.be_bytes n x) = n.
Proof. induction n as [|n IH]; simpl; [reflexivity | rewrite IH; reflexivity]. Qed.

Lemma be_bytes_range n x : Forall (fun b => 0 <= b < 256) (Crypto.be_bytes n x).
Proof.
  induction n as [|n IH]; simpl; constructor; [apply Z.mod_pos_bound; lia | exact IH].
Qed.

Lemma blocks_length n : forall h bs,
  List.length h = 8%nat -> List.length (Crypto.blocks n h bs) = 8%nat.
Proof.
  induction n as [|n IH]; intros h bs Hh; simpl; [exact Hh|].
  destruct bs; [exact Hh|]. apply IH. reflexivity.
Qed.

Lemma hex_length bs : String.length (Crypto.hex bs) = (2 * List.length bs)%nat.
Proof. induction bs as [|b bs IH]; simpl; [reflexivity | rewrite IH; lia]. Qed.

Lemma hex_digit_is_hex d : 0 <= d < 16 -> is_hex_digit (Crypto.hex_digit d) = true.
Proof.
  intros H.
  assert (Hd : d = 0 \/ d = 1 \/ d = 2 \/ d = 3 \/ d = 4 \/ d = 5 \/ d = 6 \/ d = 7
               \/ d = 8 \/ d = 9 \/ d = 10 \/ d = 11 \/ d = 12 \/ d = 13 \/ d = 14
               \/ d = 15) by lia.
  repeat (destruct Hd as [-> | Hd]; [reflexivity|]). subst d. reflexivity.
Qed.

Lemma hex_chars bs :
  Forall (fun b => 0 <= b < 256) bs -> all_chars is_hex_digit (Crypto.hex bs) = true.
Proof.
  induction 1 as [|b bs Hb _ IH]; [reflexivity|].
  cbn [Crypto.hex all_chars]. rewrite IH, !hex_digit_is_hex; [reflexivity | |].
  - apply Z.mod_pos_bound. lia.
  - split; [apply Z.div_pos; lia | apply Z.div_lt_upper_bound; lia].
Qed.

Lemma flat_map_be_bytes_length (l : list Z) :
  List.length (flat_map (Crypto.be_bytes 4) l) = (4 * List.length l)%nat.
Proof.
  induction l as [|x l IH]; [reflexivity|].
  cbn [flat_map]. rewrite length_app, be_bytes_length, IH. simpl. lia.
Qed.

Lemma flat_map_be_bytes_range (l : list Z) :
  Forall (fun b => 0 <= b < 256) (flat_map (Crypto.be_bytes 4) l).
Proof.
  induction l as [|x l IH]; [constructor|].
  cbn [flat_map]. apply Forall_app. split; [apply be_bytes_range | exact IH].
Qed.

(** A SHA-256 digest in hex is 64 hex digits. *)
Lemma sha256_hex_shape alg enc data :
  String.length (Crypto.sha256_hex alg enc data) = 64%nat
  /\ all_chars is_hex_digit (Crypto.sha256_hex alg enc data) = true.
Proof.
  unfold Crypto.sha256_hex, Crypto.sha256. cbv zeta. split.
  - rewrite hex_length, flat_map_be_bytes_length, blocks_length; reflexivity.
  - apply hex_chars, flat_map_be_bytes_range.
Qed.

(** ** The first start of a [PersistentHashCache] *)

(** X12. Started where its file does not exist, a [PersistentHashCache]
    creates the file holding the empty document, loads nothing, and
    schedules a save; that save, run before any entry was set, writes
    nothing.  When the file system refuses the write, the load fails and no
    save is scheduled. *)
Theorem fresh_start digest options n w0 :
  new_PersistentHashCache options n = Ok w0 ->
  files n ".cache" = None ->
  (exists w1,
      startup_load digest true w0 = (None, w1)
      /\ files (node w1) ".cache" = Some "{}"
      /\ writes (node w1) = writes n ++ [(".cache", "{}")]
      /\ _cache (self w1) = []
      /\ _throttleSaveCacheTimeout (ext w1) <> None
      /\ forall to io, node (throttleSaveRun digest to io w1) = node w1)
  /\ startup_load digest false w0 = (Some (EIO ".cache"), w0).
Proof.
  intros Hnew Hfile.
  unfold new_PersistentHashCache, new_HashCache in Hnew.
  destruct (_ <=? 0); [discriminate|]. injection Hnew as <-.
  split.
  - unfold startup_load, loadCache, ensureCacheFileExists, existsSync.
    cbn [ext _cacheFileExists fresh_ext _cachePath node nullish]. rewrite Hfile.
    eexists. split; [reflexivity|].
    split; [reflexivity|]. split; [reflexivity|]. split; [reflexivity|].
    split; [discriminate|].
    intros to io. apply throttleSaveRun_unchanged. reflexivity.
  - unfold startup_load, loadCache, ensureCacheFileExists, existsSync.
    cbn [ext _cacheFileExists fresh_ext _cachePath node nullish]. rewrite Hfile.
    reflexivity.
Qed.

Lemma fresh_start_witness :
  let w0 := constructed (new_PersistentHashCache no_options Node.boot) in
  exists w1,
    startup_load Crypto.sha256_hex true w0 = (None, w1)
    /\ writes (node w1) = [(".cache", "{}")]
    /\ writes (node (run Crypto.sha256_hex w1 [EElapse 5000; EFire 0 true]))
       = [(".cache", "{}")].
Proof.
  cbv zeta.
  destruct (fresh_start Crypto.sha256_hex no_options Node.boot
              (constructed (new_PersistentHashCache no_options Node.boot))
              eq_refl eq_refl) as [(w1 & Hl & _ & Hw & _) _].
  exists w1. split; [exact Hl|]. split; [exact Hw|].
  vm_compute in Hl. injection Hl as <-. vm_compute. reflexivity.
Defined.

(** ** Numbers: comparison, [Math.max] and [Math.min] *)

Import SpecFloat Number Transformer.

Lemma SFcompare_defined a b :
  is_nan a = false -> is_nan b = false -> exists c, SFcompare a b = Some c.
Proof.
  destruct a, b; simpl; intros Ha Hb; try discriminate; eexists; reflexivity.
Qed.

Lemma SFcompare_antisym a b c :
  SFcompare a b = Some c -> SFcompare b a = Some (CompOpp c).
Proof.
  destruct a as [sa|sa| |sa ma ea], b as [sb|sb| |sb mb eb]; simpl;
    try discriminate; intros [= <-];
    try (destruct sa; reflexivity); try (destruct sb; reflexivity);
    try (destruct sa, sb; reflexivity).
  destruct sa, sb; try reflexivity;
    rewrite (Z.compare_antisym ea eb); destruct (ea ?= eb); simpl; try reflexivity;
    rewrite (Pos.compare_cont_antisym ma mb Eq); simpl;
    destruct (Pos.compare_cont Eq ma mb); reflexivity.
Qed.

Lemma SFleb_refl a : is_nan a = false -> SFleb a a = true.
Proof.
  unfold SFleb. destruct a as [s|s| |s m e]; simpl; intros H; try discriminate;
    try (destruct s; reflexivity).
  destruct s; rewrite Z.compare_refl, Pos.compare_cont_refl; reflexivity.
Qed.

Lemma SFltb_leb a b : SFltb a b = true -> SFleb a b = true.
Proof. unfold SFltb, SFleb. destruct (SFcompare a b) as [[| |]|]; congruence. Qed.

Lemma SFltb_flip a b : SFltb a b = true -> SFleb b a = false.
Proof.
  unfold SFltb, SFleb. destruct (SFcompare a b) as [c|] eqn:E; [|discriminate].
  rewrite (SFcompare_antisym a b c E). destruct c; simpl; congruence.
Qed.

(** Of two numbers neither larger than the other, each is at most the other. *)
Lemma SFleb_of_not_ltb a b :
  is_nan a = false -> is_nan b = false -> SFltb b a = false -> SFleb a b = true.
Proof.
  intros Ha Hb. destruct (SFcompare_defined b a Hb Ha) as [c E].
  unfold SFltb, SFleb. rewrite E, (SFcompare_antisym b a c E).
  destruct c; simpl; congruence.
Qed.

Lemma Math_max_cases a b :
  is_nan a = false -> is_nan b = false ->
  (Math_max a b = b /\ SFleb a b = true) \/ (Math_max a b = a /\ SFleb b a = true).
Proof.
  intros Ha Hb. unfold Math_max. rewrite Ha, Hb. cbn [orb].
  destruct (SFltb a b) eqn:Hab; [left; split; [reflexivity | apply SFltb_leb, Hab]|].
  destruct (SFltb b a) eqn:Hba; [right; split; [reflexivity | apply SFltb_leb, Hba]|].
  assert (H1 : SFleb a b = true) by (apply SFleb_of_not_ltb; assumption).
  assert (H2 : SFleb b a = true) by (apply SFleb_of_not_ltb; assumption).
  destruct a as [[|]| | |]; try (right; split; [reflexivity | exact H2]).
  destruct b; try (right; split; [reflexivity | exact H2]).
  left. split; [reflexivity | exact H1].
Qed.

Lemma Math_min_cases a b :
  is_nan a = false -> is_nan b = false ->
  (Math_min a b = a /\ SFleb a b = true) \/ (Math_min a b = b /\ SFleb b a = true).
Proof.
  intros Ha Hb. unfold Math_min. rewrite Ha, Hb. cbn [orb].
  destruct (SFltb a b) eqn:Hab; [left; split; [reflexivity | apply SFltb_leb, Hab]|].
  destruct (SFltb b a) eqn:Hba; [right; split; [reflexivity | apply SFltb_leb, Hba]|].
  assert (H1 : SFleb a b = true) by (apply SFleb_of_not_ltb; assumption).
  assert (H2 : SFleb b a = true) by (apply SFleb_of_not_ltb; assumption).
  destruct a as [[|]| | |]; try (left; split; [reflexivity | exact H1]).
  destruct b; try (left; split; [reflexivity | exact H1]).
  right. split; [reflexivity | exact H2].
Qed.

Lemma clamp_nan lo hi x : is_nan x = true -> Math_min (Math_max x lo) hi = NaN.
Proof. destruct x; try discriminate. reflexivity. Qed.

(** [Math.min(Math.max(x, lo), hi)] for a number [x] and bounds in order:
    [x] itself or one of the bounds, and between the bounds. *)
Lemma clamp_range lo hi x :
  is_nan x = false -> is_nan lo = false -> is_nan hi = false -> SFleb lo hi = true ->
  let r := Math_min (Math_max x lo) hi in
  is_nan r = false /\ SFleb lo r = true /\ SFleb r hi = true
  /\ (r = x \/ r = lo \/ r = hi).
Proof.
  intros Hx Hlo Hhi Hle. cbv zeta.
  destruct (Math_max_cases x lo Hx Hlo) as [[-> Hm] | [-> Hm]].
  - destruct (Math_min_cases lo hi Hlo Hhi) as [[-> _] | [-> _]].
    + repeat split; auto using SFleb_refl.
    + repeat split; auto using SFleb_refl.
  - destruct (Math_min_cases x hi Hx Hhi) as [[-> Hn] | [-> _]].
    + repeat split; auto.
    + repeat split; auto using SFleb_refl.
Qed.

(** X14. [resolveUserInputScale] returns [NaN] when [value / 100 + 1] is
    [NaN], and otherwise a number from 0 to 2: that sum itself, or the
    bound it passed.  -100 becomes 0, 0 becomes 1, 100 becomes 2; the
    infinities become 0 and 2. *)
Theorem resolveUserInputScale_range (value : number) :
  let x := add (div value (of_Z 100)) (of_Z 1) in
  let r := resolveUserInputScale value in
  (is_nan x = true -> r = NaN)
  /\ (is_nan x = false ->
      SFleb (of_Z 0) r = true /\ SFleb r (of_Z 2) = true
      /\ (r = x \/ r = of_Z 0 \/ r = of_Z 2))
  /\ resolveUserInputScale (of_Z (-100)) = of_Z 0
  /\ resolveUserInputScale (of_Z 0) = of_Z 1
  /\ resolveUserInputScale (of_Z 100) = of_Z 2
  /\ resolveUserInputScale (S754_infinity true) = of_Z 0
  /\ resolveUserInputScale (S754_infinity false) = of_Z 2
  /\ resolveUserInputScale NaN = NaN.
Proof.
  cbv zeta. split; [|split].
  - intros H. apply clamp_nan, H.
  - intros H.
    destruct (clamp_range (of_Z 0) (of_Z 2) (add (div value (of_Z 100)) (of_Z 1)) H
                eq_refl eq_refl eq_refl) as (_ & H1 & H2 & H3).
    split; [exact H1 | split; [exact H2 | exact H3]].
  - repeat split; vm_compute; reflexivity.
Qed.

(** ** The calls [transformImage] makes on [sharp] *)

Lemma between_clamp lo hi x :
  is_nan lo = false -> is_nan hi = false -> SFleb lo hi = true ->
  between lo hi (Math_min (Math_max x lo) hi).
Proof.
  intros Hlo Hhi Hle. unfold between. destruct (is_nan x) eqn:Hx.
  - left. rewrite (clamp_nan lo hi x Hx). reflexivity.
  - right. destruct (clamp_range lo hi x Hx Hlo Hhi Hle) as (_ & H1 & H2 & _).
    split; assumption.
Qed.

Lemma scale_between v : between (of_Z 0) (of_Z 2) (resolveUserInputScale v).
Proof. apply between_clamp; reflexivity. Qed.

(** A number that is at least 0 and is not 0 is above 0. *)
Lemma above_zero r :
  SFleb (of_Z 0) r = true -> strict_neq r (of_Z 0) = true -> SFltb (of_Z 0) r = true.
Proof.
  unfold strict_neq, SFeqb, SFleb, SFltb. intros Hle Hne.
  destruct (SFcompare (of_Z 0) r) as [c|] eqn:E; [|discriminate].
  rewrite (SFcompare_antisym _ _ c E) in Hne.
  destruct c; simpl in *; congruence.
Qed.

Lemma SFcompare_Eq_finite a s m e :
  SFcompare a (S754_finite s m e) = Some Eq -> a = S754_finite s m e.
Proof.
  destruct a as [sa|sa| |sa ma ea]; simpl; try discriminate.
  - destruct s; discriminate.
  - destruct sa; discriminate.
  - destruct sa, s; try discriminate; destruct (ea ?= e) eqn:He; try discriminate;
      apply Z.compare_eq in He; subst ea; intros [= Hm].
    + apply (f_equal CompOpp) in Hm. rewrite CompOpp_involutive in Hm. simpl in Hm.
      apply Pos.compare_eq in Hm. subst ma. reflexivity.
    + apply Pos.compare_eq in Hm. subst ma. reflexivity.
Qed.

Lemma SFleb_antisym_finite a s m e :
  SFleb a (S754_finite s m e) = true -> SFleb (S754_finite s m e) a = true ->
  a = S754_finite s m e.
Proof.
  unfold SFleb. intros H1 H2.
  destruct (SFcompare a (S754_finite s m e)) as [c|] eqn:E; [|discriminate].
  rewrite (SFcompare_antisym _ _ c E) in H2.
  destruct c; simpl in *; try discriminate.
  apply SFcompare_Eq_finite, E.
Qed.

(** At or above a bound above zero, [Math.min(Math.max(x, 0), bound)] is
    the bound. *)
Lemma clamp_at_top m e x :
  SFleb (S754_finite false m e) x = true ->
  Math_min (Math_max x (S754_zero false)) (S754_finite false m e) = S754_finite false m e.
Proof.
  intros H. destruct x as [sx|[|]| |[|] mx ex]; try discriminate; try reflexivity.
  assert (Hmax : Math_max (S754_finite false mx ex) (S754_zero false)
                 = S754_finite false mx ex) by reflexivity.
  rewrite Hmax.
  destruct (Math_min_cases (S754_finite false mx ex) (S754_finite false m e) eq_refl eq_refl)
    as [[Hmin Hle] | [Hmin _]]; rewrite Hmin; [|reflexivity].
  apply SFleb_antisym_finite; assumption.
Qed.

Section Calls.
Context {Dim : Type}.
Variable P : Op Dim -> Prop.

Lemma Forall_call op (t : Sharp Dim) :
  Forall P (calls t) -> P op -> Forall P (calls (call op t)).
Proof.
  intros Ht Hop. unfold call. cbn [calls]. apply Forall_app. split; [exact Ht|].
  constructor; [exact Hop | constructor].
Qed.

Lemma Forall_call_if (c : bool) op (t : Sharp Dim) :
  Forall P (calls t) -> (c = true -> P op) ->
  Forall P (calls (if c then call op t else t)).
Proof.
  intros Ht Hop. destruct c; [apply Forall_call; auto | exact Ht].
Qed.

Lemma hd_call op (t : Sharp Dim) x :
  hd_error (calls t) = Some x -> hd_error (calls (call op t)) = Some x.
Proof.
  unfold call. cbn [calls]. destruct (calls t); [discriminate | intros H; exact H].
Qed.

Lemma hd_call_if (c : bool) op (t : Sharp Dim) x :
  hd_error (calls t) = Some x -> hd_error (calls (if c then call op t else t)) = Some x.
Proof. intros H. destruct c; [apply hd_call, H | exact H]. Qed.

Lemma made_from_call_if (c : bool) op (t : Sharp Dim) :
  (source (if c then call op t else t), output_format (if c then call op t else t),
   output_quality (if c then call op t else t))
  = (source t, output_format t, output_quality t).
Proof. destruct c; reflexivity. Qed.
End Calls.

(** X15. Whatever the request, the [sharp] instance is made from the
    request's image and format and the resolved quality; the first call on
    it is [rotate]; the size resolved from the request is passed on only
    when there is no crop; [modulate] gets three numbers from 0 to 2 (or
    [NaN]) and [blur] a number above 0 and at most 100 (or [NaN]);
    [linear] gets the same number twice; [recomb] is not called for a
    sepia of 0 or less, and for one of 100 or more gets the sepia matrix
    in full; and [flip], [flop], [grayscale], [trim] and [sharpen] are
    called only when asked for. *)
Theorem pipeline_calls (Dim : Type) (resolveSize : value -> ResolvedSize Dim)
        (input : TransformImageInput) :
  let t := pipeline Dim resolveSize input in
  source t = image input
  /\ output_format t = format input
  /\ output_quality t = quality (resolveSize (size input))
  /\ hd_error (calls t) = Some OpRotate
  /\ Forall (call_expected input (resolveSize (size input))) (calls t).
Proof.
  cbv zeta. unfold pipeline. cbv zeta.
  set (t0 := call OpRotate (resolveSharpTransformer Dim (image input) (format input)
                              (quality (resolveSize (size input))))).
  set (t1 := match crop input with
             | Some c =>
               match crop_x c, crop_y c with
               | Some x, Some y => call (OpExtract x y (crop_width c) (crop_height c)) t0
               | _, _ => call (OpResizeCover (crop_width c) (crop_height c)
                                             (crop_gravity input)) t0
               end
             | None => call (OpResizeInside (width (resolveSize (size input)))
                                            (height (resolveSize (size input)))) t0
             end).
  assert (Hmade : (source t1, output_format t1, output_quality t1)
                  = (image input, format input, quality (resolveSize (size input)))).
  { unfold t1. destruct (crop input) as [c|]; [|reflexivity].
    destruct (crop_x c), (crop_y c); reflexivity. }
  assert (Hhd : hd_error (calls t1) = Some OpRotate).
  { unfold t1. destruct (crop input) as [c|]; [|reflexivity].
    destruct (crop_x c), (crop_y c); reflexivity. }
  assert (Hall : Forall (call_expected input (resolveSize (size input))) (calls t1)).
  { unfold t1. destruct (crop input) as [c|] eqn:Hc.
    - destruct (crop_x c), (crop_y c); repeat constructor; cbn; congruence.
    - repeat constructor; cbn; auto. }
  clearbody t1. clear t0.
  assert (Hsplit : forall t : Sharp Dim,
             (source t, output_format t, output_quality t)
             = (image input, format input, quality (resolveSize (size input))) ->
             source t = image input /\ output_format t = format input
             /\ output_quality t = quality (resolveSize (size input))).
  { intros t [= -> -> ->]. repeat split. }
  split; [|split; [|split; [|split]]].
  1-3: apply Hsplit; rewrite !made_from_call_if; exact Hmade.
  - repeat apply hd_call_if. exact Hhd.
  - repeat (apply Forall_call_if; [|intros Hc]); try exact Hall; cbn [call_expected];
      try exact Hc; try reflexivity.
    + repeat split; apply scale_between.
    + split.
      * destruct (SFleb (sepia input) (of_Z 0)) eqn:Hle; [|reflexivity].
        change (of_Z 0) with (S754_zero false) in *.
        change (of_Z 100) with (S754_finite false 7036874417766400 (-46)) in Hc.
        destruct (sepia input) as [[|]|[|]| |[|] mx ex]; discriminate.
      * intros Htop.
        change (of_Z 0) with (S754_zero false).
        change (of_Z 100) with (S754_finite false 7036874417766400 (-46)) in *.
        rewrite (clamp_at_top _ _ _ Htop). vm_compute. reflexivity.
    + destruct (is_nan (blur input)) eqn:Hn.
      * left. rewrite (clamp_nan _ _ _ Hn). reflexivity.
      * right.
        destruct (clamp_range (of_Z 0) (of_Z 100) (blur input) Hn eq_refl eq_refl eq_refl)
          as (_ & H1 & H2 & _).
        split; [apply above_zero; assumption | exact H2].
Qed.

(** ** The cache key of a transformation *)

Lemma append_inj_prefix a c b d :
  String.length a = String.length c -> a +++ b = c +++ d -> a = c /\ b = d.
Proof.
  revert c. induction a as [|x a IH]; intros [|y c]; simpl; try discriminate.
  - intros _ H. split; [reflexivity | exact H].
  - intros [= Hl] [= -> H]. destruct (IH c Hl H) as [-> ->]. split; reflexivity.
Qed.

Lemma cacheKey_config digest number_text input w w' :
  config w' = config w ->
  cacheKey digest number_text input w' = cacheKey digest number_text input w.
Proof.
  intros H. unfold cacheKey. rewrite (computeAnyHash_config digest _ _ w' w H). reflexivity.
Qed.

(** X16. With a digest whose texts all have one length, as SHA-256 has, two
    requests with the same cache key are for the same resource and have
    the same parameter fingerprint.  The key does not depend on the image
    of the request, nor on what the cache holds. *)
Theorem cacheKey_names_resource digest number_text w :
  (forall alg enc d d',
      String.length (digest alg enc d) = String.length (digest alg enc d')) ->
  (forall i1 i2,
      cacheKey digest number_text i1 w = cacheKey digest number_text i2 w ->
      resourceId i1 = resourceId i2
      /\ computeAnyHash digest (cacheKey_parameters number_text i1) no_options w
         = computeAnyHash digest (cacheKey_parameters number_text i2) no_options w)
  /\ (forall i b, cacheKey digest number_text (with_image b i) w
                  = cacheKey digest number_text i w)
  /\ (forall i id value ttl0,
         cacheKey digest number_text i (set id value ttl0 w)
         = cacheKey digest number_text i w).
Proof.
  intros Hfixed. split; [|split].
  - intros i1 i2 H. unfold cacheKey in H.
    change ("transform:" +++ ?x) with
      (String "t" (String "r" (String "a" (String "n" (String "s" (String "f"
        (String "o" (String "r" (String "m" (String ":" x)))))))))) in H.
    injection H as H.
    assert (Hlen : String.length
                     (computeAnyHash digest (cacheKey_parameters number_text i1) no_options w)
                   = String.length
                       (computeAnyHash digest (cacheKey_parameters number_text i2) no_options w)).
    { unfold computeAnyHash, computeBufferHash. apply Nat2Z.inj.
      rewrite !slice0_has_length. f_equal. f_equal. apply Hfixed. }
    pose proof (f_equal String.length H) as Htot.
    rewrite !append_length in Htot. cbn [String.length] in Htot.
    apply append_inj_prefix in H; [|lia].
    destruct H as [Hr Hh]. split; [exact Hr|]. injection Hh as Hh. exact Hh.
  - intros i b. reflexivity.
  - intros i id value ttl0. apply cacheKey_config, config_set.
Qed.

Lemma cacheKey_names_resource_witness :
  let w := constructed (new_HashCache no_options Node.boot) in
  let text := fun _ : number => EmptyString in
  let i1 := plain_request "cat.png" "image one" in
  let i2 := plain_request "cat.png" "image two" in
  cacheKey Crypto.sha256_hex text i1 w = "transform:cat.png-d3842e28979d29"
  /\ cacheKey Crypto.sha256_hex text i2 w = "transform:cat.png-d3842e28979d29"
  /\ resourceId i1 = resourceId i2.
Proof.
  cbv zeta.
  assert (Hfixed : forall alg enc d d',
             String.length (Crypto.sha256_hex alg enc d)
             = String.length (Crypto.sha256_hex alg enc d')).
  { intros alg enc d d'. rewrite !(proj1 (sha256_hex_shape _ _ _)). reflexivity. }
  assert (H1 : cacheKey Crypto.sha256_hex (fun _ => EmptyString)
                 (plain_request "cat.png" "image one")
                 (constructed (new_HashCache no_options Node.boot))
               = "transform:cat.png-d3842e28979d29") by (vm_compute; reflexivity).
  assert (H2 : cacheKey Crypto.sha256_hex (fun _ => EmptyString)
                 (plain_request "cat.png" "image two")
                 (constructed (new_HashCache no_options Node.boot))
               = "transform:cat.png-d3842e28979d29") by (vm_compute; reflexivity).
  split; [exact H1 | split; [exact H2|]].
  apply (proj1 (cacheKey_names_resource Crypto.sha256_hex (fun _ => EmptyString)
                  (constructed (new_HashCache no_options Node.boot)) Hfixed)
               (plain_request "cat.png" "image one") (plain_request "cat.png" "image two")).
  rewrite H1, H2. reflexivity.
Defined.

(** ** [transformImage] and the cache *)

Lemma get_set_room id value ttl0 w :
  NoDup (keys w) -> has_room w -> get id (set id value ttl0 w) = Some value.
Proof.
  intros Hnd [Hnone | (N & HN & H1 & Hsz)].
  - apply get_after_set, Hnone.
  - apply (get_set_fits id value ttl0 w N); assumption.
Qed.

(** ** What the load does to entries already set *)

Lemma parse_elements_array fuel : forall s acc x r,
  parse_elements fuel s acc = Parsed x r -> exists items, x = JArray items.
Proof.
  induction fuel as [|f IH]; intros s acc x r; [discriminate|].
  cbn [parse_elements].
  destruct (parse_value f s) as [y r1| |]; try discriminate.
  destruct (skip_ws r1) as [|c r2]; [discriminate|].
  destruct (Ascii.eqb c ","); [apply IH|].
  destruct (Ascii.eqb c "]"); [|discriminate].
  intros [= <- _]. eexists. reflexivity.
Qed.

Lemma parse_members_NoDup fuel : forall s acc x r,
  NoDup (Map_keys acc) -> parse_members fuel s acc = Parsed x r ->
  exists props, x = JObject props /\ NoDup (Map_keys props).
Proof.
  induction fuel as [|f IH]; intros s acc x r Hnd; [discriminate|].
  cbn [parse_members].
  destruct (skip_ws s) as [|c t]; [discriminate|].
  destruct (Ascii.eqb c dq); [|discriminate].
  destruct (parse_chars t) as [[k r1]|]; [|discriminate].
  destruct (skip_ws r1) as [|c1 r2]; [discriminate|].
  destruct (Ascii.eqb c1 ":"); [|discriminate].
  destruct (parse_value f r2) as [y r3| |]; try discriminate.
  cbv zeta.
  destruct (skip_ws r3) as [|c3 r4]; [discriminate|].
  destruct (Ascii.eqb c3 ",").
  - apply IH. apply prop_set_NoDup, Hnd.
  - destruct (Ascii.eqb c3 "}"); [|discriminate].
    intros [= <- _]. eexists. split; [reflexivity | apply prop_set_NoDup, Hnd].
Qed.

Lemma parse_number_not_object s x r props :
  parse_number s = Some (x, r) -> x <> JObject props.
Proof.
  unfold parse_number. destruct (take_sign s) as [sign s1].
  destruct (take_int s1) as [[int s2]|]; [|discriminate].
  destruct (take_frac s2) as [[fr s3]|]; [|discriminate].
  destruct (take_exp s3) as [[ex s4]|]; [|discriminate].
  destruct fr, ex; try (intros [= <- _]; discriminate).
  destruct (_ <=? _); intros [= <- _]; discriminate.
Qed.

(** An object [JSON.parse] returns lists no key twice. *)
Lemma JSON_parse_object_NoDup data props :
  JSON_parse data = Some (JObject props) -> NoDup (Map_keys props).
Proof.
  unfold JSON_parse. generalize (parse_fuel data). intros fuel.
  destruct (parse_value fuel data) as [x rest| |] eqn:Hp; try discriminate.
  destruct (skip_ws rest); [|discriminate]. intros [= ->].
  destruct fuel as [|f]; [discriminate|]. cbn [parse_value] in Hp.
  destruct (skip_ws data) as [|c t]; [discriminate|].
  destruct (Ascii.eqb c "{").
  { destruct (skip_ws t) as [|c' t']; [discriminate|].
    destruct (Ascii.eqb c' "}"); [injection Hp as <- _; constructor|].
    apply parse_members_NoDup in Hp as (props' & [= ->] & Hnd); [exact Hnd | constructor]. }
  destruct (Ascii.eqb c "[").
  { destruct (skip_ws t) as [|c' t']; [discriminate|].
    destruct (Ascii.eqb c' "]"); [discriminate|].
    apply parse_elements_array in Hp as [items Hp]. discriminate. }
  destruct (Ascii.eqb c dq); [destruct (parse_chars t) as [[? ?]|]; discriminate|].
  destruct (Ascii.eqb c "t");
    [apply of_option_parsed in Hp; destruct (strip_prefix "rue" t); discriminate|].
  destruct (Ascii.eqb c "f");
    [apply of_option_parsed in Hp; destruct (strip_prefix "alse" t); discriminate|].
  destruct (Ascii.eqb c "n");
    [apply of_option_parsed in Hp; destruct (strip_prefix "ull" t); discriminate|].
  apply of_option_parsed in Hp. exfalso.
  apply (parse_number_not_object _ _ _ props Hp). reflexivity.
Qed.

Lemma text_entries_keys_incl es k :
  In k (Map_keys (text_entries es)) -> In k (Map_keys es).
Proof.
  induction es as [|[k0 x0] es IH]; [intros []|]. cbn [text_entries].
  destruct (is_string x0); cbn [Map_keys map fst]; [intros [-> | H] | intros H].
  - left. reflexivity.
  - right. apply IH, H.
  - right. apply IH, H.
Qed.

Lemma text_entries_NoDup es : NoDup (Map_keys es) -> NoDup (Map_keys (text_entries es)).
Proof.
  induction es as [|[k0 x0] es IH]; intros Hnd; [constructor|].
  cbn [Map_keys map fst] in Hnd. inversion Hnd as [|? ? Hna Hnd']; subst.
  cbn [text_entries]. destruct (is_string x0); [|apply IH, Hnd'].
  cbn [Map_keys map fst]. constructor; [|apply IH, Hnd'].
  intros H. apply Hna. apply text_entries_keys_incl, H.
Qed.

Lemma text_entries_get es k :
  NoDup (Map_keys es) ->
  Map_get k (text_entries es) =
  match Map_get k es with
  | Some (JString v) => Some v
  | _ => None
  end.
Proof.
  induction es as [|[k0 x0] es IH]; intros Hnd; [reflexivity|].
  cbn [Map_keys map fst] in Hnd. inversion Hnd as [|? ? Hna Hnd']; subst.
  cbn [text_entries Map_get]. destruct (String.eqb k k0) eqn:He.
  - apply String.eqb_eq in He. subst k0.
    destruct x0; cbn [is_string Map_get]; rewrite ?String.eqb_refl; try reflexivity;
      apply Map_get_absent; intros H; apply Hna, text_entries_keys_incl, H.
  - destruct (is_string x0); cbn [Map_get]; rewrite ?He; apply IH, Hnd'.
Qed.

(** ** The order of the entries across a restart *)

Lemma props_plain {V : Type} (es : list (string * V)) : forall acc,
  (forall k, In k (Map_keys es) -> array_index k = None) ->
  NoDup (Map_keys (acc ++ es)) ->
  fold_left (fun o kv => prop_set (fst kv) (snd kv) o) es acc = acc ++ es.
Proof.
  induction es as [|[k v] es IH]; intros acc Hplain Hnd; cbn [fold_left].
  - rewrite app_nil_r. reflexivity.
  - assert (Hk : Map_has k acc = false).
    { apply Map_has_false. intros Hin. unfold Map_keys in Hnd. rewrite map_app in Hnd.
      apply NoDup_remove_2 in Hnd. apply Hnd, in_or_app. left. exact Hin. }
    cbn [fst snd]. unfold prop_set at 2. rewrite Hk, (Hplain k (or_introl eq_refl)).
    rewrite IH.
    + rewrite <- app_assoc. reflexivity.
    + intros k' Hk'. apply Hplain. right. exact Hk'.
    + rewrite <- app_assoc. exact Hnd.
Qed.

Lemma Map_set_all_plain (es : list (string * string)) : forall acc,
  NoDup (Map_keys (acc ++ es)) -> Map_set_all es acc = acc ++ es.
Proof.
  unfold Map_set_all.
  induction es as [|[k v] es IH]; intros acc Hnd; cbn [fold_left].
  - rewrite app_nil_r. reflexivity.
  - assert (Hk : Map_has k acc = false).
    { apply Map_has_false. intros Hin. unfold Map_keys in Hnd. rewrite map_app in Hnd.
      apply NoDup_remove_2 in Hnd. apply Hnd, in_or_app. left. exact Hin. }
    cbn [fst snd]. unfold Map_set at 2. rewrite Hk, IH.
    + rewrite <- app_assoc. reflexivity.
    + rewrite <- app_assoc. exact Hnd.
Qed.

(** ** [set] then [delete] *)

Lemma reachable_present digest w : reachable digest w -> records_present w.
Proof.
  intros (options & n & w0 & evs & Hn & Hnew & ->).
  assert (Hinv : wf (run digest w0 evs) /\ records_present (run digest w0 evs)).
  { apply (run_invariant digest (fun w => wf w /\ records_present w)).
    - intros w ev [Hw Hp]. split; [apply (wf_step digest), Hw | apply present_step; assumption].
    - assert (He : expiryMap (self w0) = []).
      { unfold new_PersistentHashCache, new_HashCache in Hnew.
        destruct (_ <=? 0); [destruct Hnew; discriminate|].
        destruct Hnew as [[= <-]|[= <-]]; reflexivity. }
      split.
      + apply (reachable_wf digest). exists options, n, w0, []. auto.
      + unfold records_present. rewrite He. intros k []. }
  apply Hinv.
Qed.

Lemma Map_remove_missing {V} k (m : Map V) : Map_has k m = false -> Map_remove k m = m.
Proof.
  unfold Map_has. induction m as [|[k0 v0] m IH]; [reflexivity|]. simpl.
  destruct (String.eqb k k0); [discriminate|]. intros H. rewrite IH; [reflexivity | exact H].
Qed.

Lemma Map_remove_set_new {V} k (v : V) (m : Map V) :
  Map_has k m = false -> Map_remove k (Map_set k v m) = m.
Proof.
  intros H. unfold Map_set. rewrite H. revert H. unfold Map_has.
  induction m as [|[k0 v0] m IH]; simpl.
  - rewrite String.eqb_refl. reflexivity.
  - destruct (String.eqb k k0); [discriminate|]. intros H. rewrite IH; [reflexivity | exact H].
Qed.

(** X20. In a reachable state, [set] of a key the store does not hold,
    with room for it, followed by [delete] of that key leaves the store
    and the expiry records as they were, so that a save run after it
    writes nothing if the store was saved before; but the timer [set]
    armed stays armed. *)
Theorem set_delete_round_trip digest w k v ttl0 :
  reachable digest w ->
  has k w = false ->
  match maxEntries (self w) with Some N => Cache.size w < N | None => True end ->
  let w' := snd (delete k (set k v ttl0 w)) in
  _cache (self w') = _cache (self w)
  /\ expiryMap (self w') = expiryMap (self w)
  /\ (forall d, effective_ttl ttl0 w = Some d -> In (new_expiry k d w) (timers (node w')))
  /\ (_cacheHash (ext w) = Some (computeAnyHash digest (snapshot w) no_options w) ->
      forall to io, node (throttleSaveRun digest to io w') = node w').
Proof.
  intros Hr Hk Hroom w'.
  pose proof (reachable_present digest w Hr) as Hp.
  assert (Hcache : _cache (self w') = _cache (self w)).
  { unfold w'. rewrite cache_delete, cache_after_set. cbv zeta.
    assert (Hins : Map_size (Map_set k v (_cache (self w))) = Cache.size w + 1).
    { rewrite Map_set_size. unfold has in Hk. rewrite Hk. reflexivity. }
    destruct (maxEntries (self w)) as [N|].
    - rewrite Hins. replace (N <? Cache.size w + 1) with false
        by (symmetry; apply Z.ltb_ge; lia).
      apply Map_remove_set_new, Hk.
    - apply Map_remove_set_new, Hk. }
  assert (Hrec : Map_has k (expiryMap (self w)) = false).
  { apply Map_has_false. intros Hin. apply Hp in Hin. apply Map_has_keys in Hin.
    unfold has in Hk. congruence. }
  split; [exact Hcache | split; [|split]].
  - unfold w'. rewrite expiryMap_delete, set_stages. cbv zeta.
    set (a := armed k (Some (nullish ttl0 (ttl (self w)))) (inserted k v w)).
    assert (He : evicted a = a).
    { unfold evicted, hasMaxEntries. unfold a at 1 2.
      rewrite maxEntries_armed, cache_armed. cbn [inserted with_cache with_self self maxEntries _cache].
      destruct (maxEntries (self w)) as [N|]; [|reflexivity].
      rewrite Map_set_size. unfold has in Hk. rewrite Hk.
      replace (N <=? Map_size (_cache (self w)) + 1 + -1) with false
        by (symmetry; apply Z.leb_gt; unfold Cache.size in Hroom; lia).
      reflexivity. }
    assert (Hself : forall x, self (match class_of w with
                                    | CHashCache => x
                                    | CPersistentHashCache =>
                                      throttleSaveCache None (throttleSaveCache None x)
                                    end) = self x).
    { intros x. destruct (class_of w); [reflexivity | rewrite !self_throttle; reflexivity]. }
    rewrite Hself, He. unfold a, armed.
    destruct (effective_ttl _ _); [|apply Map_remove_missing, Hrec].
    cbn [inserted with_cache with_self self expiryMap].
    destruct (Map_get k (expiryMap (self w))); apply Map_remove_set_new, Hrec.
  - intros d Hd. unfold w'. apply timers_delete.
    assert (H : In (new_expiry k d w) (expiry_timers k (set k v ttl0 w))).
    { rewrite expiry_timers_set, Hd. apply in_or_app. right. left. reflexivity. }
    unfold expiry_timers in H. apply filter_In in H. apply H.
  - intros Hsaved to io. apply throttleSaveRun_unchanged.
    assert (Hd : durable w' = durable w).
    { unfold w'. rewrite durable_delete, durable_set. reflexivity. }
    assert (Hc : config w' = config w).
    { unfold w'. rewrite config_delete, config_set. reflexivity. }
    rewrite (durable_cacheHash _ _ Hd), Hsaved. f_equal.
    unfold snapshot. rewrite Hcache. apply computeAnyHash_config. symmetry. exact Hc.
Qed.

Lemma set_delete_round_trip_witness :
  let w := run Crypto.sha256_hex (constructed (new_HashCache no_options Node.boot))
               [ESet "a" "1" None] in
  let w' := snd (delete "b" (set "b" "2" None w)) in
  Views.entries w' = [("a", "1")]
  /\ expiryMap (self w') = expiryMap (self w)
  /\ In (mkTimeout 1 3600000 (CbExpire "b")) (timers (node w')).
Proof.
  cbv zeta.
  set (w := run _ _ _).
  assert (Hr : reachable Crypto.sha256_hex w).
  { exists no_options, Node.boot, (constructed (new_HashCache no_options Node.boot)),
           [ESet "a" "1" None].
    split; [reflexivity | split; [left; reflexivity | reflexivity]]. }
  assert (Hk : has "b" w = false) by (vm_compute; reflexivity).
  assert (Hroom : match maxEntries (self w) with
                  | Some N => Cache.size w < N
                  | None => True
                  end) by (vm_compute; exact I).
  destruct (set_delete_round_trip Crypto.sha256_hex w "b" "2" None Hr Hk Hroom)
    as (Hc & He & Ht & _).
  split; [unfold Views.entries; rewrite Hc; vm_compute; reflexivity|].
  split; [exact He|].
  assert (Hd : effective_ttl None w = Some 3600000) by (vm_compute; reflexivity).
  apply Ht in Hd. vm_compute in Hd. vm_compute. exact Hd.
Defined.

(** ** Capacity, in both classes *)

Lemma size_set_bound N id value ttl0 w :
  maxEntries (self w) = Some N ->
  Cache.size (set id value ttl0 w) <= Z.max N (Cache.size w).
Proof.
  intros HN. unfold Cache.size. rewrite cache_after_set, HN. cbv zeta.
  pose proof (Map_set_size id value (_cache (self w))) as Hz.
  pose proof (Map_set_nonempty id value (_cache (self w))) as Hne.
  destruct (Map_has id (_cache (self w)));
    destruct (Z.ltb_spec N (Map_size (Map_set id value (_cache (self w))))); try lia;
    destruct (Map_set id value (_cache (self w))); try congruence;
    unfold Map_size in *; simpl in *; lia.
Qed.

Lemma size_step_bound_any digest N w ev :
  maxEntries (self w) = Some N -> Cache.size w <= N ->
  class_of w = CHashCache \/ is_load ev = false ->
  Cache.size (step digest w ev) <= N.
Proof.
  intros HN Hs Hc.
  destruct ev as [id val ttl0 | id | | dt | tid io | io]; cbn [step].
  - pose proof (size_set_bound N id val ttl0 w HN). lia.
  - unfold Cache.size in *. rewrite cache_delete.
    pose proof (Map_remove_size id (_cache (self w))). lia.
  - unfold Cache.size in *. rewrite cache_clear. unfold Map_size in *. simpl. lia.
  - exact Hs.
  - unfold Cache.size in *.
    destruct (cache_fire digest tid io w) as [->|[id ->]]; [exact Hs|].
    pose proof (Map_remove_size id (_cache (self w))). lia.
  - destruct Hc as [Hc | Hc]; [rewrite Hc; exact Hs | discriminate].
Qed.

Lemma run_size_bound digest N : forall evs w,
  maxEntries (self w) = Some N -> Cache.size w <= N ->
  class_of w = CHashCache \/ forallb (fun ev => negb (is_load ev)) evs = true ->
  Cache.size (run digest w evs) <= N.
Proof.
  induction evs as [|ev evs IH]; intros w HN Hs Hc; [exact Hs|].
  change (run digest w (ev :: evs)) with (run digest (step digest w ev) evs).
  apply IH.
  - rewrite (config_maxEntries _ _ (config_step digest w ev)). exact HN.
  - apply size_step_bound_any; [exact HN | exact Hs|].
    destruct Hc as [Hc | Hc]; [left; exact Hc | right].
    cbn [forallb] in Hc. apply andb_prop in Hc as [Hc _].
    apply Bool.negb_true_iff, Hc.
  - destruct Hc as [Hc | Hc].
    + left. rewrite (config_class _ _ (config_step digest w ev)). exact Hc.
    + right. cbn [forallb] in Hc. apply andb_prop in Hc as [_ Hc]. exact Hc.
Qed.

(** C3. With [maxEntries = N]: a [set] leaves the store as the insertion made
    it, less its first (oldest-inserted) entry exactly when the insertion
    left more than [N] entries, so it evicts at most one entry; [N + 1]
    distinct keys set into an empty cache leave the last [N] of them, the
    first-inserted one evicted.  A [set] returns with at most [N] entries,
    or with no more than there were before it when there were more than
    [N]; every event but a load keeps a store of at most [N] entries within
    [N]; so every state of a [HashCache] constructed with that capacity, and
    every state of a [PersistentHashCache] before its load, holds at most
    [N] entries. *)
Theorem C3_capacity_eviction (N : Z) (HN : 0 <= N) :
  (forall w id value ttl0,
     maxEntries (self w) = Some N ->
     let ins := Map_set id value (_cache (self w)) in
     _cache (self (set id value ttl0 w)) = if N <? Map_size ins then tl ins else ins)
  /\ (forall w items,
        _cache (self w) = [] -> maxEntries (self w) = Some N ->
        NoDup (map (fun it => fst (fst it)) items) ->
        Z.of_nat (List.length items) = N + 1 ->
        keys (set_all items w) = tl (map (fun it => fst (fst it)) items)
        /\ Cache.size (set_all items w) = N)
  /\ (forall w id value ttl0,
        maxEntries (self w) = Some N ->
        Cache.size (set id value ttl0 w) <= Z.max N (Cache.size w))
  /\ (forall digest w ev,
        maxEntries (self w) = Some N -> Cache.size w <= N ->
        class_of w = CHashCache \/ is_load ev = false ->
        Cache.size (step digest w ev) <= N)
  /\ (forall digest options n w0 evs,
        new_HashCache options n = Ok w0
        \/ (new_PersistentHashCache options n = Ok w0
            /\ forallb (fun ev => negb (is_load ev)) evs = true) ->
        maxEntries (self w0) = Some N ->
        Cache.size (run digest w0 evs) <= N).
Proof.
  split; [|split; [|split; [|split]]].
  - intros w id value ttl0 Hm. cbv zeta. rewrite cache_after_set, Hm. reflexivity.
  - intros w items Hempty Hm Hnd Hlen.
    assert (Hkeys : keys (set_all items w) = tl (map (fun it => fst (fst it)) items)).
    { destruct (exists_last (l := items)) as (init & [[k v] t] & ->).
      { intros ->. simpl in Hlen. lia. }
      rewrite set_all_app. simpl.
      rewrite map_app in Hnd. simpl in Hnd. rewrite length_app in Hlen. simpl in Hlen.
      assert (Hinit : keys (set_all init w) = map (fun it => fst (fst it)) init).
      { rewrite (set_all_fill N).
        - unfold keys. rewrite Hempty. reflexivity.
        - exact Hm.
        - unfold keys. rewrite Hempty. simpl. apply NoDup_app_remove_r in Hnd. exact Hnd.
        - unfold keys. rewrite Hempty. simpl. lia. }
      rewrite keys_after_set, (config_maxEntries _ _ (config_set_all init w)), Hm.
      cbv zeta.
      assert (Hh : has k (set_all init w) = false).
      { apply Map_has_false. fold (keys (set_all init w)). rewrite Hinit.
        intros Hin. apply NoDup_remove_2 in Hnd. apply Hnd. rewrite app_nil_r. exact Hin. }
      rewrite Hh, Hinit, map_app, length_app, length_map. simpl.
      destruct (Z.ltb_spec N (Z.of_nat (List.length init + 1))); [reflexivity | lia]. }
    split; [exact Hkeys|].
    rewrite size_keys, Hkeys. destruct items; simpl in *; [lia|].
    rewrite length_map. lia.
  - intros w id value ttl0 Hm. apply size_set_bound, Hm.
  - intros digest w ev. apply size_step_bound_any.
  - intros digest options n w0 evs Hnew Hm. apply run_size_bound; [exact Hm | |].
    + assert (Hempty : _cache (self w0) = []).
      { unfold new_PersistentHashCache, new_HashCache in Hnew.
        destruct (_ <=? 0); [destruct Hnew as [Hnew | [Hnew _]]; discriminate|].
        destruct Hnew as [[= <-] | [[= <-] _]]; reflexivity. }
      unfold Cache.size. rewrite Hempty. unfold Map_size. simpl. exact HN.
    + destruct Hnew as [Hnew | [_ Hevs]]; [left | right; exact Hevs].
      unfold new_HashCache in Hnew. destruct (_ <=? 0); [discriminate|].
      injection Hnew as <-. reflexivity.
Qed.

(** C3 at [maxEntries = 2], on a [HashCache] and on a [PersistentHashCache]
    that has not loaded. *)
Lemma C3_capacity_eviction_witness :
  let options := mkOptions None None None None (Some (Some 2)) in
  let w := constructed (new_HashCache options Node.boot) in
  let p := constructed (new_PersistentHashCache options Node.boot) in
  let items := [("a", "1", None); ("b", "2", None); ("c", "3", Some (Some 50))] in
  0 <= 2
  /\ (keys (set_all items w) = ["b"; "c"] /\ Cache.size (set_all items w) = 2)
  /\ Cache.size (run Crypto.sha256_hex w
                   [ESet "a" "1" None; ESet "b" "2" None; ESet "a" "0" None; ESet "c" "3" None])
     <= 2
  /\ Cache.size (run Crypto.sha256_hex p
                   [ESet "a" "1" None; ESet "b" "2" None; EDelete "a"; ESet "c" "3" None;
                    ESet "d" "4" None]) <= 2.
Proof.
  cbv zeta.
  assert (H0 : 0 <= 2) by lia.
  destruct (C3_capacity_eviction 2 H0) as (_ & H2 & _ & _ & H5).
  split; [exact H0 | split; [|split]].
  - apply (H2 (constructed (new_HashCache (mkOptions None None None None (Some (Some 2)))
                                          Node.boot))
              [("a", "1", None); ("b", "2", None); ("c", "3", Some (Some 50))]).
    + reflexivity.
    + reflexivity.
    + repeat constructor; simpl; intuition discriminate.
    + reflexivity.
  - apply (H5 Crypto.sha256_hex (mkOptions None None None None (Some (Some 2))) Node.boot).
    + left. reflexivity.
    + reflexivity.
  - apply (H5 Crypto.sha256_hex (mkOptions None None None None (Some (Some 2))) Node.boot).
    + right. split; reflexivity.
    + reflexivity.
Defined.

(** C3 as the specification states it fails: a [PersistentHashCache] with
    [maxEntries = 1] whose file holds three entries has three after its
    load, and a [set] of a fourth key returns with three. *)
Lemma C3_load_exceeds_capacity :
  let file := JSON_stringify (JObject [("a", JString "1"); ("b", JString "2");
                                       ("c", JString "3")]) in
  let w0 := constructed (new_PersistentHashCache
                           (mkOptions None None None None (Some (Some 1)))
                           (Node.boot_with ".cache" file)) in
  let w1 := run Crypto.sha256_hex w0 [ELoad true] in
  let w2 := set "d" "4" None w1 in
  maxEntries (self w1) = Some 1
  /\ keys w1 = ["a"; "b"; "c"]
  /\ keys w2 = ["b"; "c"; "d"]
  /\ Cache.size w2 = 3
  /\ ~ Cache.size w2 <= 1.
Proof. cbv zeta. vm_compute. repeat split. intros H. apply H. reflexivity. Qed.

(** ** The debounced save, over an interval *)

Lemma writes_clearTimeouts (rs : Map ExpiryRecord) : forall w,
  writes (node (fold_left (fun acc kv => clearTimeout (timeout (snd kv)) acc) rs w))
  = writes (node w).
Proof.
  induction rs as [|r rs IH]; intros w; simpl; [reflexivity | rewrite IH; reflexivity].
Qed.

Lemma writes_HashCache_clear w : writes (node (HashCache_clear w)) = writes (node w).
Proof.
  unfold HashCache_clear. cbv zeta.
  change (node (with_expiryMap [] ?x)) with (node x).
  rewrite writes_clearTimeouts. reflexivity.
Qed.

Lemma writes_clear w : writes (node (clear w)) = writes (node w).
Proof.
  unfold clear. destruct (class_of w); rewrite ?writes_throttle; apply writes_HashCache_clear.
Qed.

Lemma writes_armed id ttl0 w : writes (node (armed id ttl0 w)) = writes (node w).
Proof.
  unfold armed. destruct (effective_ttl ttl0 w); [|reflexivity].
  destruct (Map_get id (expiryMap (self w))); reflexivity.
Qed.

Lemma writes_evicted w : writes (node (evicted w)) = writes (node w).
Proof.
  unfold evicted. destruct (hasMaxEntries (-1) w); [|reflexivity].
  destruct (Map_first_key (_cache (self w))); [apply writes_delete | reflexivity].
Qed.

Lemma writes_set id value ttl0 w : writes (node (set id value ttl0 w)) = writes (node w).
Proof.
  rewrite set_stages. cbv zeta.
  destruct (class_of w); rewrite ?writes_throttle, writes_evicted, writes_armed; reflexivity.
Qed.

Lemma reachable_step digest w ev : reachable digest w -> reachable digest (step digest w ev).
Proof.
  intros (options & n & w0 & evs & Hn & Hnew & ->).
  exists options, n, w0, (evs ++ [ev]). split; [exact Hn | split; [exact Hnew|]].
  unfold run. rewrite fold_left_app. reflexivity.
Qed.

Lemma reachable_run digest evs : forall w,
  reachable digest w -> reachable digest (run digest w evs).
Proof.
  induction evs as [|ev evs IH]; intros w Hr; [exact Hr|].
  apply (IH (step digest w ev)), reachable_step, Hr.
Qed.

(** Cancelling a timer that is not the save leaves the scheduled save. *)
Lemma kept_cancel_other tid tm w :
  wf w -> find_timer tid (node w) = Some tm -> is_save tm = false ->
  scheduled_kept w (clearTimeout tid w).
Proof.
  intros Hwf Hf Hs. split; [|reflexivity].
  unfold save_timers. cbn [clearTimeout with_node node Node.clearTimeout timers].
  apply (filter_save_cancel (timers (node w)) tid).
  intros tm' Hin Hid.
  assert (Heq : tm' = tm).
  { apply (unique_by_id (timers (node w))).
    - apply (wf_ids _ _ _ _ _ Hwf).
    - exact Hin.
    - apply (find_timer_In _ _ _ Hf).
    - rewrite Hid. symmetry. apply (find_timer_id _ _ _ Hf). }
  rewrite Heq. exact Hs.
Qed.

(** One event of a quiet interval writes nothing and leaves a scheduled
    save as it is. *)
Lemma quiet_step digest w ev :
  wf w -> is_load ev = false -> fires_save w ev = false ->
  writes (node (step digest w ev)) = writes (node w)
  /\ (forall t, _throttleSaveCacheTimeout (ext w) = Some t ->
                scheduled_kept w (step digest w ev)).
Proof.
  intros Hwf Hl Hs.
  destruct ev as [id val ttl0 | id | | dt | tid io | io]; try discriminate.
  - split; [apply writes_set|].
    intros t Ht. apply (kept_mutation digest w (ESet id val ttl0) t Hwf eq_refl Ht).
  - split; [apply writes_delete|].
    intros t Ht. apply (kept_mutation digest w (EDelete id) t Hwf eq_refl Ht).
  - split; [apply writes_clear|].
    intros t Ht. apply (kept_mutation digest w EClear t Hwf eq_refl Ht).
  - split; [reflexivity | intros t _; split; reflexivity].
  - cbn [step fires_save] in *. unfold fire.
    destruct (find_timer tid (node w)) as [tm|] eqn:Hf;
      [|split; [reflexivity | intros t _; split; reflexivity]].
    destruct (tm_due tm <=? now (node w));
      [|split; [reflexivity | intros t _; split; reflexivity]].
    unfold is_save in Hs.
    destruct (tm_cb tm) as [k|to] eqn:Hcb; [|discriminate].
    cbn [run_callback]. split; [rewrite writes_delete; reflexivity|].
    intros t Ht.
    assert (Hk : scheduled_kept w (clearTimeout tid w)).
    { apply (kept_cancel_other tid tm); [exact Hwf | exact Hf|].
      unfold is_save. rewrite Hcb. reflexivity. }
    eapply kept_trans; [exact Hk|].
    apply (kept_delete _ _ t). destruct Hk as [_ ->]. exact Ht.
Qed.

Lemma quiet_run digest : forall evs w,
  reachable digest w -> quiet digest w evs = true ->
  writes (node (run digest w evs)) = writes (node w)
  /\ (_throttleSaveCacheTimeout (ext w) <> None ->
      save_timers (run digest w evs) = save_timers w
      /\ _throttleSaveCacheTimeout (ext (run digest w evs))
         = _throttleSaveCacheTimeout (ext w)).
Proof.
  induction evs as [|ev evs IH]; intros w Hr Hq; [split; [reflexivity | split; reflexivity]|].
  cbn [quiet] in Hq. apply andb_prop in Hq as [Hq Hrest]. apply andb_prop in Hq as [Hl Hs].
  apply Bool.negb_true_iff in Hl. apply Bool.negb_true_iff in Hs.
  destruct (quiet_step digest w ev (reachable_wf digest w Hr) Hl Hs) as [Hw Hk].
  destruct (IH (step digest w ev) (reachable_step digest w ev Hr) Hrest) as [Hw' Hk'].
  change (run digest w (ev :: evs)) with (run digest (step digest w ev) evs).
  split; [rewrite Hw', Hw; reflexivity|].
  intros Hth. destruct (_throttleSaveCacheTimeout (ext w)) as [t|] eqn:Ht; [|congruence].
  destruct (Hk t eq_refl) as [Hs1 Ht1].
  destruct Hk' as [Hs2 Ht2]; [rewrite Ht1, Ht; discriminate|].
  split; [rewrite Hs2, Hs1; reflexivity | rewrite Ht2, Ht1, Ht; reflexivity].
Qed.

(** What a save run adds to the writes done. *)
Lemma save_run_adds digest to io w :
  exists l,
    writes (node (throttleSaveRun digest (Some to) io w)) = writes (node w) ++ l
    /\ save_writes w to l.
Proof.
  unfold throttleSaveRun, save_writes. cbn [nullish].
  destruct (match _cacheHash (ext w) with
            | Some h => String.eqb (computeAnyHash digest (snapshot w) no_options w) h
            | None => false
            end).
  { exists []. split; [rewrite app_nil_r; reflexivity | left; reflexivity]. }
  unfold saveCache, ensureCacheFileExists. cbn [nullish].
  cbn [ext with_cacheHash with_ext _cacheFileExists _cachePath node].
  destruct (_cacheFileExists (ext w)) eqn:Hflag.
  { destruct io.
    - exists [(to, JSON_stringify (snapshot w))]. split; [reflexivity | right; left; reflexivity].
    - exists []. split; [rewrite app_nil_r; reflexivity | left; reflexivity]. }
  unfold existsSync.
  destruct (files (node w) (_cachePath (ext w))) as [content|] eqn:Hfile.
  { destruct io.
    - exists [(to, JSON_stringify (snapshot w))]. split; [reflexivity | right; left; reflexivity].
    - exists []. split; [rewrite app_nil_r; reflexivity | left; reflexivity]. }
  destruct io.
  - exists [(_cachePath (ext w), JSON_stringify (JObject []));
            (to, JSON_stringify (snapshot w))].
    split; [cbn; rewrite <- app_assoc; reflexivity | right; right; auto].
  - exists []. split; [rewrite app_nil_r; reflexivity | left; reflexivity].
Qed.

Lemma fire_adds digest tid io w :
  exists l,
    writes (node (fire digest tid io w)) = writes (node w) ++ l
    /\ (l = []
        \/ exists tm to,
            find_timer tid (node w) = Some tm /\ tm_cb tm = CbSave to
            /\ tm_due tm <= now (node w) /\ save_writes w to l).
Proof.
  unfold fire.
  destruct (find_timer tid (node w)) as [tm|] eqn:Hf;
    [|exists []; split; [rewrite app_nil_r; reflexivity | left; reflexivity]].
  destruct (tm_due tm <=? now (node w)) eqn:Hdue;
    [|exists []; split; [rewrite app_nil_r; reflexivity | left; reflexivity]].
  apply Z.leb_le in Hdue.
  destruct (tm_cb tm) as [k|to] eqn:Hcb; cbn [run_callback].
  - exists []. split; [rewrite writes_delete, app_nil_r; reflexivity | left; reflexivity].
  - destruct (save_run_adds digest to io (clearTimeout tid w)) as (l & Hl & Hs).
    exists l. split; [exact Hl|]. right. exists tm, to. auto.
Qed.

(** The save timer firing leaves no save scheduled. *)
Lemma fire_save_unschedules digest tid io w tm :
  wf w -> find_timer tid (node w) = Some tm -> is_save tm = true ->
  tm_due tm <= now (node w) ->
  save_timers (fire digest tid io w) = []
  /\ _throttleSaveCacheTimeout (ext (fire digest tid io w)) = None.
Proof.
  intros Hwf Hf Hs Hdue. unfold fire. rewrite Hf.
  replace (tm_due tm <=? now (node w)) with true by (symmetry; apply Z.leb_le, Hdue).
  unfold is_save in Hs. destruct (tm_cb tm) as [k|to] eqn:Hcb; [discriminate|].
  cbn [run_callback]. split; [|apply throttleSaveRun_unschedules].
  unfold save_timers.
  rewrite (proj1 (timers_throttleSaveRun digest (Some to) io (clearTimeout tid w))).
  cbn [clearTimeout with_node node Node.clearTimeout timers].
  rewrite filter_filter.
  pose proof (wf_debounce _ _ _ _ _ Hwf) as Hd.
  assert (Hin : In tm (filter is_save (timers (node w)))).
  { apply filter_In. split; [apply (find_timer_In _ _ _ Hf)|].
    unfold is_save. rewrite Hcb. reflexivity. }
  destruct (_throttleSaveCacheTimeout (ext w)) as [id|].
  - destruct Hd as (due & to' & Hd). rewrite Hd in *.
    destruct Hin as [<- | []]. cbn [filter tm_id].
    rewrite <- (find_timer_id _ _ _ Hf) at 1. cbn [tm_id].
    rewrite Nat.eqb_refl. reflexivity.
  - rewrite Hd in Hin. destruct Hin.
Qed.

(** C6. In every state of a [PersistentHashCache] at most one save is
    scheduled; while one is scheduled, [set], [delete] and [clear] leave it
    as it is and schedule no other, and each of them leaves a save
    scheduled.  Over a quiet interval (calls of [set], [delete] and
    [clear], time passing, expiry timers firing) nothing is written and a
    scheduled save stays the one it was.  A timer that fires adds to the
    writes only when it is the due save timer, and then: nothing; or the
    store's whole content at that time, once; or, when the file was not
    known to exist and is not there, the empty document that creates the
    file and then the content.  The save timer firing leaves no save
    scheduled.  A save run that finds the content's fingerprint equal to
    the last one writes nothing, which is the case of a run that follows
    another with no change in between; a run on a file known to exist
    whose fingerprint differs writes the content, once.  So for an
    interval that a call of [set], [delete] or [clear] opens and that stays
    quiet until a timer fires: one save is scheduled throughout, nothing is
    written before the timer fires, and the firing writes at most the
    content, once, after the empty document when the file was not known to
    exist: at most one write when it was. *)
Theorem C6_debounced_save digest :
  (forall w, reachable digest w ->
     (List.length (save_timers w) <= 1)%nat
     /\ (_throttleSaveCacheTimeout (ext w) = None -> save_timers w = []))
  /\ (forall w ev,
         reachable digest w -> is_mutation ev = true ->
         (_throttleSaveCacheTimeout (ext w) <> None ->
          save_timers (step digest w ev) = save_timers w)
         /\ (class_of w = CPersistentHashCache ->
             _throttleSaveCacheTimeout (ext (step digest w ev)) <> None))
  /\ (forall w evs,
         reachable digest w -> quiet digest w evs = true ->
         writes (node (run digest w evs)) = writes (node w)
         /\ (_throttleSaveCacheTimeout (ext w) <> None ->
             save_timers (run digest w evs) = save_timers w))
  /\ (forall w tid io,
         exists l,
           writes (node (fire digest tid io w)) = writes (node w) ++ l
           /\ (l = []
               \/ exists tm to,
                   find_timer tid (node w) = Some tm /\ tm_cb tm = CbSave to
                   /\ tm_due tm <= now (node w) /\ save_writes w to l))
  /\ (forall w tid io tm,
         reachable digest w -> find_timer tid (node w) = Some tm -> is_save tm = true ->
         tm_due tm <= now (node w) ->
         save_timers (fire digest tid io w) = []
         /\ _throttleSaveCacheTimeout (ext (fire digest tid io w)) = None)
  /\ (forall w to io,
         _cacheHash (ext w) = Some (computeAnyHash digest (snapshot w) no_options w) ->
         node (throttleSaveRun digest to io w) = node w)
  /\ (forall w to io to' io',
         let w' := throttleSaveRun digest to io w in
         _throttleSaveCacheTimeout (ext w') = None
         /\ node (throttleSaveRun digest to' io' w') = node w')
  /\ (forall w to,
         _cacheFileExists (ext w) = true ->
         _cacheHash (ext w) <> Some (computeAnyHash digest (snapshot w) no_options w) ->
         writes (node (throttleSaveRun digest to true w)) =
         writes (node w) ++ [(nullish to (_cachePath (ext w)), JSON_stringify (snapshot w))])
  /\ (forall w ev evs tid io,
         reachable digest w -> class_of w = CPersistentHashCache ->
         is_mutation ev = true -> quiet digest w (ev :: evs) = true ->
         let w1 := run digest w (ev :: evs) in
         List.length (save_timers w1) = 1%nat
         /\ writes (node w1) = writes (node w)
         /\ exists l,
             writes (node (fire digest tid io w1)) = writes (node w) ++ l
             /\ (l = [] \/ exists to, save_writes w1 to l)
             /\ (List.length l <= 2)%nat
             /\ (_cacheFileExists (ext w1) = true -> (List.length l <= 1)%nat)).
Proof.
  split; [|split; [|split; [|split; [|split; [|split; [|split; [|split]]]]]]].
  - intros w Hr. apply reachable_wf in Hr. pose proof (wf_debounce _ _ _ _ _ Hr) as Hd.
    fold (save_timers w) in Hd. destruct (_throttleSaveCacheTimeout (ext w)).
    + destruct Hd as (due & to & ->). split; [simpl; lia | discriminate].
    + rewrite Hd. split; [simpl; lia | reflexivity].
  - intros w ev Hr Hm. apply reachable_wf in Hr. split.
    + intros Hth. destruct (_throttleSaveCacheTimeout (ext w)) as [t|] eqn:Ht; [|congruence].
      apply (kept_mutation digest w ev t Hr Hm Ht).
    + intros Hc. destruct ev as [id val t0 | id | | dt | tid io | io];
        try discriminate; simpl.
      * unfold set. rewrite Hc. apply throttle_schedules.
      * unfold delete. rewrite Hc. destruct (HashCache_delete id w). simpl.
        apply throttle_schedules.
      * unfold clear. rewrite Hc. apply throttle_schedules.
  - intros w evs Hr Hq. destruct (quiet_run digest evs w Hr Hq) as [Hw Hk].
    split; [exact Hw | intros Hth; apply (Hk Hth)].
  - intros w tid io. apply fire_adds.
  - intros w tid io tm Hr. apply fire_save_unschedules, (reachable_wf digest), Hr.
  - intros w to io. apply throttleSaveRun_unchanged.
  - intros w to io to' io'. cbv zeta. split; [apply throttleSaveRun_unschedules|].
    apply throttleSaveRun_unchanged. rewrite throttleSaveRun_cacheHash.
    destruct (throttleSaveRun_self digest to io w) as [Hs _].
    unfold snapshot. rewrite Hs. f_equal. apply computeAnyHash_config.
    symmetry. apply config_throttleSaveRun.
  - intros w to Hflag Hne. apply (throttleSaveRun_writes digest to w Hflag Hne).
  - intros w ev evs tid io Hr Hc Hm Hq w1.
    destruct (quiet_run digest (ev :: evs) w Hr Hq) as [Hw _].
    assert (Hth : _throttleSaveCacheTimeout (ext (step digest w ev)) <> None).
    { destruct ev as [id val t0 | id | | dt | tid' io' | io'];
        try discriminate; simpl.
      - unfold set. rewrite Hc. apply throttle_schedules.
      - unfold delete. rewrite Hc. destruct (HashCache_delete id w). simpl.
        apply throttle_schedules.
      - unfold clear. rewrite Hc. apply throttle_schedules. }
    assert (Hq' : quiet digest (step digest w ev) evs = true).
    { cbn [quiet] in Hq. apply andb_prop in Hq as [_ Hq]. exact Hq. }
    pose proof (reachable_step digest w ev Hr) as Hr'.
    destruct (quiet_run digest evs (step digest w ev) Hr' Hq') as [_ Hk].
    destruct (Hk Hth) as [Hsave _].
    split; [|split; [exact Hw|]].
    + change w1 with (run digest (step digest w ev) evs). rewrite Hsave.
      pose proof (wf_debounce _ _ _ _ _ (reachable_wf digest _ Hr')) as Hd.
      fold (save_timers (step digest w ev)) in Hd.
      destruct (_throttleSaveCacheTimeout (ext (step digest w ev))); [|congruence].
      destruct Hd as (due & to & ->). reflexivity.
    + destruct (fire_adds digest tid io w1) as (l & Hl & Hcase).
      exists l. fold w1 in Hw. rewrite Hw in Hl. split; [exact Hl|].
      assert (Hs : l = [] \/ exists to, save_writes w1 to l).
      { destruct Hcase as [-> | (tm & to & _ & _ & _ & Hs)];
          [left; reflexivity | right; exists to; exact Hs]. }
      split; [exact Hs|].
      destruct Hs as [-> | (to & [-> | [-> | (Hflag & _ & ->)]])]; cbn [List.length];
        (split; [lia | intros Hf; try lia]).
      rewrite Hflag in Hf. discriminate.
Qed.

(** C6 on a run: after the load and a first save run, three calls of [set]
    leave one save scheduled, due 5000 ms after the first of them; a
    [delete] on top leaves it as it is. *)
Lemma C6_debounced_save_witness :
  let w0 := constructed (new_PersistentHashCache no_options Node.boot) in
  let w1 := run Crypto.sha256_hex w0
              [ELoad true; EElapse 5000; EFire 0 true; EElapse 1000;
               ESet "a" "1" None; ESet "b" "2" None; ESet "a" "3" None] in
  ((List.length (save_timers w1) <= 1)%nat
   /\ (_throttleSaveCacheTimeout (ext w1) = None -> save_timers w1 = []))
  /\ save_timers (step Crypto.sha256_hex w1 (EDelete "b")) = save_timers w1
  /\ save_timers w1 = [mkTimeout 2 11000 (CbSave ".cache")].
Proof.
  cbv zeta.
  destruct (C6_debounced_save Crypto.sha256_hex) as (Hone & Hkept & _).
  assert (Hr : reachable Crypto.sha256_hex
                 (run Crypto.sha256_hex
                      (constructed (new_PersistentHashCache no_options Node.boot))
                      [ELoad true; EElapse 5000; EFire 0 true; EElapse 1000;
                       ESet "a" "1" None; ESet "b" "2" None; ESet "a" "3" None])).
  { exists no_options, Node.boot,
           (constructed (new_PersistentHashCache no_options Node.boot)),
           [ELoad true; EElapse 5000; EFire 0 true; EElapse 1000;
            ESet "a" "1" None; ESet "b" "2" None; ESet "a" "3" None].
    split; [reflexivity | split; [right; reflexivity | reflexivity]]. }
  split; [exact (Hone _ Hr) | split].
  - apply (Hkept _ (EDelete "b") Hr eq_refl). vm_compute. discriminate.
  - vm_compute. reflexivity.
Defined.

(** C6 as the specification states it fails: the startup load could not
    create the file, so that it is not known to exist; then one [set], and
    the one save run of the interval writes twice. *)
Lemma C6_unensured_save_writes_twice :
  let w0 := constructed (new_PersistentHashCache no_options Node.boot) in
  let w1 := run Crypto.sha256_hex w0 [ELoad false; ESet "a" "1" None; EElapse 5000] in
  let w2 := fire Crypto.sha256_hex 1 true w1 in
  writes (node w1) = []
  /\ save_timers w1 = [mkTimeout 1 5000 (CbSave ".cache")]
  /\ writes (node w2) = [(".cache", "{}"); (".cache", JSON_stringify (snapshot w1))]
  /\ List.length (writes (node w2)) = 2%nat.
Proof. cbv zeta. vm_compute. repeat split. Qed.

(** ** The durable round trip, from the run *)






(** ** Entries loaded from the file *)

(** X8. A load that completes writes no expiry record and arms no timer;
    after it, time passing and timers firing do not remove an entry whose
    key had no expiry timer pending before the load.  After the startup
    load of a freshly constructed [PersistentHashCache] no key has one: the
    entries it loaded stay, whatever the TTL, until a call removes or
    replaces them. *)
Theorem loaded_entries_stay digest :
  (forall from io w w',
      loadCache digest from io w = (None, w') ->
      expiryMap (self w') = expiryMap (self w)
      /\ timers (node w') = timers (node w)
      /\ (forall k evs,
             expiry_timers k w = [] -> forallb is_passive evs = true ->
             get k (run digest w' evs) = get k w'))
  /\ (forall options n w0 io wB,
         timers n = [] ->
         new_PersistentHashCache options n = Ok w0 ->
         startup_load digest io w0 = (None, wB) ->
         expiryMap (self wB) = []
         /\ (forall k, expiry_timers k wB = [])
         /\ (forall evs k, forallb is_passive evs = true ->
                           get k (run digest wB evs) = get k wB)).
Proof.
  split.
  - intros from io w w' Hl.
    apply loadCache_spec in Hl as (data & entries & _ & _ & _ & Hexp & Htm & _).
    split; [exact Hexp | split; [exact Htm|]].
    intros k evs Hk Hp. apply passive_run_keeps; [exact Hp|].
    unfold expiry_timers in *. rewrite Htm. exact Hk.
  - intros options n w0 io wB Ht Hnew Hload.
    assert (Hw0 : expiryMap (self w0) = [] /\ node w0 = n).
    { unfold new_PersistentHashCache, new_HashCache in Hnew.
      destruct (_ <=? 0); [discriminate|]. injection Hnew as <-. split; reflexivity. }
    destruct Hw0 as [He Hn].
    unfold startup_load in Hload.
    destruct (loadCache digest (Some (_cachePath (ext w0))) io w0) as [[e|] w1] eqn:Hl;
      [discriminate|].
    injection Hload as <-.
    apply loadCache_spec in Hl as (data & entries & _ & _ & _ & Hexp & Htm & _).
    assert (Hno : forall k,
               expiry_timers k (throttleSaveCache (Some (_cachePath (ext w0))) w1) = []).
    { intros k. rewrite expiry_timers_throttle. unfold expiry_timers.
      rewrite Htm, Hn, Ht. reflexivity. }
    split; [rewrite self_throttle, Hexp; exact He | split; [exact Hno|]].
    intros evs k Hp. apply passive_run_keeps; [exact Hp | apply Hno].
Qed.

(** A fresh instance on a one-entry file: two hours on, with the save timer
    fired in between, the entry is there.  And where [set] armed a timer for
    the key before the load finished, that timer removes the loaded entry. *)
Lemma loaded_entries_stay_witness :
  let n := Node.boot_with ".cache" (JSON_stringify (JObject [("a", JString "old")])) in
  let w0 := constructed (new_PersistentHashCache no_options n) in
  let wB := snd (startup_load Crypto.sha256_hex true w0) in
  let early := run Crypto.sha256_hex w0 [ESet "a" "new" (Some (Some 1000)); ELoad true] in
  get "a" wB = Some "old"
  /\ get "a" (run Crypto.sha256_hex wB [EElapse 3600000; EFire 0 true; EElapse 3600000])
     = Some "old"
  /\ get "a" early = Some "old"
  /\ get "a" (run Crypto.sha256_hex early [EElapse 1000; EFire 0 true]) = None.
Proof.
  cbv zeta.
  set (n := Node.boot_with _ _).
  set (w0 := constructed _).
  assert (Hl : startup_load Crypto.sha256_hex true w0
               = (None, snd (startup_load Crypto.sha256_hex true w0))).
  { vm_compute. reflexivity. }
  destruct (proj2 (loaded_entries_stay Crypto.sha256_hex) no_options n w0 true _
              eq_refl eq_refl Hl) as (_ & _ & Hstay).
  split; [vm_compute; reflexivity|].
  split; [rewrite Hstay; [vm_compute; reflexivity | reflexivity]|].
  split; vm_compute; reflexivity.
Defined.

(** ** The shape of a fingerprint, with SHA-256 in hex *)

(** X11. A fingerprint is the digest cut to the configured length: a
    prefix of the digest, whatever the digest.  When the algorithm in
    force is [sha256] and the encoding [hex], it is made of hex digits and
    has the smaller of the length and 64 of them; a length given for the
    call wins over the cache's, is not checked, and at zero gives the empty
    fingerprint, below zero the digest without its last characters. *)
Theorem fingerprint_shape (buffer : list byte) (options : Options) (w : World) :
  let L := nullish (o_length options) (length (self w)) in
  (forall digest, exists rest,
      digest (nullish (o_algorithm options) (algorithm (self w)))
             (nullish (o_encoding options) (encoding (self w))) buffer
      = computeBufferHash digest buffer options w +++ rest)
  /\ (nullish (o_algorithm options) (algorithm (self w)) = "sha256" ->
      nullish (o_encoding options) (encoding (self w)) = "hex" ->
      Z.of_nat (String.length (computeBufferHash Crypto.sha256_hex buffer options w))
      = (if L <? 0 then Z.max (64 + L) 0 else Z.min L 64)
      /\ all_chars is_hex_digit (computeBufferHash Crypto.sha256_hex buffer options w)
         = true).
Proof.
  cbv zeta. split.
  - intros digest. unfold computeBufferHash, slice0. apply substring_0_prefix.
  - intros _ _. split.
    + unfold computeBufferHash. rewrite slice0_has_length.
      rewrite (proj1 (sha256_hex_shape _ _ _)). reflexivity.
    + unfold computeBufferHash, slice0. apply all_chars_substring.
      apply (proj2 (sha256_hex_shape _ _ _)).
Qed.

Lemma fingerprint_shape_witness :
  let w := constructed (new_HashCache no_options Node.boot) in
  String.length (computeBufferHash Crypto.sha256_hex (list_byte_of_string "abc") no_options w)
  = 14%nat
  /\ String.length (computeBufferHash Crypto.sha256_hex (list_byte_of_string "abc")
                      (mkOptions None None (Some (-60)) None None) w) = 4%nat.
Proof.
  cbv zeta.
  set (w := constructed _).
  destruct (proj2 (fingerprint_shape (list_byte_of_string "abc") no_options w)
              eq_refl eq_refl) as [H1 _].
  destruct (proj2 (fingerprint_shape (list_byte_of_string "abc")
                     (mkOptions None None (Some (-60)) None None) w)
              eq_refl eq_refl) as [H2 _].
  split; apply Nat2Z.inj; [rewrite H1 | rewrite H2]; reflexivity.
Defined.

(** ** [transformImage] and the cache, with calls that can throw *)

(** X17. The transformer works on a [HashCache], whose values are
    buffers.  A request whose key the cache holds is answered from the cache,
    which is left as it was.  On a miss, when a helper or one of the calls
    on [sharp] throws, [transformImage] rejects and stores nothing.  On a
    miss where they all return, the request is answered with what [sharp]
    made of the calls, or with the empty buffer when [toBuffer] failed, and
    the answer is stored under the key; when the store has room, the same
    request made again, even with another image and whatever [sharp] would
    do now, gets that same answer from the cache: also the empty buffer of
    a failure. *)
Theorem transformImage_caches digest number_text (Dim : Type)
        (resolveSize : value -> ResolvedSize Dim) (toBuffer : Sharp Dim -> option Buffer)
        (helpers_return : TransformImageInput -> bool) (accepts : Op Dim -> bool)
        (input : TransformImageInput) (w : World) :
  reachable digest w ->
  class_of w = CHashCache ->
  has_room w ->
  let key := cacheKey digest number_text input w in
  let r := transformImage digest number_text Dim resolveSize toBuffer helpers_return accepts
                          input w in
  (forall cached, get key w = Some cached -> r = (Some cached, w))
  /\ (get key w = None ->
      helpers_return input = false
      \/ (exists op, In op (calls (pipeline Dim resolveSize input)) /\ accepts op = false) ->
      r = (None, w))
  /\ (get key w = None ->
      helpers_return input = true ->
      (forall op, In op (calls (pipeline Dim resolveSize input)) -> accepts op = true) ->
      let b := match toBuffer (pipeline Dim resolveSize input) with
               | Some b => b
               | None => Buffer_alloc0
               end in
      r = (Some b, set key b None w)
      /\ forall toBuffer' helpers' accepts' image',
          transformImage digest number_text Dim resolveSize toBuffer' helpers' accepts'
                         (with_image image' input) (snd r)
          = (Some b, snd r)).
Proof.
  intros Hr _ Hroom key r. apply (reachable_wf digest) in Hr as Hwf.
  assert (Hnd : NoDup (keys w)) by apply (wf_cache_keys _ _ _ _ _ Hwf).
  split; [|split].
  - intros cached Hget. unfold r, transformImage. cbv zeta. fold key. rewrite Hget.
    reflexivity.
  - intros Hmiss Hthrow. unfold r, transformImage. cbv zeta. fold key. rewrite Hmiss.
    destruct (helpers_return input); [|reflexivity].
    destruct Hthrow as [Hh | (op & Hin & Hop)]; [discriminate|].
    unfold refused_call.
    destruct (find (fun op => negb (accepts op)) (calls (pipeline Dim resolveSize input)))
      eqn:Hfind; [reflexivity|].
    exfalso. pose proof (find_none _ _ Hfind op Hin) as Hn. cbv beta in Hn.
    rewrite Hop in Hn. discriminate.
  - intros Hmiss Hh Hall b.
    assert (Hnone : refused_call Dim resolveSize accepts input = None).
    { unfold refused_call.
      destruct (find (fun op => negb (accepts op)) (calls (pipeline Dim resolveSize input)))
        eqn:Hfind; [|reflexivity].
      apply find_some in Hfind as [Hin Hop]. rewrite (Hall _ Hin) in Hop. discriminate. }
    assert (Hr1 : r = (Some b, set key b None w)).
    { unfold r, transformImage. cbv zeta. fold key. rewrite Hmiss, Hh, Hnone. reflexivity. }
    split; [exact Hr1|].
    intros toBuffer' helpers' accepts' image'. rewrite Hr1. cbn [snd].
    unfold transformImage. cbv zeta.
    assert (Hkey : cacheKey digest number_text (with_image image' input) (set key b None w)
                   = key).
    { unfold key. apply (cacheKey_config digest number_text input), config_set. }
    rewrite Hkey, (get_set_room key b None w Hnd Hroom). reflexivity.
Qed.

(** [toBuffer] fails on the first request: the empty buffer is cached, and a
    second request on which [sharp] would succeed still gets it. *)
Lemma transformImage_caches_witness :
  let w := constructed (new_HashCache no_options Node.boot) in
  let text := fun _ : number => EmptyString in
  let resolveSize := fun _ : value => mkResolvedSize Z 0 0 80 in
  let yes := fun _ : TransformImageInput => true in
  let all := fun _ : Op Z => true in
  let first := transformImage Crypto.sha256_hex text Z resolveSize (fun _ => None) yes all
                              (plain_request "cat.png" "image one") w in
  fst first = Some Buffer_alloc0
  /\ transformImage Crypto.sha256_hex text Z resolveSize (fun _ => Some "bytes") yes all
                    (plain_request "cat.png" "image two") (snd first)
     = (Some Buffer_alloc0, snd first)
  /\ transformImage Crypto.sha256_hex text Z resolveSize (fun _ => Some "bytes") yes
                    (fun _ => false) (plain_request "cat.png" "image one") w
     = (None, w).
Proof.
  cbv zeta.
  set (w := constructed _).
  assert (Hr : reachable Crypto.sha256_hex w).
  { exists no_options, Node.boot, w, [].
    split; [reflexivity | split; [left; reflexivity | reflexivity]]. }
  assert (Hroom : has_room w) by (left; reflexivity).
  destruct (transformImage_caches Crypto.sha256_hex (fun _ => EmptyString) Z
              (fun _ => mkResolvedSize Z 0 0 80) (fun _ => None)
              (fun _ => true) (fun _ => true)
              (plain_request "cat.png" "image one") w Hr eq_refl Hroom) as (_ & _ & Hmiss).
  destruct (Hmiss eq_refl eq_refl (fun _ _ => eq_refl)) as (Hfirst & Hagain).
  destruct (transformImage_caches Crypto.sha256_hex (fun _ => EmptyString) Z
              (fun _ => mkResolvedSize Z 0 0 80) (fun _ => Some "bytes")
              (fun _ => true) (fun _ => false)
              (plain_request "cat.png" "image one") w Hr eq_refl Hroom) as (_ & Hthrow & _).
  split; [rewrite Hfirst; reflexivity|].
  split.
  - apply (Hagain (fun _ => Some "bytes") (fun _ => true) (fun _ => true) "image two").
  - apply Hthrow; [reflexivity|]. right. exists OpRotate. split; [left; reflexivity | reflexivity].
Defined.

(** ** A load over entries set before it finished *)

(** X18. A load that finds in the file a flat object, written in ASCII
    with no [\u] escape, completes and writes each of the object's text
    entries into the store over whatever was set under that key before the
    load finished; keys the object does not hold as text keep what they
    had; and no key is taken out. *)
Theorem load_overrides digest from io w data props :
  existsSync (_cachePath (ext w)) (node w) = true ->
  readFile (nullish from (_cachePath (ext w))) (node w) = Some data ->
  plain_text data = true ->
  JSON_parse data = Some (JObject props) ->
  flat props = true ->
  exists w',
    loadCache digest from io w = (None, w')
    /\ _cache (self w') = Map_set_all (text_entries props) (_cache (self w))
    /\ (forall k v, Map_get k props = Some (JString v) -> get k w' = Some v)
    /\ (forall k, (forall v, Map_get k props <> Some (JString v)) -> get k w' = get k w)
    /\ (forall k, has k w = true -> has k w' = true).
Proof.
  intros Hex Hread _ Hparse _.
  assert (Hentries : Object_entries (parsed_or_empty data) = Some props).
  { unfold parsed_or_empty. rewrite Hparse. reflexivity. }
  destruct (loadCache_ok digest from io w data props Hex Hread Hentries)
    as (w' & Hl & Hc & _).
  pose proof (JSON_parse_object_NoDup data props Hparse) as Hnd.
  exists w'. split; [exact Hl|]. split; [exact Hc|].
  assert (Hget : forall k, get k w' =
                           match Map_get k props with
                           | Some (JString v) => Some v
                           | _ => get k w
                           end).
  { intros k. unfold get. rewrite Hc, Map_set_all_get by (apply text_entries_NoDup, Hnd).
    rewrite (text_entries_get props k Hnd).
    destruct (Map_get k props) as [[]|]; reflexivity. }
  split; [|split].
  - intros k v Hk. rewrite Hget, Hk. reflexivity.
  - intros k Hk. rewrite Hget. destruct (Map_get k props) as [[]|] eqn:E; try reflexivity.
    exfalso. apply (Hk s). reflexivity.
  - intros k Hk. unfold has in *. rewrite Hc. apply Map_has_keys, Map_set_all_keys.
    apply Map_has_keys, Hk.
Qed.

(** A value set before the load finished is replaced by the one in the
    file; a key the file holds with a number keeps what was set. *)
Lemma load_overrides_witness :
  let data := JSON_stringify (JObject [("a", JString "old"); ("n", JNumber 1)]) in
  let w0 := constructed (new_PersistentHashCache no_options (Node.boot_with ".cache" data)) in
  let w := set_all [("a", "new", None); ("n", "kept", None)] w0 in
  exists w', loadCache Crypto.sha256_hex None true w = (None, w')
             /\ get "a" w = Some "new" /\ get "a" w' = Some "old"
             /\ get "n" w' = Some "kept".
Proof.
  cbv zeta.
  set (data := JSON_stringify _).
  set (w := set_all _ _).
  destruct (load_overrides Crypto.sha256_hex None true w data
              [("a", JString "old"); ("n", JNumber 1)] eq_refl eq_refl eq_refl eq_refl eq_refl)
    as (w' & Hl & _ & Hin & Hout & _).
  exists w'. split; [exact Hl|]. split; [reflexivity|]. split.
  - apply Hin. reflexivity.
  - rewrite Hout; [reflexivity|]. intros v. vm_compute. discriminate.
Defined.

(** ** The order of the keys after a restart *)

Lemma array_index_decimal k n : array_index k = Some n -> k = decimal n.
Proof.
  unfold array_index. destruct k as [|c r]; [discriminate|].
  destruct (digits_value 0 (String c r)) as [m|]; [|discriminate].
  destruct ((m <? 2 ^ 32 - 1) && String.eqb (decimal m) (String c r)) eqn:E; [|discriminate].
  intros H. injection H as <-. apply andb_prop in E as [_ E].
  apply String.eqb_eq in E. symmetry. exact E.
Qed.

Lemma insert_index_ordered {V : Type} n k (v : V) o :
  array_index k = Some n ->
  ~ In k (Map_keys o) ->
  index_keys_first (Map_keys o) ->
  index_keys_first (Map_keys (insert_index n k v o)).
Proof.
  intros Hk. unfold Map_keys.
  induction o as [|[k2 v2] o IH]; intros Hnot Hord;
    cbn [insert_index map fst index_keys_first] in *.
  - rewrite Hk. split; [intros k' n' [] | exact I].
  - destruct Hord as [Hhead Hord].
    destruct (array_index k2) as [n2|] eqn:E2.
    + destruct (n <? n2) eqn:Hlt; cbn [map fst index_keys_first].
      * rewrite Hk, E2. split; [|split; assumption].
        intros k' n' [<- | Hin] Hi.
        -- rewrite E2 in Hi. injection Hi as <-. lia.
        -- specialize (Hhead k' n' Hin Hi). lia.
      * rewrite E2. split.
        -- intros k' n' Hin Hi.
           apply (insert_index_keys n k v o k') in Hin as [-> | Hin].
           ++ rewrite Hk in Hi. injection Hi as <-.
              assert (n <> n2).
              { intros ->. apply Hnot. left.
                rewrite (array_index_decimal _ _ Hk), (array_index_decimal _ _ E2).
                reflexivity. }
              lia.
           ++ apply (Hhead k' n' Hin Hi).
        -- apply IH; [intros H; apply Hnot; right; exact H | exact Hord].
    + cbn [map fst index_keys_first]. rewrite Hk, E2. split; [|split; assumption].
      intros k' n' [<- | Hin] Hi; [congruence|].
      rewrite (Hhead k' Hin) in Hi. discriminate.
Qed.

Lemma append_ordered k ks :
  array_index k = None -> index_keys_first ks -> index_keys_first (ks ++ [k]).
Proof.
  intros Hk. induction ks as [|k2 ks IH]; intros Hord; cbn [app index_keys_first] in *.
  - rewrite Hk. split; [intros k' [] | exact I].
  - destruct Hord as [Hhead Hord]. split; [|apply IH, Hord].
    destruct (array_index k2) as [n2|].
    + intros k' n' Hin Hi. apply in_app_iff in Hin as [Hin | [<- | []]].
      * apply (Hhead k' n' Hin Hi).
      * congruence.
    + intros k' Hin. apply in_app_iff in Hin as [Hin | [<- | []]]; [apply Hhead, Hin | exact Hk].
Qed.

Lemma prop_set_ordered {V : Type} k (v : V) o :
  index_keys_first (Map_keys o) -> index_keys_first (Map_keys (prop_set k v o)).
Proof.
  intros Hord. unfold prop_set. destruct (Map_has k o) eqn:Hh.
  - rewrite Map_keys_replace. exact Hord.
  - apply Map_has_false in Hh. destruct (array_index k) as [n|] eqn:Hk.
    + apply insert_index_ordered; assumption.
    + unfold Map_keys in *. rewrite map_app. apply append_ordered; assumption.
Qed.

Lemma props_of_entries_ordered {V : Type} (es : list (string * V)) :
  index_keys_first (Map_keys (props_of_entries es)).
Proof.
  unfold props_of_entries.
  assert (H : index_keys_first (Map_keys (@nil (string * V)))) by exact I.
  revert H. generalize (@nil (string * V)) as acc.
  induction es as [|[k v] es IH]; intros acc H; cbn [fold_left]; [exact H|].
  apply IH, prop_set_ordered, H.
Qed.

Lemma insert_index_others {V : Type} n k (v : V) o :
  array_index k = Some n ->
  filter (fun x => negb (is_index x)) (Map_keys (insert_index n k v o))
  = filter (fun x => negb (is_index x)) (Map_keys o).
Proof.
  intros Hk. unfold Map_keys.
  assert (Hni : negb (is_index k) = false) by (unfold is_index; rewrite Hk; reflexivity).
  induction o as [|[k2 v2] o IH]; cbn [insert_index map fst filter].
  - rewrite Hni. reflexivity.
  - destruct (array_index k2) as [n2|]; [destruct (n <? n2)|]; cbn [map fst filter];
      rewrite ?Hni, ?IH; reflexivity.
Qed.

Lemma prop_set_others {V : Type} k (v : V) o :
  Map_has k o = false ->
  filter (fun x => negb (is_index x)) (Map_keys (prop_set k v o))
  = filter (fun x => negb (is_index x)) (Map_keys o)
    ++ filter (fun x => negb (is_index x)) [k].
Proof.
  intros Hh. unfold prop_set. rewrite Hh. destruct (array_index k) as [n|] eqn:Hk.
  - rewrite (insert_index_others n k v o Hk). cbn [filter]. unfold is_index. rewrite Hk.
    cbn [negb]. rewrite app_nil_r. reflexivity.
  - unfold Map_keys. rewrite map_app, filter_app. reflexivity.
Qed.

Lemma prop_set_keys_In {V : Type} k (v : V) o x :
  In x (Map_keys (prop_set k v o)) -> x = k \/ In x (Map_keys o).
Proof.
  unfold prop_set. destruct (Map_has k o).
  - rewrite Map_keys_replace. auto.
  - destruct (array_index k) as [n|].
    + apply insert_index_keys.
    + unfold Map_keys. rewrite map_app, in_app_iff. cbn [map fst In].
      intros [H | [H | []]]; [right; exact H | left; symmetry; exact H].
Qed.

Lemma props_fold_others {V : Type} (es : list (string * V)) : forall acc,
  NoDup (Map_keys es) ->
  (forall k, In k (Map_keys es) -> ~ In k (Map_keys acc)) ->
  filter (fun x => negb (is_index x))
         (Map_keys (fold_left (fun o kv => prop_set (fst kv) (snd kv) o) es acc))
  = filter (fun x => negb (is_index x)) (Map_keys acc)
    ++ filter (fun x => negb (is_index x)) (Map_keys es).
Proof.
  induction es as [|[k v] es IH]; intros acc Hnd Hnew; cbn [fold_left].
  - cbn. rewrite app_nil_r. reflexivity.
  - cbn [Map_keys map fst] in Hnd, Hnew. fold (Map_keys es) in Hnd, Hnew.
    inversion Hnd as [|? ? Hk Hnd']; subst.
    rewrite IH.
    + cbn [fst snd]. rewrite prop_set_others.
      * rewrite <- app_assoc. f_equal. change (Map_keys ((k, v) :: es)) with ([k] ++ Map_keys es).
        rewrite filter_app. reflexivity.
      * apply Map_has_false, Hnew. left. reflexivity.
    + exact Hnd'.
    + intros k' Hin Hin'. cbn [fst snd] in Hin'.
      apply prop_set_keys_In in Hin' as [-> | Hin'].
      * exact (Hk Hin).
      * apply (Hnew k'); [right; exact Hin | exact Hin'].
Qed.

Lemma props_of_entries_others {V : Type} (es : list (string * V)) :
  NoDup (Map_keys es) ->
  filter (fun x => negb (is_index x)) (Map_keys (props_of_entries es))
  = filter (fun x => negb (is_index x)) (Map_keys es).
Proof.
  intros Hnd. unfold props_of_entries. rewrite props_fold_others; [reflexivity | exact Hnd|].
  intros k _ [].
Qed.

(** X19. A [PersistentHashCache] started on the file another instance
    saved completes its load and holds the same value for every key.  Its
    keys that are array indices ([0], [1], [42], ...) come first, in
    ascending order of the number, followed by the other keys in the order
    the saving instance held them; so when no key is an array index the
    entries are in the same order, and the same key is the oldest. *)
Theorem restart_keeps_order digest wS nB optionsB wB0 io :
  reachable digest wS ->
  files nB ".cache" = Some (JSON_stringify (snapshot wS)) ->
  new_PersistentHashCache optionsB nB = Ok wB0 ->
  exists wB,
    startup_load digest io wB0 = (None, wB)
    /\ (forall k, get k wB = get k wS)
    /\ index_keys_first (keys wB)
    /\ filter (fun k => negb (is_index k)) (keys wB)
       = filter (fun k => negb (is_index k)) (keys wS)
    /\ ((forall k, In k (keys wS) -> array_index k = None) ->
        Views.entries wB = Views.entries wS).
Proof.
  intros Hr Hfile Hnew.
  apply reachable_wf in Hr as Hwf.
  assert (Hnd : NoDup (keys wS)) by apply (wf_cache_keys _ _ _ _ _ Hwf).
  unfold new_PersistentHashCache, new_HashCache in Hnew.
  destruct (_ <=? 0); [discriminate|]. injection Hnew as <-.
  set (wB0 := mkWorld CPersistentHashCache _ fresh_ext nB).
  set (c := _cache (self wS)).
  set (P1 := props_of_entries c).
  set (P2 := props_of_entries P1).
  assert (Hsnap : snapshot wS = JObject (text_props P1)).
  { unfold snapshot, Object_fromEntries. rewrite props_of_entries_text. reflexivity. }
  assert (Hparse : JSON_parse (JSON_stringify (snapshot wS)) = Some (JObject (text_props P2))).
  { rewrite Hsnap, parse_stringify_text, props_of_entries_text. reflexivity. }
  assert (Hex : existsSync (_cachePath (ext wB0)) (node wB0) = true).
  { unfold existsSync. cbn. rewrite Hfile. reflexivity. }
  assert (Hentries : Object_entries (parsed_or_empty (JSON_stringify (snapshot wS)))
                     = Some (text_props P2)).
  { unfold parsed_or_empty. rewrite Hparse. reflexivity. }
  destruct (loadCache_ok digest (Some ".cache") io wB0 (JSON_stringify (snapshot wS))
              (text_props P2) Hex Hfile Hentries)
    as (w' & Hl & Hc & _).
  assert (Hc' : _cache (self (throttleSaveCache (Some ".cache") w')) = P2).
  { rewrite self_throttle, Hc, text_entries_text.
    apply (Map_set_all_plain P2 []). cbn [app]. apply props_of_entries_NoDup. }
  exists (throttleSaveCache (Some ".cache") w').
  split; [|split; [|split; [|split]]].
  - unfold startup_load. change (_cachePath (ext wB0)) with ".cache". rewrite Hl.
    reflexivity.
  - intros k. unfold get. rewrite Hc'. unfold P2, P1.
    rewrite props_of_entries_get by apply props_of_entries_NoDup.
    apply props_of_entries_get, Hnd.
  - unfold keys. rewrite Hc'. apply props_of_entries_ordered.
  - unfold keys. rewrite Hc'. unfold P2, P1.
    rewrite props_of_entries_others by apply props_of_entries_NoDup.
    apply props_of_entries_others, Hnd.
  - intros Hplain. unfold Views.entries. rewrite Hc'.
    assert (H1 : P1 = c).
    { unfold P1, props_of_entries. apply (props_plain c []); [exact Hplain | exact Hnd]. }
    unfold P2. rewrite H1. exact H1.
Qed.

(** Saved with the keys [b], [10], [9] set in this order, the store comes
    back with [9], [10], [b]: the oldest key is now [9]. *)
Lemma restart_keeps_order_witness :
  let wS := run Crypto.sha256_hex (constructed (new_HashCache no_options Node.boot))
                [ESet "b" "x" None; ESet "10" "y" None; ESet "9" "z" None] in
  let nB := Node.boot_with ".cache" (JSON_stringify (snapshot wS)) in
  exists wB,
    startup_load Crypto.sha256_hex true (constructed (new_PersistentHashCache no_options nB))
    = (None, wB)
    /\ get "b" wB = Some "x"
    /\ keys wS = ["b"; "10"; "9"]
    /\ keys wB = ["9"; "10"; "b"].
Proof.
  cbv zeta.
  set (wS := run _ _ _).
  assert (Hr : reachable Crypto.sha256_hex wS).
  { exists no_options, Node.boot, (constructed (new_HashCache no_options Node.boot)),
           [ESet "b" "x" None; ESet "10" "y" None; ESet "9" "z" None].
    split; [reflexivity | split; [left; reflexivity | reflexivity]]. }
  destruct (restart_keeps_order Crypto.sha256_hex wS
              (Node.boot_with ".cache" (JSON_stringify (snapshot wS))) no_options
              (constructed (new_PersistentHashCache no_options
                              (Node.boot_with ".cache" (JSON_stringify (snapshot wS)))))
              true Hr eq_refl eq_refl) as (wB & Hl & Hget & _).
  exists wB. split; [exact Hl|]. split; [rewrite Hget; vm_compute; reflexivity|].
  split; [vm_compute; reflexivity|].
  assert (HwB : wB = snd (startup_load Crypto.sha256_hex true
                            (constructed (new_PersistentHashCache no_options
                               (Node.boot_with ".cache" (JSON_stringify (snapshot wS))))))).
  { rewrite Hl. reflexivity. }
  rewrite HwB. vm_compute. reflexivity.
Defined.

(** ** What a load recovers from *)

(** X2. On a file written in ASCII with no [\u] escape: content that
    [JSON.parse] rejects loads as the empty document, the store left as it
    was; and of a flat object's entries those whose value is text are
    loaded, in the object's order, and the others passed over.  Neither
    raises. *)
Theorem load_recovers digest from io w data :
  existsSync (_cachePath (ext w)) (node w) = true ->
  readFile (nullish from (_cachePath (ext w))) (node w) = Some data ->
  plain_text data = true ->
  (JSON_parse data = None ->
   exists w', loadCache digest from io w = (None, w')
              /\ _cache (self w') = _cache (self w))
  /\ (forall props, JSON_parse data = Some (JObject props) -> flat props = true ->
      exists w', loadCache digest from io w = (None, w')
                 /\ _cache (self w') = Map_set_all (text_entries props) (_cache (self w))).
Proof.
  intros Hex Hr _. split.
  - intros Hp.
    destruct (loadCache_ok digest from io w data [] Hex Hr) as (w' & Hl & Hc & _).
    { unfold parsed_or_empty. rewrite Hp. reflexivity. }
    exists w'. split; [exact Hl | exact Hc].
  - intros props Hp _.
    destruct (loadCache_ok digest from io w data props Hex Hr) as (w' & Hl & Hc & _).
    { unfold parsed_or_empty. rewrite Hp. reflexivity. }
    exists w'. split; [exact Hl | exact Hc].
Qed.

(** On a file that is not JSON, and on one that holds a text entry between
    two that are not text. *)
Lemma load_recovers_witness :
  let w := constructed (new_PersistentHashCache no_options
                          (Node.boot_with ".cache" "{ not json")) in
  let data := JSON_stringify (JObject [("n", JNumber 1); ("a", JString "1"); ("t", JBool true)]) in
  let v := constructed (new_PersistentHashCache no_options (Node.boot_with ".cache" data)) in
  (exists w', loadCache Crypto.sha256_hex None true w = (None, w')
              /\ _cache (self w') = _cache (self w))
  /\ (exists v', loadCache Crypto.sha256_hex None true v = (None, v')
                 /\ _cache (self v') = [("a", "1")]).
Proof.
  cbv zeta. split.
  - apply (load_recovers Crypto.sha256_hex None true
             (constructed (new_PersistentHashCache no_options
                             (Node.boot_with ".cache" "{ not json")))
             "{ not json"); reflexivity.
  - apply (proj2 (load_recovers Crypto.sha256_hex None true
                    (constructed
                       (new_PersistentHashCache no_options
                          (Node.boot_with ".cache"
                             (JSON_stringify
                                (JObject [("n", JNumber 1); ("a", JString "1"); ("t", JBool true)])))))
                    (JSON_stringify
                       (JObject [("n", JNumber 1); ("a", JString "1"); ("t", JBool true)]))
                    eq_refl eq_refl eq_refl)
                 [("n", JNumber 1); ("a", JString "1"); ("t", JBool true)]); reflexivity.
Defined.

(** ** What [delete] does take away *)

(** [delete] answers whether the key was there, and takes the entry and the
    key's record away together. *)
Lemma delete_entry_and_record id w :
  fst (delete id w) = has id w
  /\ _cache (self (snd (delete id w))) = Map_remove id (_cache (self w))
  /\ expiryMap (self (snd (delete id w))) = Map_remove id (expiryMap (self w)).
Proof.
  split; [apply delete_returns | split; [apply cache_delete | apply expiryMap_delete]].
Qed.
